(** * lbvh: the hierarchy validator and the fake task scheduler

    A shallow embedding of [src/lbvh_test.cpp] ([volume_of],
    [check_bvh_volumes], [check_bvh], [ray_scheduler::make_frame], [main])
    and of [src/fake_thread_pool.h] ([fake_task_scheduler]), with the
    properties the specification states about them and further properties
    of the code. *)

From Stdlib Require Import ZArith NArith Bool Lia SpecFloat.
From Stdlib Require Import Ascii.
From stdpp Require Import base list relations strings.

Set Default Proof Using "Type".

(** ** Single-precision floats

    [float] in the source is IEEE-754 binary32.  The Standard Library's
    [spec_float] with 24 bits of precision and maximal exponent 128 is that
    format; its operations are ordinary functions, NaN and infinities
    included. *)

Definition float : Set := spec_float.
Definition prec : Z := 24.
Definition emax : Z := 128.

Definition fsub : float -> float -> float := SFsub prec emax.
Definition fmul : float -> float -> float := SFmul prec emax.
Definition flt : float -> float -> bool := SFltb.
Definition fle : float -> float -> bool := SFleb.

Definition is_nan (f : float) : bool :=
  match f with S754_nan => true | _ => false end.

Record vec3 : Set := { vec3_x : float; vec3_y : float; vec3_z : float }.
Record aabb : Set := { aabb_min : vec3; aabb_max : vec3 }.

(** Modelled from the spec: [detail::size_of] is declared in [lbvh.h], which
    is not part of the sources at hand.  The specification calls the volume
    "the product of the bounding box's three extents"; the extent along an
    axis is the maximum minus the minimum. *)
Definition size_of (box : aabb) : vec3 :=
  {| vec3_x := fsub (vec3_x (aabb_max box)) (vec3_x (aabb_min box));
     vec3_y := fsub (vec3_y (aabb_max box)) (vec3_y (aabb_min box));
     vec3_z := fsub (vec3_z (aabb_max box)) (vec3_z (aabb_min box)) |}.

(** [volume_of], lines 18-21: [size.x * size.y * size.z], left to right. *)
Definition volume_of (box : aabb) : float :=
  let size := size_of box in
  fmul (fmul (vec3_x size) (vec3_y size)) (vec3_z size).

(** ** Nodes and hierarchies *)

(** Modelled from the spec: the node type is declared in [lbvh.h].  The
    specification describes each child reference as "tagged as either
    internal node index or leaf index (mutually exclusive per side)". *)
Inductive child : Set :=
| Internal (index : nat)
| Leaf (index : nat).

Record node : Set := { box : aabb; left : child; right : child }.

Definition is_leaf (c : child) : bool :=
  match c with Leaf _ => true | Internal _ => false end.

(** The index a reference carries: the node index of [node.left] when the
    reference is not a leaf, the result of [left_leaf_index()] when it is. *)
Definition index_of (c : child) : nat :=
  match c with Internal k => k | Leaf k => k end.

Definition left_is_leaf (n : node) : bool := is_leaf (left n).
Definition right_is_leaf (n : node) : bool := is_leaf (right n).
Definition left_leaf_index (n : node) : nat := index_of (left n).
Definition right_leaf_index (n : node) : nat := index_of (right n).

(** A [bvh<float>] is its vector of internal nodes; [bvh.size()] is the
    length of that vector.

    Indices and counters ([size_type], and [int] for [errors]) are natural
    numbers here.  In [check_bvh] they are only incremented and compared,
    and they stay below twice the size of the hierarchy plus two, so that
    for a hierarchy of less than 2^30 nodes no operation on them wraps. *)
Abbreviation bvh := (list node).

(** The storage just outside the vectors.  [operator[]] is not bounds
    checked: an index equal to the size reads whatever follows the last
    element.  C++ defines neither that value nor what the program does
    after the read.  Here the read is recorded in the run (see [event]
    below) and yields a value that the functions take as an argument, so
    that every statement holds for whatever the storage contains. *)
Record overrun : Set := { past_nodes : node; past_counts : nat }.

(** ** Runs: diagnostics, exceptions, divergence *)

(** The two values of [int] that the functions return. *)
Inductive exit_status : Set := EXIT_SUCCESS | EXIT_FAILURE.

Definition exit_status_eqb (a b : exit_status) : bool :=
  match a, b with
  | EXIT_SUCCESS, EXIT_SUCCESS | EXIT_FAILURE, EXIT_FAILURE => true
  | _, _ => false
  end.

(** What a run leaves behind, in order: the diagnostics it prints, the
    nodes the geometric audit is called on, and the reads it makes outside
    a vector. *)
Inductive event : Set :=
| Visit (index : nat)
| LeftVolume (index sub : nat) (parent_volume left_volume : float)
| RightVolume (index sub : nat) (parent_volume right_volume : float)
| RootReferenced (n : nat)
| NodeCounted (i n : nat)
| LeafReferenced (i n : nat)
| NodeOverrun (i : nat)
| CountOverrun (i : nat).

(** How a computation ends: with a value, with [std::out_of_range] thrown by
    a checked [at()], or not at all (the recursion ran out of [fuel]). *)
Inductive result (A : Type) : Type :=
| Ret (a : A)
| Throw
| Diverge.
Arguments Ret {A} a.
Arguments Throw {A}.
Arguments Diverge {A}.

Definition run (A : Type) : Type := list event * result A.

Definition ret {A} (a : A) : run A := ([], Ret a).
Definition throw {A} : run A := ([], Throw).
Definition diverge {A} : run A := ([], Diverge).
Definition tell (e : event) : run unit := ([e], Ret tt).

Definition bind {A B} (m : run A) (k : A -> run B) : run B :=
  match m.2 with
  | Ret a => (m.1 ++ (k a).1, (k a).2)
  | Throw => (m.1, Throw)
  | Diverge => (m.1, Diverge)
  end.

Declare Scope run_scope.
Delimit Scope run_scope with run.
Notation "x <- m ;; k" := (bind m (fun x => k))
  (at level 100, m at next level, right associativity) : run_scope.
Notation "m ;; k" := (bind m (fun _ => k))
  (at level 100, right associativity) : run_scope.
Open Scope run_scope.

(** [bvh.at(i)] and [v.at(i)]: checked. *)
Definition at_ {A} (v : list A) (i : nat) : run A :=
  match v !! i with
  | Some a => ret a
  | None => throw
  end.

(** [bvh[i]]: unchecked. *)
Definition node_index (b : bvh) (mem : overrun) (i : nat) : run node :=
  match b !! i with
  | Some n => ret n
  | None => tell (NodeOverrun i) ;; ret (past_nodes mem)
  end.

(** [node_counts[i]] and [leaf_counts[i]]: unchecked. *)
Definition count_index (v : list nat) (mem : overrun) (i : nat) : run nat :=
  match v !! i with
  | Some n => ret n
  | None => tell (CountOverrun i) ;; ret (past_counts mem)
  end.

(** [v.at(i)++] *)
Definition incr_at (v : list nat) (i : nat) : run (list nat) :=
  n <- at_ v i ;;
  ret (<[i := S n]> v).

(** [for (size_type i = lo; i < hi; i++) body], for a body without
    [return]: the loop state is threaded through. *)
Fixpoint for_indices {S} (body : nat -> S -> run S) (indices : list nat)
    (s : S) : run S :=
  match indices with
  | [] => ret s
  | i :: rest => s' <- body i s ;; for_indices body rest s'
  end.

(** The same for a body that may [return code]: [inr code] leaves the loop
    and the function. *)
Fixpoint for_indices_or_return {S R} (body : nat -> S -> run (S + R))
    (indices : list nat) (s : S) : run (S + R) :=
  match indices with
  | [] => ret (inl s)
  | i :: rest =>
      r <- body i s ;;
      match r with
      | inl s' => for_indices_or_return body rest s'
      | inr code => ret (inr code)
      end
  end.

(** ** Phase 2: [check_bvh_volumes], lines 33-86 *)

(** Lines 41-49 and 51-59: compare the parent's volume with that of a child
    that is not a leaf; the result is the updated [errors]. *)
Definition check_sub_volume (b : bvh) (index : nat) (parent_volume : float)
    (sub : child) (report : nat -> nat -> float -> float -> event)
    (errors : nat) : run nat :=
  if negb (is_leaf sub) then
    sub_node <- at_ b (index_of sub) ;;
    let sub_volume := volume_of (box sub_node) in
    if flt parent_volume sub_volume then
      tell (report index (index_of sub) parent_volume sub_volume) ;;
      ret (S errors)
    else ret errors
  else ret errors.

(** Lines 37-59: the local comparisons of one node. *)
Definition local_errors (b : bvh) (index : nat) (n : node) : run nat :=
  let parent_volume := volume_of (box n) in
  errors <- check_sub_volume b index parent_volume (left n) LeftVolume 0 ;;
  check_sub_volume b index parent_volume (right n) RightVolume errors.

(** Lines 61-85 fold the results of the two recursive calls.  [inr code] is
    the [return ret] of line 71; [inl exit_code] goes on to line 78. *)
Definition fold_left_result (errors_fatal : bool) (exit_code ret_ : exit_status)
    : exit_status + exit_status :=
  if negb (exit_status_eqb ret_ EXIT_SUCCESS) then
    if errors_fatal then inr ret_ else inl ret_
  else inl exit_code.

Definition fold_right_result (exit_code ret_ : exit_status) : exit_status :=
  if negb (exit_status_eqb ret_ EXIT_SUCCESS) then ret_ else exit_code.

Fixpoint check_bvh_volumes (fuel : nat) (b : bvh) (errors_fatal : bool)
    (index : nat) : run exit_status :=
  match fuel with
  | 0 => diverge
  | S fuel' =>
      n <- at_ b index ;;
      tell (Visit index) ;;
      errors <- local_errors b index n ;;
      if (0 <? errors) && errors_fatal then ret EXIT_FAILURE
      else
        let exit_code := if 0 <? errors then EXIT_FAILURE else EXIT_SUCCESS in
        after_left <-
          (if negb (left_is_leaf n) then
             ret_ <- check_bvh_volumes fuel' b errors_fatal (index_of (left n)) ;;
             ret (fold_left_result errors_fatal exit_code ret_)
           else ret (inl exit_code)) ;;
        match after_left with
        | inr code => ret code
        | inl exit_code =>
            if negb (right_is_leaf n) then
              ret_ <- check_bvh_volumes fuel' b errors_fatal (index_of (right n)) ;;
              ret (fold_right_result exit_code ret_)
            else ret exit_code
        end
  end.

(** ** Phase 1 and [check_bvh], lines 98-166 *)

(** Lines 104-113: the sweep that fills [node_counts]. *)
Definition node_sweep_indices (b : bvh) : list nat := seq 0 (length b).

Definition count_node_refs (b : bvh) (mem : overrun) (i : nat)
    (node_counts : list nat) : run (list nat) :=
  n <- node_index b mem i ;;
  node_counts <-
    (if negb (left_is_leaf n) then incr_at node_counts (index_of (left n))
     else ret node_counts) ;;
  if negb (right_is_leaf n) then incr_at node_counts (index_of (right n))
  else ret node_counts.

Definition node_sweep (b : bvh) (mem : overrun) : run (list nat) :=
  for_indices (count_node_refs b mem) (node_sweep_indices b)
    (replicate (length b) 0).

(** Lines 115-120: the root check.  The result tells whether the function
    returns [EXIT_FAILURE] here. *)
Definition check_root (mem : overrun) (errors_fatal : bool)
    (node_counts : list nat) : run bool :=
  n <- count_index node_counts mem 0 ;;
  if 0 <? n then
    tell (RootReferenced n) ;;
    ret errors_fatal
  else ret false.

(** Lines 122-134 and 149-159: one step of a check loop. *)
Definition check_count (mem : overrun) (errors_fatal : bool)
    (counts : list nat) (report : nat -> nat -> event) (i : nat)
    (errors : nat) : run (nat + exit_status) :=
  n <- count_index counts mem i ;;
  if negb (n =? 1) then
    tell (report i n) ;;
    if errors_fatal then ret (inr EXIT_FAILURE) else ret (inl (S errors))
  else ret (inl errors).

Definition check_node_counts (mem : overrun) (errors_fatal : bool)
    (node_counts : list nat) (errors : nat) : run (nat + exit_status) :=
  for_indices_or_return (check_count mem errors_fatal node_counts NodeCounted)
    (seq 1 (length node_counts - 1)) errors.

(** Lines 136-147: the sweep that fills [leaf_counts]. *)
Definition leaf_sweep_indices (b : bvh) : list nat := seq 0 (length b + 1).

Definition count_leaf_refs (b : bvh) (mem : overrun) (i : nat)
    (leaf_counts : list nat) : run (list nat) :=
  n <- node_index b mem i ;;
  leaf_counts <-
    (if left_is_leaf n then incr_at leaf_counts (left_leaf_index n)
     else ret leaf_counts) ;;
  if right_is_leaf n then incr_at leaf_counts (right_leaf_index n)
  else ret leaf_counts.

Definition leaf_sweep (b : bvh) (mem : overrun) : run (list nat) :=
  for_indices (count_leaf_refs b mem) (leaf_sweep_indices b)
    (replicate (length b + 1) 0).

Definition check_leaf_counts (b : bvh) (mem : overrun) (errors_fatal : bool)
    (leaf_counts : list nat) (errors : nat) : run (nat + exit_status) :=
  for_indices_or_return (check_count mem errors_fatal leaf_counts LeafReferenced)
    (seq 0 (length b + 1)) errors.

Definition check_bvh (fuel : nat) (b : bvh) (mem : overrun)
    (errors_fatal : bool) : run exit_status :=
  node_counts <- node_sweep b mem ;;
  stop <- check_root mem errors_fatal node_counts ;;
  if (stop : bool) then ret EXIT_FAILURE
  else
    r <- check_node_counts mem errors_fatal node_counts 0 ;;
    match r with
    | inr code => ret code
    | inl errors =>
        leaf_counts <- leaf_sweep b mem ;;
        r <- check_leaf_counts b mem errors_fatal leaf_counts errors ;;
        match r with
        | inr code => ret code
        | inl errors =>
            if 0 <? errors then ret EXIT_FAILURE
            else check_bvh_volumes fuel b errors_fatal 0
        end
    end.

(** ** The fake task scheduler, [src/fake_thread_pool.h] *)

(** Modelled from the spec: [size_type] is declared in [lbvh.h].  The
    specification calls the worker-count limit an unsigned integer, and
    the diagnostics of [lbvh_test.cpp] print a [size_type] with [%lu]: 64
    bits.  Subtraction wraps around. *)
Definition size_type_bits : N := 64.
Definition size_type_modulus : N := 2 ^ size_type_bits.

Definition size_sub (a b : N) : N :=
  ((a + size_type_modulus - b mod size_type_modulus) mod size_type_modulus)%N.

(** The values [i] of [for (size_type i = 0; i < n; i++)]. *)
Definition size_range (n : N) : list N := map N.of_nat (seq 0 (N.to_nat n)).

(** Modelled from the spec: [work_division] is declared in [lbvh.h]; the
    specification gives it an index and the total partition count. *)
Record work_division : Set := { index : N; count : N }.

Record fake_task_scheduler : Set := { max_threads : N }.

(** The constructor, lines 20-21. *)
Definition make_fake_task_scheduler (max_threads_ : N) : fake_task_scheduler :=
  {| max_threads := if (max_threads_ =? 0)%N then 1%N else max_threads_ |}.

(** What one call does with threads, in program order.  A thread is named
    by its position in the [threads] vector.  [Spawn] is the construction
    of a [std::thread] running the task on a division, [Call] the
    invocation of the task on the calling thread (it has returned when the
    next action starts), [Join] the return of [th.join()], after which the
    thread's invocation has completed.  The task and the arguments that are
    forwarded to it are the same in every action of a call and are left
    out; the task is taken to return.  How the bodies of the threads
    interleave is not part of this model. *)
Inductive action : Set :=
| Spawn (thread : nat) (div : work_division)
| Call (div : work_division)
| Join (thread : nat).

Record pool : Set := { threads : list work_division; actions : list action }.

Definition emplace_back (p : pool) (div : work_division) : pool :=
  {| threads := threads p ++ [div];
     actions := actions p ++ [Spawn (length (threads p)) div] |}.

Definition call_task (p : pool) (div : work_division) : pool :=
  {| threads := threads p; actions := actions p ++ [Call div] |}.

Definition join (p : pool) (thread : nat) : pool :=
  {| threads := threads p; actions := actions p ++ [Join thread] |}.

(** [operator()], lines 26-42. *)
Definition schedule (s : fake_task_scheduler) : list action :=
  let p := {| threads := []; actions := [] |} in
  let p :=
    foldl (fun p i => emplace_back p {| index := i; count := max_threads s |})
      p (size_range (size_sub (max_threads s) 1)) in
  let p :=
    call_task p {| index := size_sub (max_threads s) 1; count := max_threads s |} in
  actions (foldl join p (seq 0 (length (threads p)))).

(** The divisions the task is invoked with, in the order the invocations
    are started. *)
Definition invocations (t : list action) : list work_division :=
  omap (fun a => match a with
                 | Spawn _ div | Call div => Some div
                 | Join _ => None
                 end) t.

(** The threads that have been started and not yet joined. *)
Definition pending_step (running : list nat) (a : action) : list nat :=
  match a with
  | Spawn k _ => running ++ [k]
  | Call _ => running
  | Join k => filter (fun j => j <> k) running
  end.

Definition pending (t : list action) : list nat := foldl pending_step [] t.

(** The divisions [{0, W}] ... [{W-1, W}]. *)
Definition divisions (W : N) : list work_division :=
  map (fun i => {| index := i; count := W |}) (size_range W).

(** ** The vocabulary of the specification *)

Global Instance child_eq_dec : EqDecision child.
Proof. solve_decision. Defined.

(** The two child references of a node, and all the child references of a
    hierarchy, node by node. *)
Definition kids (n : node) : list child := [left n; right n].
Definition children (b : bvh) : list child := flat_map kids b.

(** How many child references of the hierarchy are [c]: the reference
    counter of the specification for the internal node [i] is
    [references b (Internal i)], the one for the leaf [k] is
    [references b (Leaf k)]. *)
Definition references (b : bvh) (c : child) : nat :=
  count_occ child_eq_dec (children b) c.

(** A reference is in range when it names one of the [length b] internal
    nodes or one of the [length b + 1] leaves. *)
Definition in_range (b : bvh) (c : child) : bool :=
  match c with
  | Internal i => i <? length b
  | Leaf k => k <? length b + 1
  end.

Definition refs_in_range (b : bvh) : Prop :=
  Forall (fun c => in_range b c = true) (children b).

(** A node-sized slot without a leaf reference. *)
Definition leafless (n : node) : Prop :=
  left_is_leaf n = false /\ right_is_leaf n = false.

(** [edge b i c]: the internal node [i] has the internal node [c] as a
    child.  [reachable b i j]: [j] is [i] or a descendant of [i]. *)
Definition edge (b : bvh) (i c : nat) : Prop :=
  exists n, b !! i = Some n /\ Internal c ∈ kids n.

Definition reachable (b : bvh) : nat -> nat -> Prop := rtc (edge b).

(** A geometric violation: the internal child [c] of the node [i] has a
    volume that the parent's volume is less than (the comparison of lines
    43 and 53). *)
Definition exceeds (b : bvh) (i c : nat) : Prop :=
  exists n sub,
    b !! i = Some n /\ Internal c ∈ kids n /\ b !! c = Some sub /\
    flt (volume_of (box n)) (volume_of (box sub)) = true.

(** The property of the specification: the volume of every internal child
    is at most the volume of its parent. *)
Definition volumes_monotone (b : bvh) : Prop :=
  forall i c n sub,
    b !! i = Some n -> Internal c ∈ kids n -> b !! c = Some sub ->
    fle (volume_of (box sub)) (volume_of (box n)) = true.

(** [subtree b c t]: followed from the reference [c], the hierarchy unfolds
    into a finite binary tree whose internal nodes are, in preorder, [t]. *)
Inductive subtree (b : bvh) : child -> list nat -> Prop :=
| subtree_leaf k : subtree b (Leaf k) []
| subtree_node i n tl tr :
    b !! i = Some n ->
    subtree b (left n) tl ->
    subtree b (right n) tr ->
    subtree b (Internal i) (i :: tl ++ tr).

(** The nodes the geometric audit was called on, in order. *)
Definition visits (l : list event) : list nat :=
  omap (fun e => match e with Visit i => Some i | _ => None end) l.

(** The audit of what a child reference points to: nothing for a leaf. *)
Definition audit (fuel : nat) (b : bvh) (errors_fatal : bool) (c : child)
    : run exit_status :=
  match c with
  | Leaf _ => ret EXIT_SUCCESS
  | Internal i => check_bvh_volumes fuel b errors_fatal i
  end.

(** ** Counting, as the sweeps do it *)

(** The index under which a reference is counted: in [node_counts] for a
    reference to an internal node, in [leaf_counts] for one to a leaf. *)
Definition node_ref (c : child) : option nat :=
  match c with Internal i => Some i | Leaf _ => None end.
Definition leaf_ref (c : child) : option nat :=
  match c with Leaf k => Some k | Internal _ => None end.

(** [if (counted) v.at(index)++]. *)
Definition bump (sel : child -> option nat) (v : list nat) (c : child)
    : run (list nat) :=
  match sel c with
  | Some i => incr_at v i
  | None => ret v
  end.

(** One step of a sweep: both children of the node at [i]. *)
Definition sweep_step (sel : child -> option nat) (b : bvh) (mem : overrun)
    (i : nat) (v : list nat) : run (list nat) :=
  n <- node_index b mem i ;;
  v <- bump sel v (left n) ;;
  bump sel v (right n).

(** The reference fits a counter vector of size [n]. *)
Definition fits (sel : child -> option nat) (n : nat) (c : child) : bool :=
  match sel c with
  | Some i => i <? n
  | None => true
  end.

(** The reference is counted by a vector of size [n]. *)
Definition counted (sel : child -> option nat) (n : nat) (c : child) : bool :=
  match sel c with
  | Some i => i <? n
  | None => false
  end.

(** The counters [0 .. n-1] for the references [cs]. *)
Definition tally (tag : nat -> child) (cs : list child) (n : nat) : list nat :=
  map (fun i => count_occ child_eq_dec cs (tag i)) (seq 0 n).

(** The diagnostic of a check loop for the counter [i]. *)
Definition bad_count (counts : list nat) (report : nat -> nat -> event)
    (i : nat) : list event :=
  match counts !! i with
  | Some n => if n =? 1 then [] else [report i n]
  | None => []
  end.

(** ** Structural violations, as the specification lists them *)

Definition root_violation (b : bvh) : list event :=
  if 0 <? references b (Internal 0)
  then [RootReferenced (references b (Internal 0))]
  else [].

Definition miscounted (report : nat -> nat -> event) (tag : nat -> child)
    (b : bvh) (i : nat) : list event :=
  if references b (tag i) =? 1 then [] else [report i (references b (tag i))].

(** Every internal node but the root, then every leaf. *)
Definition node_violations (b : bvh) : list event :=
  flat_map (miscounted NodeCounted Internal b) (seq 1 (length b - 1)).

Definition leaf_violations (b : bvh) : list event :=
  flat_map (miscounted LeafReferenced Leaf b) (seq 0 (length b + 1)).

(** A chain of internal child references that starts at the root, last
    node first. *)
Inductive path (b : bvh) : list nat -> Prop :=
| path_root : path b [0]
| path_step i c p : path b (i :: p) -> edge b i c -> path b (c :: i :: p).

(** The reference counters are as the specification requires them. *)
Definition counters_as_required (b : bvh) : Prop :=
  references b (Internal 0) = 0 /\
  (forall i, 1 <= i < length b -> references b (Internal i) = 1) /\
  (forall k, k <= length b -> references b (Leaf k) = 1).

(** ** Hierarchies used as examples *)

Definition f0 : float := S754_zero false.
Definition f1 : float := S754_finite false 8388608 (-23).
Definition f2 : float := S754_finite false 8388608 (-22).
Definition finf : float := S754_infinity false.

Definition origin : vec3 := {| vec3_x := f0; vec3_y := f0; vec3_z := f0 |}.

(** The box from the origin to [(a, c, 1)]: its volume is [a * c]. *)
Definition slab (a c : float) : aabb :=
  {| aabb_min := origin;
     aabb_max := {| vec3_x := a; vec3_y := c; vec3_z := f1 |} |}.

Definition mk (a : float) (l r : child) : node :=
  {| box := slab a f1; left := l; right := r |}.

(** Storage past the vectors that reads as zero bytes, and one whose node
    slot reads as a node with the leaf [k] on the left. *)
Definition calm : overrun :=
  {| past_nodes := mk f0 (Internal 0) (Internal 0); past_counts := 0 |}.
Definition noisy (k : nat) : overrun :=
  {| past_nodes := mk f0 (Leaf k) (Internal 0); past_counts := 0 |}.

(** One node over two primitives. *)
Definition two_leaves : bvh := [mk f1 (Leaf 0) (Leaf 1)].

(** Three nodes over four primitives; the children are larger than the
    root. *)
Definition inflated : bvh :=
  [mk f1 (Internal 1) (Internal 2); mk f2 (Leaf 0) (Leaf 1); mk f2 (Leaf 2) (Leaf 3)].

(** The same shape with the volumes in order. *)
Definition sound : bvh :=
  [mk f2 (Internal 1) (Internal 2); mk f1 (Leaf 0) (Leaf 1); mk f1 (Leaf 2) (Leaf 3)].

(** A root over two leaves, and two further nodes that refer to each other:
    every counter is as required, yet the nodes 1 and 2 hang on no tree. *)
Definition detached : bvh :=
  [mk f1 (Leaf 0) (Leaf 1); mk f1 (Internal 2) (Leaf 2); mk f2 (Internal 1) (Leaf 3)].

(** A root whose box is unbounded along x and flat along y, so that its
    volume is [inf * 0], not a number. *)
Definition unbounded : bvh :=
  [{| box := slab finf f0; left := Internal 1; right := Leaf 0 |};
   mk f1 (Leaf 1) (Leaf 2)].

(** The root is referenced, and another reference dangles. *)
Definition dangling : bvh := [mk f1 (Internal 0) (Internal 7)].

(** The leaf 1 is not referenced; a leaf reference dangles. *)
Definition dangling_leaf : bvh := [mk f1 (Leaf 0) (Leaf 5)].

(** The root is sound; the node 1, on the left, is smaller than its child 3. *)
Definition left_bad : bvh :=
  [mk f2 (Internal 1) (Internal 2); mk f1 (Internal 3) (Leaf 0);
   mk f1 (Leaf 1) (Leaf 2); mk f2 (Leaf 3) (Leaf 4)].

(** The same with the small node on the right. *)
Definition right_bad : bvh :=
  [mk f2 (Internal 1) (Internal 2); mk f1 (Leaf 0) (Leaf 1);
   mk f1 (Internal 3) (Leaf 2); mk f2 (Leaf 3) (Leaf 4)].

(** Two nodes; the second refers to itself and to the root. *)
Definition root_child : bvh :=
  [mk f1 (Leaf 0) (Leaf 1); mk f1 (Internal 1) (Internal 0)].

(** One node that refers to the leaf 0 twice. *)
Definition twice : bvh := [mk f1 (Leaf 0) (Leaf 0)].


(** One node that refers to itself, the root, and to a leaf that does not
    exist. *)
Definition root_and_far_leaf : bvh := [mk f1 (Internal 0) (Leaf 5)].

(** ** Comparing the two policies *)

(** [cut_short rf rn]: the run [rf] prints an initial segment of what the
    run [rn] prints, and is the same run when it returns [EXIT_SUCCESS]. *)
Definition cut_short (rf rn : run exit_status) : Prop :=
  rf.1 `prefix_of` rn.1 /\ (rf.2 = Ret EXIT_SUCCESS -> rn = rf).

(** The events that are lines of diagnostic output. *)
Definition is_diagnostic (e : event) : bool :=
  match e with
  | LeftVolume _ _ _ _ | RightVolume _ _ _ _
  | RootReferenced _ | NodeCounted _ _ | LeafReferenced _ _ => true
  | Visit _ | NodeOverrun _ | CountOverrun _ => false
  end.

(** ** Diagnostic output *)

(** A log without a line of diagnostic output, and one with such a line. *)
Definition quiet (l : list event) : Prop :=
  Forall (fun e => is_diagnostic e = false) l.
Definition loud (l : list event) : Prop :=
  Exists (fun e => is_diagnostic e = true) l.

(** The run printed its diagnostics last, at most two of them, and what
    it printed it did not survive: it returned [EXIT_FAILURE] or threw. *)
Definition stops_at_report (l : list event) (r : result exit_status) : Prop :=
  exists l0 d,
    l = l0 ++ d /\ quiet l0 /\ Forall (fun e => is_diagnostic e = true) d /\
    length d <= 2 /\ (d <> [] -> r = Ret EXIT_FAILURE \/ r = Throw).

(** What the status of a run says about its output: [EXIT_FAILURE] comes
    with a diagnostic, [EXIT_SUCCESS] with events in [Q] only, and the
    fatal policy stops at the first report. *)
Definition reported (Q : event -> Prop) (fatal : bool) (m : run exit_status)
    : Prop :=
  (m.2 = Ret EXIT_FAILURE -> loud m.1) /\
  (m.2 = Ret EXIT_SUCCESS -> Forall Q m.1) /\
  (fatal = true -> stops_at_report m.1 m.2).

(** The one diagnostic that a successful run may have printed: the root's,
    without the fatal policy (lines 115-120 count no error). *)
Definition allowed (fatal : bool) (e : event) : Prop :=
  is_diagnostic e = true -> fatal = false /\ exists n, e = RootReferenced n.

(** ** [ray_scheduler::make_frame], lines 181-236 *)

Definition fadd : float -> float -> float := SFadd prec emax.
Definition fdiv : float -> float -> float := SFdiv prec emax.
Definition fopp : float -> float := SFopp.

(** The conversion of an integer to [float]: the nearest float, ties to
    even. *)
Definition float_of_Z (z : Z) : float := binary_normalize prec emax z 0 false.
Definition float_of_size (n : N) : float := float_of_Z (Z.of_N n).

(** [scalar_type(0.5)] and [0.75f]. *)
Definition half : float := S754_finite false 8388608 (-24).
Definition three_quarters : float := S754_finite false 12582912 (-24).

(** [size_type] multiplication wraps around. *)
Definition size_mul (a c : N) : N := ((a * c) mod size_type_modulus)%N.

(** [struct color], lines 169-177. *)
Record color : Set := { color_r : float; color_g : float; color_b : float }.

(** What is undefined in a run of [make_frame]: a float whose truncation
    is no [unsigned char], and a store outside [image_buf]. *)
Inductive fault : Set := Unrepresentable | OutOfBounds.

(** The conversion of a [float] to [unsigned char]: the value is truncated
    towards zero, and the conversion is undefined when the result is not
    in 0 .. 255 (a NaN and the infinities have no truncation). *)
Definition truncate (f : float) : option Z :=
  match f with
  | S754_zero _ => Some 0%Z
  | S754_finite s m e =>
      let t := Z.shiftl (Z.pos m) e in
      Some (if s then (- t)%Z else t)
  | S754_infinity _ | S754_nan => None
  end.

Definition to_uchar (f : float) : fault + Z :=
  match truncate f with
  | Some t => if ((0 <=? t) && (t <=? 255))%Z then inr t else inl Unrepresentable
  | None => inl Unrepresentable
  end.

(** [pixels[k] = v] for a [float] [v], where [pixels] points at the
    element [pixels] of the buffer. *)
Definition store (image_buf : list Z) (pixels k : nat) (v : float)
    : fault + list Z :=
  match to_uchar v with
  | inl f => inl f
  | inr c =>
      if pixels + k <? length image_buf
      then inr (<[pixels + k := c]> image_buf)
      else inl OutOfBounds
  end.

(** A loop [for (size_type i = 0; i < n; i++) body] whose body may be
    undefined. *)
Fixpoint for_each {S} (body : N -> S -> fault + S) (l : list N) (s : S)
    : fault + S :=
  match l with
  | [] => inr s
  | i :: rest =>
      match body i s with
      | inl f => inl f
      | inr s' => for_each body rest s'
      end
  end.

(** The state of the loops: the buffer, the pointer into it, and the rays
    the kernel has been called on so far. *)
Record frame (ray : Type) : Type :=
  { image_buf : list Z; pixels : nat; traced : list ray }.
Arguments image_buf {ray} _.
Arguments pixels {ray} _.
Arguments traced {ray} _.

Section MakeFrame.

(** Modelled from the spec: [ray] and its constructor from an origin and a
    direction are declared in [lbvh.h]; the specification says no more
    about them than that the traversal takes a ray.  The kernel is the
    template parameter of [make_frame]; it is taken to return, and to
    depend on its argument only. *)
Variable ray : Type.
Variable make_ray : vec3 -> vec3 -> ray.
Variable kern : ray -> color.

(** The members [x_res] and [y_res], set by the constructor (line 188). *)
Variable x_res y_res : N.

(** Lines 204 and 206. *)
Definition aspect_ratio : float := fdiv (float_of_size x_res) (float_of_size y_res).
Definition fov : float := three_quarters.

(** Lines 212-223: the ray through the pixel [(x, y)]. *)
Definition camera_ray (x y : N) : ray :=
  let x_ndc :=
    fsub (fdiv (fmul (float_of_Z 2) (fadd (float_of_size x) half))
               (float_of_size x_res))
         (float_of_Z 1) in
  let y_ndc :=
    fadd (fopp (fdiv (fmul (float_of_Z 2) (fadd (float_of_size y) half))
                     (float_of_size y_res)))
         (float_of_Z 1) in
  let ray_dir :=
    {| vec3_x := fmul (fmul x_ndc aspect_ratio) fov;
       vec3_y := fmul y_ndc fov;
       vec3_z := float_of_Z (-1) |} in
  make_ray {| vec3_x := float_of_Z 0; vec3_y := float_of_Z 0;
              vec3_z := float_of_Z 5 |} ray_dir.

(** Lines 212-231: the body of the inner loop. *)
Definition plot (y x : N) (st : frame ray) : fault + frame ray :=
  let r := camera_ray x y in
  let color := kern r in
  match store (image_buf st) (pixels st) 0 (fmul (color_r color) (float_of_Z 255)) with
  | inl f => inl f
  | inr buf =>
      match store buf (pixels st) 1 (fmul (color_g color) (float_of_Z 255)) with
      | inl f => inl f
      | inr buf =>
          match store buf (pixels st) 2 (fmul (color_b color) (float_of_Z 255)) with
          | inl f => inl f
          | inr buf =>
              inr {| image_buf := buf; pixels := pixels st + 3;
                     traced := traced st ++ [r] |}
          end
      end
  end.

(** [make_frame], lines 198-235.  The allocation of the vector is taken
    to succeed; its elements are zero.  The result is the buffer, together
    with the rays the kernel was called on, in the order of the calls. *)
Definition make_frame : fault + (list ray * list Z) :=
  let st :=
    {| image_buf := replicate (N.to_nat (size_mul (size_mul x_res y_res) 3)) 0%Z;
       pixels := 0; traced := [] |} in
  match
    for_each (fun y st => for_each (plot y) (size_range x_res) st)
      (size_range y_res) st
  with
  | inl f => inl f
  | inr st => inr (traced st, image_buf st)
  end.

(** The three bytes of the pixel [(x, y)], when its colour has them. *)
Definition pixel_bytes (x y : N) : option (list Z) :=
  let color := kern (camera_ray x y) in
  match to_uchar (fmul (color_r color) (float_of_Z 255)),
        to_uchar (fmul (color_g color) (float_of_Z 255)),
        to_uchar (fmul (color_b color) (float_of_Z 255)) with
  | inr r, inr g, inr b => Some [r; g; b]
  | _, _, _ => None
  end.

(** The pixels in the order of the loops: row by row. *)
Definition scan : list (N * N) :=
  flat_map (fun y => map (fun x => (x, y)) (size_range x_res)) (size_range y_res).

End MakeFrame.

(** ** [main], lines 311-331 *)

(** What [main] does after the loop over its arguments: it calls
    [run_test<float>(filename, errors_fatal)] and returns its result, or
    it has printed a line on [stderr] and returns [EXIT_FAILURE]. *)
Inductive main_outcome : Set :=
| Run_test (filename : string) (errors_fatal : Z)
| Unknown_option (stderr : string).

Definition newline : string := String (ascii_of_nat 10) EmptyString.

(** [argv[i][0] == '-']; the first character of an empty argument is the
    terminator. *)
Definition starts_with_dash (arg : string) : bool :=
  match arg with
  | String c _ => Ascii.eqb c "-"
  | EmptyString => false
  end.

(** Lines 317-326: the loop over [argv[1]] ... [argv[argc - 1]].
    [strcmp(a, b) == 0] is the equality of the two strings. *)
Fixpoint parse_arguments (args : list string) (errors_fatal : Z)
    (filename : string) : main_outcome :=
  match args with
  | [] => Run_test filename errors_fatal
  | arg :: rest =>
      if String.eqb arg "--errors_fatal" then parse_arguments rest 1 filename
      else if negb (starts_with_dash arg) then
        parse_arguments rest errors_fatal arg
      else Unknown_option ("Unknown option '" +:+ arg +:+ "'" +:+ newline)
  end.

(** [argv] has [argc] elements; [argv[0]] is not looked at. *)
Definition main (argv : list string) : main_outcome :=
  parse_arguments (drop 1 argv) 0 "models/sponza.obj".

(** An argument that [main] does not accept, and the arguments it takes
    for a file name. *)
Definition unknown (arg : string) : bool :=
  starts_with_dash arg && negb (String.eqb arg "--errors_fatal").
Definition names_file (arg : string) : bool := negb (starts_with_dash arg).

(** A kernel used as an example: the ray is its direction along x; what
    lies to the left is dark blue, the rest orange. *)
Definition heading (origin dir : vec3) : float := vec3_x dir.
Definition shade (r : float) : color :=
  if flt r f0 then {| color_r := f0; color_g := f0; color_b := half |}
  else {| color_r := f1; color_g := half; color_b := half |}.

(** ** What the audit prints *)

(** An event of the audit that started at the node [i] is true to the
    hierarchy: a visit is that of a node reachable from [i]; a volume
    line names a reachable node, the internal child it has on that side,
    their two volumes, and the parent's is the smaller one. *)
Definition truthful (b : bvh) (i : nat) (e : event) : Prop :=
  match e with
  | Visit j => reachable b i j
  | LeftVolume j c pv sv =>
      reachable b i j /\
      exists n sub,
        b !! j = Some n /\ left n = Internal c /\ b !! c = Some sub /\
        pv = volume_of (box n) /\ sv = volume_of (box sub) /\ flt pv sv = true
  | RightVolume j c pv sv =>
      reachable b i j /\
      exists n sub,
        b !! j = Some n /\ right n = Internal c /\ b !! c = Some sub /\
        pv = volume_of (box n) /\ sv = volume_of (box sub) /\ flt pv sv = true
  | _ => False
  end.

(** A line of the output of [check_bvh] is true to the hierarchy: a
    counter line names a counter of the loop that prints it and the
    number of references that were counted for it, which is not the
    number that is required; what is read outside a vector is the root's
    counter of the hierarchy without nodes, and the node slot one past
    the array; the events of the audit are as [truthful] says.  The leaf
    counters include the references found in the slot past the array. *)
Definition line_is_true (b : bvh) (mem : overrun) (e : event) : Prop :=
  match e with
  | RootReferenced n =>
      0 < n /\ (b <> [] -> n = references b (Internal 0)) /\
      (b = [] -> n = past_counts mem)
  | NodeCounted i n =>
      1 <= i < length b /\ n = references b (Internal i) /\ n <> 1
  | LeafReferenced k n =>
      k <= length b /\
      n = count_occ child_eq_dec (children b ++ kids (past_nodes mem)) (Leaf k) /\
      n <> 1
  | NodeOverrun i => i = length b
  | CountOverrun i => b = [] /\ i = 0
  | Visit _ | LeftVolume _ _ _ _ | RightVolume _ _ _ _ => truthful b 0 e
  end.

(** ** What the language defines of a run *)




(** ** Lemmas on runs *)

(** A closed goal about a concrete run is settled by running it. *)
Ltac by_running := vm_compute; reflexivity.

Lemma bind_ret {A B} (a : A) (k : A -> run B) : bind (ret a) k = k a.
Proof. unfold bind, ret; simpl. by destruct (k a). Qed.

Lemma bind_throw {A B} (k : A -> run B) : bind throw k = throw.
Proof. reflexivity. Qed.

Lemma bind_diverge {A B} (k : A -> run B) : bind diverge k = diverge.
Proof. reflexivity. Qed.

Lemma bind_tell {B} (e : event) (k : unit -> run B) :
  bind (tell e) k = (e :: (k tt).1, (k tt).2).
Proof. reflexivity. Qed.

Lemma bind_logged {A B} (l : list event) (a : A) (k : A -> run B) :
  bind (l, Ret a) k = (l ++ (k a).1, (k a).2).
Proof. reflexivity. Qed.

Lemma bind_assoc {A B C} (m : run A) (k : A -> run B) (h : B -> run C) :
  bind (bind m k) h = bind m (fun a => bind (k a) h).
Proof.
  destruct m as [l [a| |]]; unfold bind; simpl; try done.
  destruct (k a) as [l' [b| |]]; simpl; try done.
  by rewrite app_assoc.
Qed.

Lemma bind_value {A B} (m : run A) (k : A -> run B) (l : list event) (v : B) :
  bind m k = (l, Ret v) ->
  exists l1 a l2, m = (l1, Ret a) /\ k a = (l2, Ret v) /\ l = l1 ++ l2.
Proof.
  destruct m as [l1 [a| |]]; unfold bind; simpl; try done.
  destruct (k a) as [l2 r] eqn:E; simpl. intros [= <- ->]. by exists l1, a, l2.
Qed.

(** ** The scheduler *)

Lemma size_sub_1 (W : N) :
  (1 <= W < size_type_modulus)%N -> size_sub W 1 = (W - 1)%N.
Proof.
  intros [H1 H2]. unfold size_sub.
  assert (Hm : (1 mod size_type_modulus = 1)%N) by reflexivity.
  rewrite Hm.
  replace (W + size_type_modulus - 1)%N with ((W - 1) + 1 * size_type_modulus)%N by lia.
  rewrite N.Div0.mod_add. apply N.mod_small. lia.
Qed.

Lemma size_range_succ (n : N) : size_range (N.succ n) = size_range n ++ [n].
Proof.
  unfold size_range. rewrite N2Nat.inj_succ, seq_S, map_app. simpl.
  by rewrite N2Nat.id.
Qed.

Lemma spawn_loop (mk : N -> work_division) (l : list N) (p : pool) :
  foldl (fun p i => emplace_back p (mk i)) p l =
  {| threads := threads p ++ map mk l;
     actions := actions p ++
       imap (fun j div => Spawn (length (threads p) + j) div) (map mk l) |}.
Proof.
  revert p. induction l as [|i l IH]; intros p; simpl.
  - destruct p; simpl. by rewrite !app_nil_r.
  - rewrite IH. simpl. rewrite <- !app_assoc. simpl. f_equal. f_equal.
    rewrite Nat.add_0_r. f_equal. rewrite length_app. simpl.
    apply imap_ext. intros j d _. simpl. f_equal. lia.
Qed.

Lemma join_loop (l : list nat) (p : pool) :
  foldl join p l =
  {| threads := threads p; actions := actions p ++ map Join l |}.
Proof.
  revert p. induction l as [|k l IH]; intros p; simpl.
  - destruct p; simpl. by rewrite app_nil_r.
  - rewrite IH. simpl. by rewrite <- app_assoc.
Qed.

(** The shape of one call: the spawns, the synchronous call, the joins. *)
Lemma schedule_shape (s : fake_task_scheduler) :
  let spawned :=
    map (fun i => {| index := i; count := max_threads s |})
      (size_range (size_sub (max_threads s) 1)) in
  schedule s =
  imap Spawn spawned
  ++ Call {| index := size_sub (max_threads s) 1; count := max_threads s |}
  :: map Join (seq 0 (length spawned)).
Proof.
  unfold schedule. rewrite join_loop. simpl.
  rewrite (spawn_loop (fun i => {| index := i; count := max_threads s |})).
  simpl. by rewrite <- app_assoc.
Qed.

Lemma invocations_app (t1 t2 : list action) :
  invocations (t1 ++ t2) = invocations t1 ++ invocations t2.
Proof. apply omap_app. Qed.

Lemma invocations_spawns (f : nat -> nat) (l : list work_division) :
  invocations (imap (fun j div => Spawn (f j) div) l) = l.
Proof.
  revert f. induction l as [|d l IH]; intros f; simpl; [done|].
  unfold invocations in *. simpl. f_equal. apply (IH (f ∘ S)).
Qed.

Lemma invocations_joins (l : list nat) : invocations (map Join l) = [].
Proof. induction l; simpl; auto. Qed.

Lemma pending_app (t1 t2 : list action) :
  pending (t1 ++ t2) = foldl pending_step (pending t1) t2.
Proof. unfold pending. apply foldl_app. Qed.

Lemma pending_spawns (l : list work_division) (n : nat) (running : list nat) :
  foldl pending_step running (imap (fun j div => Spawn (n + j) div) l) =
  running ++ seq n (length l).
Proof.
  revert n running. induction l as [|d l IH]; intros n running; simpl.
  - by rewrite app_nil_r.
  - rewrite (imap_ext _ (fun j div => Spawn (S n + j) div)).
    + rewrite IH, <- app_assoc, Nat.add_0_r. done.
    + intros j x _. simpl. f_equal. lia.
Qed.

Lemma filter_none {A} (P : A -> Prop) `{!forall x, Decision (P x)} (l : list A) :
  Forall (fun x => ~ P x) l -> filter P l = [].
Proof.
  induction 1 as [|x l Hx _ IH]; [done|]. by rewrite filter_cons_False.
Qed.

Lemma filter_all {A} (P : A -> Prop) `{!forall x, Decision (P x)} (l : list A) :
  Forall P l -> filter P l = l.
Proof.
  induction 1 as [|x l Hx _ IH]; [done|]. by rewrite filter_cons_True, IH.
Qed.

Lemma pending_joins (l running : list nat) :
  foldl pending_step running (map Join l) = filter (fun j => j ∉ l) running.
Proof.
  revert running. induction l as [|k l IH]; intros running; simpl.
  - symmetry. apply filter_all, Forall_forall. intros j _. apply not_elem_of_nil.
  - rewrite IH, list_filter_filter. apply list_filter_iff.
    intros j. rewrite not_elem_of_cons. tauto.
Qed.

Lemma divisions_NoDup (W : N) : NoDup (divisions W).
Proof.
  unfold divisions, size_range. rewrite <- list_fmap_compose.
  apply NoDup_fmap_2; [|apply NoDup_seq].
  intros i j [= H]. lia.
Qed.

Lemma divisions_last (W : N) :
  (1 <= W)%N ->
  divisions W =
  map (fun i => {| index := i; count := W |}) (size_range (W - 1))
  ++ [{| index := (W - 1)%N; count := W |}].
Proof.
  intros HW. unfold divisions.
  assert (E : size_range W = size_range (W - 1) ++ [(W - 1)%N]).
  { rewrite <- size_range_succ. f_equal. lia. }
  by rewrite E, map_app.
Qed.

(** C5: a scheduler constructed with the limit 0 is the scheduler constructed
    with the limit 1, and its call is the single synchronous invocation of
    the task with the division [{0, 1}]: no thread is started, none is
    joined. *)
Theorem scheduler_zero_is_one :
  make_fake_task_scheduler 0 = make_fake_task_scheduler 1 /\
  schedule (make_fake_task_scheduler 0) = schedule (make_fake_task_scheduler 1) /\
  schedule (make_fake_task_scheduler 0) = [Call {| index := 0; count := 1 |}].
Proof. repeat split; by_running. Qed.

(** C4: for a limit [W >= 1] (a [size_type] value), one call starts the task
    on exactly the divisions [{0, W}] ... [{W-1, W}], once each and in this
    order of starting, which makes [W] invocations without repeats; the
    last one runs on the calling thread; and no thread that was started is
    still to be joined when the call returns. *)
Theorem schedule_runs_every_division_once (W : N) :
  (1 <= W < size_type_modulus)%N ->
  let t := schedule (make_fake_task_scheduler W) in
  invocations t = divisions W /\
  length (invocations t) = N.to_nat W /\
  NoDup (invocations t) /\
  (forall div, div ∈ invocations t <->
     exists i, (i < W)%N /\ div = {| index := i; count := W |}) /\
  Call {| index := (W - 1)%N; count := W |} ∈ t /\
  pending t = [].
Proof.
  intros HW t.
  assert (Hmax : max_threads (make_fake_task_scheduler W) = W).
  { unfold make_fake_task_scheduler. simpl.
    destruct (N.eqb_spec W 0); [lia|done]. }
  assert (Ht : t =
    imap Spawn (map (fun i => {| index := i; count := W |}) (size_range (W - 1)))
    ++ Call {| index := (W - 1)%N; count := W |}
    :: map Join (seq 0 (length
         (map (fun i => {| index := i; count := W |}) (size_range (W - 1)))))).
  { subst t. rewrite schedule_shape, Hmax, size_sub_1; done. }
  assert (Hinv : invocations t = divisions W).
  { rewrite Ht, invocations_app. change (imap Spawn) with
      (imap (fun j div => Spawn (id j) div)).
    rewrite invocations_spawns. unfold invocations at 1. simpl.
    fold (invocations (map Join (seq 0 (length
      (map (fun i => {| index := i; count := W |}) (size_range (W - 1))))))).
    rewrite invocations_joins. rewrite divisions_last by lia. done. }
  split; [done|]. rewrite Hinv.
  split; [unfold divisions, size_range; by rewrite !length_map, length_seq|].
  split; [apply divisions_NoDup|].
  split.
  - intros div. unfold divisions, size_range. rewrite !list_elem_of_fmap. split.
    + intros (i & -> & (k & -> & Hk)%list_elem_of_fmap).
      apply elem_of_seq in Hk. exists (N.of_nat k). split; [lia|done].
    + intros (i & Hi & ->). exists i. split; [done|].
      apply list_elem_of_fmap. exists (N.to_nat i).
      split; [by rewrite N2Nat.id|]. apply elem_of_seq. lia.
  - split; [rewrite Ht; apply elem_of_app; right; left|].
    rewrite Ht, pending_app.
    change (imap Spawn) with (imap (fun j div => Spawn (0 + j) div)).
    unfold pending at 1. rewrite pending_spawns. simpl.
    rewrite pending_joins. generalize (length
      (map (fun i => {| index := i; count := W |}) (size_range (W - 1)))).
    intros n. apply filter_none, Forall_forall. intros j Hj Hn. done.
Qed.

(** ** The geometric audit, one call at a time *)

Lemma bind_ext {A B} (m : run A) (k k' : A -> run B) :
  (forall a, k a = k' a) -> bind m k = bind m k'.
Proof. intros H. unfold bind. destruct (m.2); by rewrite ?H. Qed.

Lemma check_sub_volume_eq (b : bvh) i pv sub report e :
  check_sub_volume b i pv sub report e =
  match sub with
  | Leaf _ => ret e
  | Internal c =>
      match b !! c with
      | None => throw
      | Some sn =>
          if flt pv (volume_of (box sn))
          then ([report i c pv (volume_of (box sn))], Ret (S e))
          else ret e
      end
  end.
Proof.
  destruct sub as [c|k]; [|done]. unfold check_sub_volume, at_. simpl.
  destruct (b !! c) as [sn|]; [|done]. rewrite bind_ret.
  by destruct (flt pv (volume_of (box sn))).
Qed.

Lemma fold_left_result_success fatal exit_code :
  fold_left_result fatal exit_code EXIT_SUCCESS = inl exit_code.
Proof. done. Qed.

Lemma fold_right_result_success exit_code :
  fold_right_result exit_code EXIT_SUCCESS = exit_code.
Proof. done. Qed.

(** The body of [check_bvh_volumes], with the two guarded recursive calls
    written as audits of the two child references. *)
Lemma check_bvh_volumes_S fuel (b : bvh) fatal i :
  check_bvh_volumes (S fuel) b fatal i =
  (n <- at_ b i ;;
   tell (Visit i) ;;
   errors <- local_errors b i n ;;
   if (0 <? errors) && fatal then ret EXIT_FAILURE
   else
     let exit_code := if 0 <? errors then EXIT_FAILURE else EXIT_SUCCESS in
     ret_ <- audit fuel b fatal (left n) ;;
     match fold_left_result fatal exit_code ret_ with
     | inr code => ret code
     | inl exit_code =>
         ret_ <- audit fuel b fatal (right n) ;;
         ret (fold_right_result exit_code ret_)
     end).
Proof.
  simpl. apply bind_ext; intros n. apply bind_ext; intros _.
  apply bind_ext; intros errors.
  destruct ((0 <? errors) && fatal); [done|].
  unfold left_is_leaf, right_is_leaf.
  destruct (left n) as [c|k]; simpl.
  - rewrite bind_assoc. apply bind_ext; intros ret_. rewrite bind_ret.
    destruct (fold_left_result _ _ _); [|done].
    destruct (right n); simpl; [done|]. by rewrite bind_ret.
  - rewrite !bind_ret. destruct (right n); simpl; [done|]. by rewrite bind_ret.
Qed.

(** The same once the node is known and its local comparisons have been
    made. *)
Lemma check_bvh_volumes_at fuel (b : bvh) fatal i n l0 errors :
  b !! i = Some n ->
  local_errors b i n = (l0, Ret errors) ->
  check_bvh_volumes (S fuel) b fatal i =
  bind (Visit i :: l0, Ret tt) (fun _ =>
    if (0 <? errors) && fatal then ret EXIT_FAILURE
    else
      let exit_code := if 0 <? errors then EXIT_FAILURE else EXIT_SUCCESS in
      ret_ <- audit fuel b fatal (left n) ;;
      match fold_left_result fatal exit_code ret_ with
      | inr code => ret code
      | inl exit_code =>
          ret_ <- audit fuel b fatal (right n) ;;
          ret (fold_right_result exit_code ret_)
      end).
Proof.
  intros Hn He. rewrite check_bvh_volumes_S. unfold at_. rewrite Hn, bind_ret.
  rewrite bind_tell, He. unfold bind at 1. simpl.
  unfold bind at 3. simpl. done.
Qed.

(** ** Floats: what [!(a < b)] gives *)

Lemma SFcompare_antisym (a b : float) :
  SFcompare b a = CompOpp <$> SFcompare a b.
Proof.
  destruct a as [sa|sa| |sa ma ea], b as [sb|sb| |sb mb eb]; simpl; try done;
    try (by destruct sa); try (by destruct sb); try (by destruct sa, sb).
  destruct sa, sb; simpl; try done; f_equal;
    rewrite (Z.compare_antisym ea eb); destruct (ea ?= eb)%Z; simpl; try done;
    change PosDef.Pos.compare_cont with Pos.compare_cont;
    by rewrite (Pos.compare_cont_antisym ma mb Eq).
Qed.

Lemma SFcompare_nan (a b : float) :
  SFcompare a b = None <-> is_nan a = true \/ is_nan b = true.
Proof.
  destruct a as [sa|sa| |sa ma ea], b as [sb|sb| |sb mb eb]; simpl;
    split; try done; try tauto; intros [?|?]; done.
Qed.

Lemma not_flt_fle (a b : float) :
  flt a b = false -> is_nan a = false -> is_nan b = false -> fle b a = true.
Proof.
  unfold flt, fle, SFltb, SFleb. intros Hlt Ha Hb.
  rewrite SFcompare_antisym.
  destruct (SFcompare a b) as [[]|] eqn:E; simpl; try done.
  apply SFcompare_nan in E as [?|?]; congruence.
Qed.

(** ** What a successful audit has checked *)

Lemma local_errors_eq (b : bvh) i n :
  local_errors b i n =
  (errors <- check_sub_volume b i (volume_of (box n)) (left n) LeftVolume 0 ;;
   check_sub_volume b i (volume_of (box n)) (right n) RightVolume errors).
Proof. done. Qed.

Lemma kids_internal (n : node) c :
  Internal c ∈ kids n <-> left n = Internal c \/ right n = Internal c.
Proof.
  unfold kids. rewrite !elem_of_cons, elem_of_nil. intuition congruence.
Qed.

Lemma check_sub_volume_value (b : bvh) i pv sub report e l e' :
  check_sub_volume b i pv sub report e = (l, Ret e') ->
  match sub with
  | Leaf _ => e' = e /\ l = []
  | Internal c =>
      exists sn, b !! c = Some sn /\
        if flt pv (volume_of (box sn))
        then e' = S e /\ l = [report i c pv (volume_of (box sn))]
        else e' = e /\ l = []
  end.
Proof.
  rewrite check_sub_volume_eq. destruct sub as [c|k].
  - destruct (b !! c) as [sn|]; [|done]. intros H. exists sn. split; [done|].
    destruct (flt pv (volume_of (box sn))); by inversion H.
  - by intros [= <- <-].
Qed.

(** When the local comparisons go through, the internal children exist,
    and [errors] is zero exactly when none of them exceeds the parent. *)
Lemma local_errors_value (b : bvh) i n l errors :
  local_errors b i n = (l, Ret errors) ->
  (forall c, Internal c ∈ kids n -> is_Some (b !! c)) /\
  (errors = 0 <->
   forall c sub, Internal c ∈ kids n -> b !! c = Some sub ->
     flt (volume_of (box n)) (volume_of (box sub)) = false) /\
  visits l = [].
Proof.
  rewrite local_errors_eq. intros (l1 & e1 & l2 & H1 & H2 & ->)%bind_value.
  apply check_sub_volume_value in H1, H2.
  setoid_rewrite kids_internal.
  destruct (left n) as [cl|kl], (right n) as [cr|kr];
    repeat match goal with
    | H : exists _, _ |- _ => destruct H as (? & ? & H)
    | H : _ /\ _ |- _ => destruct H as [? ?]
    | H : if flt ?a ?b then _ else _ |- _ => destruct (flt a b) eqn:?
    end; subst; simpl.
  all: (split; [|split; [split|reflexivity]]).
  all: try (intros c [[= <-]|[= <-]]; eauto; done).
  all: try done.
  all: try (intros _ c sub [[= <-]|[= <-]] Hsub; congruence).
  all: intros Hall; exfalso;
    match goal with
    | Hl : _ !! ?c = Some ?x, Hf : flt ?pv (volume_of (box ?x)) = true |- _ =>
        assert (flt pv (volume_of (box x)) = false)
          by (apply (Hall c x); [first [by left | by right] | done]);
        congruence
    end.
Qed.

(** A call that returns [EXIT_SUCCESS] found no local error and got
    [EXIT_SUCCESS] from the audits of both children. *)
Lemma check_bvh_volumes_success_inv fuel (b : bvh) fatal i l :
  check_bvh_volumes (S fuel) b fatal i = (l, Ret EXIT_SUCCESS) ->
  exists n l0 ll lr,
    b !! i = Some n /\
    local_errors b i n = (l0, Ret 0) /\
    audit fuel b fatal (left n) = (ll, Ret EXIT_SUCCESS) /\
    audit fuel b fatal (right n) = (lr, Ret EXIT_SUCCESS) /\
    l = Visit i :: l0 ++ ll ++ lr.
Proof.
  intros H. destruct (b !! i) as [n|] eqn:Hn.
  2: { rewrite check_bvh_volumes_S in H. unfold at_ in H. by rewrite Hn in H. }
  destruct (local_errors b i n) as [l0 [errors| |]] eqn:He.
  2,3: rewrite check_bvh_volumes_S in H; unfold at_ in H;
       rewrite Hn, bind_ret, bind_tell, He in H; done.
  rewrite (check_bvh_volumes_at _ _ _ _ _ _ _ Hn He) in H.
  apply bind_value in H as (l1 & [] & l2 & [= <-] & H & ->).
  destruct errors as [|errors]; simpl in H.
  - apply bind_value in H as (ll & rl & l3 & Hl & H & ->).
    destruct rl; simpl in H.
    + apply bind_value in H as (lr & rr & l4 & Hr & H & ->).
      destruct rr; [|done]. inversion H; subst.
      exists n, l0, ll, lr. rewrite app_nil_r. done.
    + destruct fatal; simpl in H; [done|].
      apply bind_value in H as (lr & rr & l4 & Hr & H & ->). by destruct rr.
  - destruct fatal; simpl in H; [done|].
    apply bind_value in H as (ll & rl & l3 & Hl & H & ->).
    destruct rl; simpl in H;
      apply bind_value in H as (lr & rr & l4 & Hr & H & ->); by destruct rr.
Qed.

Lemma audit_success_sound fuel (b : bvh) fatal i l :
  check_bvh_volumes fuel b fatal i = (l, Ret EXIT_SUCCESS) ->
  forall j n c sub,
    reachable b i j -> b !! j = Some n -> Internal c ∈ kids n ->
    b !! c = Some sub ->
    flt (volume_of (box n)) (volume_of (box sub)) = false.
Proof.
  revert i l. induction fuel as [|fuel IH]; intros i l H; [done|].
  apply check_bvh_volumes_success_inv in H
    as (n & l0 & ll & lr & Hn & He & Hl & Hr & ->).
  intros j nj c sub Hreach. revert n l0 ll lr Hn He Hl Hr.
  induction Hreach as [i|i k j Hedge Hreach _]; intros n l0 ll lr Hn He Hl Hr Hj Hc Hsub.
  - assert (nj = n) as -> by congruence.
    apply local_errors_value in He as (_ & He & _).
    by apply (proj1 He eq_refl c sub).
  - destruct Hedge as (n' & Hn' & Hk).
    assert (n' = n) as -> by congruence.
    apply kids_internal in Hk as [Hk|Hk]; rewrite Hk in *; simpl in *.
    + by apply (IH _ _ Hl j nj c sub).
    + by apply (IH _ _ Hr j nj c sub).
Qed.

Lemma visits_app (l1 l2 : list event) : visits (l1 ++ l2) = visits l1 ++ visits l2.
Proof. apply omap_app. Qed.

(** C3: the three returns of the audit under the fatal policy, for a node
    [i] whose local comparisons gave [errors].  With a local violation the
    call returns [EXIT_FAILURE] having visited [i] alone.  Without one, an
    [EXIT_FAILURE] from the recursive call on the left child is returned
    at once: the run ends with the run of that call, nothing of the right
    child is in it.  An [EXIT_FAILURE] from the recursive call on the right
    child, reached when the left side went through, becomes the
    [exit_code] that the last line returns, after the whole run of that
    call. *)
Theorem fatal_audit_returns fuel (b : bvh) i n l0 errors :
  b !! i = Some n ->
  local_errors b i n = (l0, Ret errors) ->
  (0 < errors ->
   check_bvh_volumes (S fuel) b true i = (Visit i :: l0, Ret EXIT_FAILURE) /\
   visits (Visit i :: l0) = [i]) /\
  (forall c ll,
     errors = 0 -> left n = Internal c ->
     check_bvh_volumes fuel b true c = (ll, Ret EXIT_FAILURE) ->
     check_bvh_volumes (S fuel) b true i = (Visit i :: l0 ++ ll, Ret EXIT_FAILURE) /\
     visits (Visit i :: l0 ++ ll) = i :: visits ll) /\
  (forall c ll lr,
     errors = 0 -> audit fuel b true (left n) = (ll, Ret EXIT_SUCCESS) ->
     right n = Internal c ->
     check_bvh_volumes fuel b true c = (lr, Ret EXIT_FAILURE) ->
     check_bvh_volumes (S fuel) b true i =
       (Visit i :: l0 ++ ll ++ lr, Ret EXIT_FAILURE)).
Proof.
  intros Hn He. rewrite (check_bvh_volumes_at _ _ _ _ _ _ _ Hn He).
  split; [|split].
  - intros Hpos. destruct errors; [lia|]. simpl.
    apply local_errors_value in He as (_ & _ & Hv).
    split; [unfold bind; simpl; by rewrite app_nil_r|].
    unfold visits in *. simpl. by rewrite Hv.
  - intros c ll -> Hc Hl. simpl. rewrite Hc. simpl. rewrite Hl.
    split; [unfold bind; simpl; by rewrite app_nil_r|].
    apply local_errors_value in He as (_ & _ & Hv).
    change (Visit i :: l0 ++ ll) with ([Visit i] ++ l0 ++ ll).
    by rewrite !visits_app, Hv.
  - intros c ll lr -> Hl Hc Hr. simpl. rewrite Hl, Hc. simpl.
    rewrite Hr. unfold bind; simpl. by rewrite app_nil_r.
Qed.

(** ** From [check_bvh] to the audit *)

Lemma check_count_loop_return mem fatal counts report indices errors l
    (code : exit_status) :
  for_indices_or_return (check_count mem fatal counts report) indices errors
    = (l, Ret (inr code)) ->
  code = EXIT_FAILURE.
Proof.
  revert errors l. induction indices as [|i rest IH]; intros errors l; simpl.
  - done.
  - intros (l1 & r & l2 & H1 & H2 & ->)%bind_value.
    destruct r as [errors'|code'].
    + by eapply IH.
    + inversion H2; subst. clear H2. unfold check_count in H1.
      apply bind_value in H1 as (l3 & n & l4 & _ & H1 & ->).
      destruct (negb (n =? 1)); [|done].
      rewrite bind_tell in H1. by destruct fatal; inversion H1.
Qed.

(** A run of [check_bvh] that returns [EXIT_SUCCESS] ends with a run of the
    geometric audit from the root that does. *)
Lemma check_bvh_success_audit fuel (b : bvh) mem fatal l :
  check_bvh fuel b mem fatal = (l, Ret EXIT_SUCCESS) ->
  exists l1 l2,
    l = l1 ++ l2 /\ check_bvh_volumes fuel b fatal 0 = (l2, Ret EXIT_SUCCESS).
Proof.
  unfold check_bvh.
  intros (l1 & nc & l2 & _ & H & ->)%bind_value.
  apply bind_value in H as (l3 & stop & l4 & _ & H & ->).
  destruct stop; [done|].
  apply bind_value in H as (l5 & r & l6 & Hr & H & ->).
  destruct r as [errors|code];
    [|apply check_count_loop_return in Hr as ->; done].
  apply bind_value in H as (l7 & lc & l8 & _ & H & ->).
  apply bind_value in H as (l9 & r & l10 & Hr' & H & ->).
  destruct r as [errors'|code];
    [|apply check_count_loop_return in Hr' as ->; done].
  destruct (0 <? errors'); [done|].
  exists (l1 ++ l3 ++ l5 ++ l7 ++ l9), l10. split; [|done].
  by rewrite <- !app_assoc.
Qed.

(** C7 (amended): whenever [check_bvh] returns [EXIT_SUCCESS], for every
    internal node [i] that is reachable from the root through internal
    child references, and for each child [c] of [i] that is an internal
    node, the parent's volume is not less than the child's; this is
    [volume(c) <= volume(i)] when neither volume is NaN.  Nodes that are not
    reachable from the root are not compared, nor are leaf children. *)
Theorem success_bounds_reachable_volumes fuel (b : bvh) mem fatal l :
  check_bvh fuel b mem fatal = (l, Ret EXIT_SUCCESS) ->
  forall i c n sub,
    reachable b 0 i -> b !! i = Some n -> Internal c ∈ kids n ->
    b !! c = Some sub ->
    flt (volume_of (box n)) (volume_of (box sub)) = false /\
    (is_nan (volume_of (box n)) = false ->
     is_nan (volume_of (box sub)) = false ->
     fle (volume_of (box sub)) (volume_of (box n)) = true).
Proof.
  intros (l1 & l2 & -> & H)%check_bvh_success_audit i c n sub Hi Hn Hc Hsub.
  assert (Hlt := audit_success_sound _ _ _ _ _ H i n c sub Hi Hn Hc Hsub).
  split; [done|]. by apply not_flt_fle.
Qed.

Lemma success_bounds_reachable_volumes_witness :
  check_bvh 3 sound calm false =
    ([NodeOverrun 3; Visit 0; Visit 1; Visit 2], Ret EXIT_SUCCESS) /\
  flt (volume_of (slab f2 f1)) (volume_of (slab f1 f1)) = false /\
  (is_nan (volume_of (slab f2 f1)) = false ->
   is_nan (volume_of (slab f1 f1)) = false ->
   fle (volume_of (slab f1 f1)) (volume_of (slab f2 f1)) = true).
Proof.
  split; [by_running|].
  apply (success_bounds_reachable_volumes 3 sound calm false
           [NodeOverrun 3; Visit 0; Visit 1; Visit 2]
           ltac:(by_running) 0 1
           (mk f2 (Internal 1) (Internal 2)) (mk f1 (Leaf 0) (Leaf 1))).
  - apply rtc_refl.
  - reflexivity.
  - apply list_elem_of_here.
  - reflexivity.
Defined.

(** The claim C7 as the specification states it fails on [detached], where
    the node 2 is larger than its parent 1 and neither is reached from
    the root, and on [unbounded], where the root's volume is not a
    number. *)
Lemma success_without_monotone_volumes :
  (check_bvh 3 detached calm false).2 = Ret EXIT_SUCCESS /\
  (check_bvh 3 detached calm true).2 = Ret EXIT_SUCCESS /\
  ~ volumes_monotone detached /\
  (check_bvh 3 unbounded calm false).2 = Ret EXIT_SUCCESS /\
  ~ volumes_monotone unbounded.
Proof.
  repeat split; try by_running.
  - intros H.
    specialize (H 1 2 (mk f1 (Internal 2) (Leaf 2)) (mk f2 (Internal 1) (Leaf 3))
                  eq_refl (list_elem_of_here _ _) eq_refl).
    vm_compute in H. discriminate.
  - intros H.
    specialize (H 0 1 {| box := slab finf f0; left := Internal 1; right := Leaf 0 |}
                  (mk f1 (Leaf 1) (Leaf 2))
                  eq_refl (list_elem_of_here _ _) eq_refl).
    vm_compute in H. discriminate.
Qed.

(** ** The audit of a tree *)

Lemma local_errors_defined (b : bvh) i n :
  (forall c, Internal c ∈ kids n -> is_Some (b !! c)) ->
  exists l errors, local_errors b i n = (l, Ret errors).
Proof.
  intros H. rewrite local_errors_eq.
  assert (Hsub : forall sub report e, sub ∈ kids n ->
            exists l e', check_sub_volume b i (volume_of (box n)) sub report e
                         = (l, Ret e')).
  { intros sub report e Hin. rewrite check_sub_volume_eq.
    destruct sub as [c|k]; [|by eexists _, _].
    destruct (H c Hin) as [sn ->].
    destruct (flt _ _); by eexists _, _. }
  destruct (Hsub (left n) LeftVolume 0) as (l1 & e1 & ->); [by left|].
  destruct (Hsub (right n) RightVolume e1) as (l2 & e2 & E); [by right; left|].
  rewrite bind_logged, E. by eexists _, _.
Qed.

Lemma subtree_root (b : bvh) i t :
  subtree b (Internal i) t -> is_Some (b !! i).
Proof. inversion 1; eauto. Qed.

(** The local comparisons count an error exactly when a child exceeds the
    node. *)
Lemma local_errors_exceeds (b : bvh) i n l errors :
  b !! i = Some n ->
  local_errors b i n = (l, Ret errors) ->
  0 < errors <-> exists c, exceeds b i c.
Proof.
  intros Hn He.
  assert (Hv := local_errors_value _ _ _ _ _ He). destruct Hv as (_ & Hz & _).
  revert He. rewrite local_errors_eq.
  intros (l1 & e1 & l2 & H1 & H2 & ->)%bind_value.
  apply check_sub_volume_value in H1, H2.
  split.
  - intros Hpos. unfold exceeds. setoid_rewrite kids_internal.
    destruct (left n) as [cl|kl] eqn:El, (right n) as [cr|kr] eqn:Er;
      repeat match goal with
      | H : exists _, _ |- _ => destruct H as (? & ? & H)
      | H : _ /\ _ |- _ => destruct H as [? ?]
      | H : if flt ?a ?b then _ else _ |- _ => destruct (flt a b) eqn:?
      end; subst; try lia;
      first [ by exists cl; eexists n, _; rewrite ?El; eauto 10
            | by exists cr; eexists n, _; rewrite ?Er; eauto 10 ].
  - intros (c & n' & sub & Hn' & Hc & Hsub & Hlt).
    assert (n' = n) as -> by congruence.
    destruct errors; [|lia].
    rewrite (proj1 Hz eq_refl c sub Hc Hsub) in Hlt. done.
Qed.

(** How the statuses of the two audits and the local errors combine. *)
Lemma audit_fold fuel (b : bvh) fatal n errors ll sl lr sr :
  audit fuel b fatal (left n) = (ll, Ret sl) ->
  audit fuel b fatal (right n) = (lr, Ret sr) ->
  exists l s,
    (if (0 <? errors) && fatal then ret EXIT_FAILURE
     else
       let exit_code := if 0 <? errors then EXIT_FAILURE else EXIT_SUCCESS in
       ret_ <- audit fuel b fatal (left n) ;;
       match fold_left_result fatal exit_code ret_ with
       | inr code => ret code
       | inl exit_code =>
           ret_ <- audit fuel b fatal (right n) ;;
           ret (fold_right_result exit_code ret_)
       end) = (l, Ret s) /\
    (s = EXIT_FAILURE <->
     0 < errors \/ sl = EXIT_FAILURE \/ sr = EXIT_FAILURE) /\
    (fatal = false -> l = ll ++ lr).
Proof.
  intros Hl Hr. rewrite Hl.
  destruct errors as [|errors], fatal, sl, sr; simpl; rewrite ?Hr; simpl;
    unfold bind, ret; simpl; rewrite ?app_nil_r;
    eexists _, _; (split; [reflexivity|]); (split; [|done]);
    split; intros; try done; try lia; try tauto; try (intuition (done || lia)).
Qed.

(** One call of the audit on a node whose children's audits are known. *)
Lemma audit_node fuel (b : bvh) fatal i n tl tr ll sl lr sr :
  b !! i = Some n ->
  (forall c, Internal c ∈ kids n -> is_Some (b !! c)) ->
  audit fuel b fatal (left n) = (ll, Ret sl) ->
  (sl = EXIT_FAILURE <-> exists j c', j ∈ tl /\ exceeds b j c') ->
  (fatal = false -> visits ll = tl) ->
  audit fuel b fatal (right n) = (lr, Ret sr) ->
  (sr = EXIT_FAILURE <-> exists j c', j ∈ tr /\ exceeds b j c') ->
  (fatal = false -> visits lr = tr) ->
  exists l s,
    check_bvh_volumes (S fuel) b fatal i = (l, Ret s) /\
    (s = EXIT_FAILURE <-> exists j c', j ∈ i :: tl ++ tr /\ exceeds b j c') /\
    (fatal = false -> visits l = i :: tl ++ tr).
Proof.
  intros Hn Hkids Hal Hsl Hvl Har Hsr Hvr.
  destruct (local_errors_defined b i n Hkids) as (l0 & errors & He).
  destruct (audit_fold fuel b fatal n errors ll sl lr sr Hal Har)
    as (l & s & Hfold & Hs & Hv).
  exists (Visit i :: l0 ++ l), s.
  rewrite (check_bvh_volumes_at _ _ _ _ _ _ _ Hn He), bind_logged, Hfold.
  split; [done|].
  assert (Hx := local_errors_exceeds _ _ _ _ _ Hn He).
  apply local_errors_value in He as (_ & He & Hv0).
  split.
  - rewrite Hs, Hsl, Hsr, Hx. split.
    + intros [(c' & Hc')|[(j & c' & Hj & Hc')|(j & c' & Hj & Hc')]].
      * exists i, c'. split; [left|done].
      * exists j, c'. split; [|done]. right. apply elem_of_app. by left.
      * exists j, c'. split; [|done]. right. apply elem_of_app. by right.
    + intros (j & c' & Hj & Hc').
      apply elem_of_cons in Hj as [->|Hj]; [left; eauto|].
      apply elem_of_app in Hj as [Hj|Hj]; eauto 10.
  - intros Hf. simpl. rewrite !visits_app, Hv0, (Hv Hf), visits_app,
      (Hvl Hf), (Hvr Hf). done.
Qed.

(** On a tree, with fuel for its nodes, the audit returns; it fails exactly
    when some node of the tree has a child that exceeds it; and without the
    fatal policy its visits are the nodes of the tree in preorder. *)
Lemma audit_tree (b : bvh) fatal c t :
  subtree b c t ->
  forall fuel, length t <= fuel ->
  exists l s,
    audit fuel b fatal c = (l, Ret s) /\
    (s = EXIT_FAILURE <-> exists j c', j ∈ t /\ exceeds b j c') /\
    (fatal = false -> visits l = t).
Proof.
  induction 1 as [k|i n tl tr Hn Hl IHl Hr IHr]; intros fuel Hfuel.
  - exists [], EXIT_SUCCESS. split; [done|]. split; [|done].
    split; [done|]. intros (j & c' & Hj & _). by apply elem_of_nil in Hj.
  - destruct fuel as [|fuel]; [simpl in Hfuel; lia|].
    simpl in Hfuel. rewrite length_app in Hfuel.
    destruct (IHl fuel) as (ll & sl & Hal & Hsl & Hvl); [lia|].
    destruct (IHr fuel) as (lr & sr & Har & Hsr & Hvr); [lia|].
    apply (audit_node fuel b fatal i n tl tr ll sl lr sr); try done.
    intros c [Hc|Hc]%kids_internal; rewrite Hc in *; eapply subtree_root; eauto.
Qed.

Lemma subtree_reachable (b : bvh) c t :
  subtree b c t ->
  forall j, j ∈ t -> exists i, c = Internal i /\ reachable b i j.
Proof.
  induction 1 as [k|i n tl tr Hn Hl IHl Hr IHr]; intros j Hj.
  - by apply elem_of_nil in Hj.
  - exists i. split; [done|].
    apply elem_of_cons in Hj as [->|Hj]; [apply rtc_refl|].
    apply elem_of_app in Hj as [Hj|Hj].
    + destruct (IHl j Hj) as (cl & Hcl & Hreach).
      apply rtc_l with cl; [|done]. exists n. split; [done|].
      apply kids_internal. by left.
    + destruct (IHr j Hj) as (cr & Hcr & Hreach).
      apply rtc_l with cr; [|done]. exists n. split; [done|].
      apply kids_internal. by right.
Qed.

Lemma reachable_subtree (b : bvh) i j :
  reachable b i j -> forall t, subtree b (Internal i) t -> j ∈ t.
Proof.
  induction 1 as [i|i k j Hedge Hreach IH]; intros t Ht.
  - inversion Ht; subst. left.
  - inversion Ht as [|i' n tl tr Hn Hl Hr]; subst.
    destruct Hedge as (n' & Hn' & Hk). assert (n' = n) as -> by congruence.
    right. apply elem_of_app.
    apply kids_internal in Hk as [Hk|Hk]; rewrite Hk in *; eauto.
Qed.




(** ** The sweeps compute the reference counters *)

Lemma for_indices_app {S} (body : nat -> S -> run S) (l1 l2 : list nat) (s : S) :
  for_indices body (l1 ++ l2) s =
  (s' <- for_indices body l1 s ;; for_indices body l2 s').
Proof.
  revert s. induction l1 as [|i l1 IH]; intros s; simpl.
  - by rewrite bind_ret.
  - rewrite bind_assoc. apply bind_ext. intros s'. apply IH.
Qed.

Lemma count_node_refs_step (b : bvh) mem i v :
  count_node_refs b mem i v = sweep_step node_ref b mem i v.
Proof.
  unfold count_node_refs, sweep_step. apply bind_ext. intros n.
  unfold left_is_leaf, right_is_leaf, bump.
  destruct (left n), (right n); simpl; try done.
Qed.

Lemma count_leaf_refs_step (b : bvh) mem i v :
  count_leaf_refs b mem i v = sweep_step leaf_ref b mem i v.
Proof.
  unfold count_leaf_refs, sweep_step. apply bind_ext. intros n.
  unfold left_is_leaf, right_is_leaf, left_leaf_index, right_leaf_index, bump.
  destruct (left n), (right n); simpl; try done.
Qed.

Lemma for_indices_ext {S} (body body' : nat -> S -> run S) (l : list nat) (s : S) :
  (forall i s, body i s = body' i s) ->
  for_indices body l s = for_indices body' l s.
Proof.
  intros H. revert s. induction l as [|i l IH]; intros s; simpl; [done|].
  rewrite H. apply bind_ext. intros s'. apply IH.
Qed.

Section Tally.
Variable tag : nat -> child.
Variable sel : child -> option nat.
Hypothesis sel_tag : forall c i, sel c = Some i <-> c = tag i.

Lemma tag_inj i j : tag i = tag j -> i = j.
Proof using sel sel_tag.
  intros H. assert (Hi : sel (tag i) = Some i) by by apply sel_tag.
  assert (Hj : sel (tag i) = Some j) by by apply sel_tag.
  congruence.
Qed.

Lemma tally_length cs n : length (tally tag cs n) = n.
Proof. unfold tally. by rewrite length_map, length_seq. Qed.

Lemma tally_lookup cs n i :
  i < n -> tally tag cs n !! i = Some (count_occ child_eq_dec cs (tag i)).
Proof.
  intros Hi. unfold tally.
  change (map ?f ?l) with (f <$> l).
  by rewrite list_lookup_fmap, lookup_seq_lt.
Qed.

Lemma tally_lookup_ge cs n i : n <= i -> tally tag cs n !! i = None.
Proof. intros Hi. apply lookup_ge_None. by rewrite tally_length. Qed.

Lemma tally_nil n : tally tag [] n = replicate n 0.
Proof.
  unfold tally.
  assert (H : forall k, map (fun i => count_occ child_eq_dec [] (tag i)) (seq k n)
                        = replicate n 0); [|apply H].
  induction n as [|n IH]; intros k; simpl; [done|]. f_equal. apply IH.
Qed.

Lemma bump_tally cs n c :
  bump sel (tally tag cs n) c =
  if fits sel n c then ret (tally tag (cs ++ [c]) n) else throw.
Proof using sel_tag.
  unfold bump, fits. destruct (sel c) as [j|] eqn:E.
  - apply sel_tag in E as ->. unfold incr_at, at_.
    destruct (Nat.ltb_spec j n) as [Hj|Hj].
    + rewrite tally_lookup, bind_ret by done. f_equal. f_equal.
      apply list_eq. intros i.
      destruct (decide (i < n)) as [Hi|Hi].
      * rewrite (tally_lookup _ _ i Hi), count_occ_app. simpl.
        destruct (decide (j = i)) as [->|Hne].
        -- rewrite list_lookup_insert_eq by (by rewrite tally_length).
           destruct (child_eq_dec (tag i) (tag i)); [f_equal; lia|done].
        -- rewrite list_lookup_insert_ne, tally_lookup by done.
           destruct (child_eq_dec (tag j) (tag i)) as [Heq|_];
             [by apply tag_inj in Heq|f_equal; lia].
      * rewrite tally_lookup_ge by lia.
        apply lookup_ge_None. rewrite length_insert, tally_length. lia.
    + by rewrite tally_lookup_ge.
  - f_equal. unfold tally. apply map_ext. intros i.
    rewrite count_occ_app. simpl.
    destruct (child_eq_dec c (tag i)) as [Heq|_]; [|lia].
    apply sel_tag in Heq. congruence.
Qed.

Lemma sweep_step_tally (b : bvh) mem i nd cs n :
  b !! i = Some nd ->
  sweep_step sel b mem i (tally tag cs n) =
  if forallb (fits sel n) (kids nd)
  then ret (tally tag (cs ++ kids nd) n) else throw.
Proof using sel_tag.
  intros Hnd. unfold sweep_step, node_index. rewrite Hnd, bind_ret, bump_tally.
  simpl. destruct (fits sel n (left nd)); simpl; [|done].
  rewrite bind_ret, bump_tally, <- app_assoc. simpl.
  by destruct (fits sel n (right nd)).
Qed.

Lemma sweep_tally (b1 b2 : bvh) mem cs n :
  for_indices (sweep_step sel (b1 ++ b2) mem) (seq (length b1) (length b2))
    (tally tag cs n) =
  if forallb (fits sel n) (children b2)
  then ret (tally tag (cs ++ children b2) n) else throw.
Proof using sel_tag.
  revert b1 cs. induction b2 as [|nd b2 IH]; intros b1 cs.
  - simpl. by rewrite app_nil_r.
  - cbn [length seq for_indices]. rewrite (sweep_step_tally _ _ _ nd).
    2: { by rewrite lookup_app_r, Nat.sub_diag by lia. }
    change (children (nd :: b2)) with (kids nd ++ children b2).
    rewrite forallb_app.
    destruct (forallb (fits sel n) (kids nd)); simpl; [|done].
    rewrite bind_ret.
    specialize (IH (b1 ++ [nd]) (cs ++ kids nd)).
    rewrite <- app_assoc, length_app in IH. simpl in IH.
    rewrite Nat.add_1_r in IH. rewrite IH.
    destruct (forallb (fits sel n) (children b2)); simpl; [|done].
    by rewrite <- !app_assoc.
Qed.
End Tally.

Lemma node_ref_tag c i : node_ref c = Some i <-> c = Internal i.
Proof. destruct c; simpl; split; congruence. Qed.

Lemma leaf_ref_tag c i : leaf_ref c = Some i <-> c = Leaf i.
Proof. destruct c; simpl; split; congruence. Qed.

(** The first sweep throws when an internal reference is out of range, and
    otherwise leaves the reference counters of the internal nodes. *)
Lemma node_sweep_eq (b : bvh) mem :
  node_sweep b mem =
  if forallb (fits node_ref (length b)) (children b)
  then ret (tally Internal (children b) (length b))
  else throw.
Proof.
  unfold node_sweep, node_sweep_indices.
  rewrite (for_indices_ext _ _ _ _ (count_node_refs_step b mem)).
  rewrite <- (tally_nil Internal).
  apply (sweep_tally Internal node_ref node_ref_tag [] b mem [] (length b)).
Qed.

Lemma sweep_step_overrun tag sel (b : bvh) mem i cs n :
  (forall c i, sel c = Some i <-> c = tag i) ->
  b !! i = None ->
  sweep_step sel b mem i (tally tag cs n) =
  (tell (NodeOverrun i) ;;
   if forallb (fits sel n) (kids (past_nodes mem))
   then ret (tally tag (cs ++ kids (past_nodes mem)) n) else throw).
Proof.
  intros Hsel Hnd. unfold sweep_step, node_index. rewrite Hnd.
  rewrite bind_assoc. apply bind_ext. intros _.
  rewrite bind_ret, (bump_tally tag sel Hsel). simpl.
  destruct (fits sel n (left (past_nodes mem))); simpl; [|done].
  rewrite bind_ret, (bump_tally tag sel Hsel), <- app_assoc. simpl.
  by destruct (fits sel n (right (past_nodes mem))).
Qed.

(** The second sweep goes one node too far: after the nodes of the
    hierarchy it counts the leaf references of the slot behind them. *)
Lemma leaf_sweep_eq (b : bvh) mem :
  leaf_sweep b mem =
  if forallb (fits leaf_ref (length b + 1)) (children b)
  then
    (tell (NodeOverrun (length b)) ;;
     if forallb (fits leaf_ref (length b + 1)) (kids (past_nodes mem))
     then ret (tally Leaf (children b ++ kids (past_nodes mem)) (length b + 1))
     else throw)
  else throw.
Proof.
  unfold leaf_sweep, leaf_sweep_indices.
  rewrite (for_indices_ext _ _ _ _ (count_leaf_refs_step b mem)).
  rewrite <- (tally_nil Leaf), seq_app, for_indices_app.
  pose proof (sweep_tally Leaf leaf_ref leaf_ref_tag [] b mem [] (length b + 1)) as H.
  cbn [app length] in H. rewrite H. clear H.
  destruct (forallb (fits leaf_ref (length b + 1)) (children b)); [|done].
  rewrite bind_ret. cbn [seq for_indices Nat.add].
  rewrite (sweep_step_overrun Leaf leaf_ref _ _ _ _ _ leaf_ref_tag)
    by (apply lookup_ge_None; lia).
  rewrite bind_assoc. apply bind_ext. intros _.
  destruct (forallb _ _); [|done]. by rewrite bind_ret.
Qed.

(** ** The check loops *)

Lemma check_count_eq mem fatal counts report i errors n :
  counts !! i = Some n ->
  check_count mem fatal counts report i errors =
  if negb (n =? 1)
  then ([report i n], Ret (if fatal then inr EXIT_FAILURE else inl (S errors)))
  else ret (inl errors).
Proof.
  intros Hn. unfold check_count, count_index. rewrite Hn, bind_ret.
  destruct (negb (n =? 1)); [|done]. rewrite bind_tell. by destruct fatal.
Qed.

(** Without the fatal policy a check loop reports every counter that is
    not one and adds their number to [errors]. *)
Lemma check_loop_all mem counts report indices errors :
  Forall (fun i => i < length counts) indices ->
  for_indices_or_return (check_count mem false counts report) indices errors =
  (flat_map (bad_count counts report) indices,
   Ret (inl (errors + length (flat_map (bad_count counts report) indices)))).
Proof.
  intros H. revert errors. induction H as [|i rest Hi _ IH]; intros errors; simpl.
  - unfold ret. by rewrite Nat.add_0_r.
  - apply lookup_lt_is_Some in Hi as [n Hn].
    rewrite (check_count_eq _ _ _ _ _ _ n Hn). unfold bad_count at 1 3. rewrite Hn.
    destruct (n =? 1); simpl.
    + by rewrite bind_ret, IH.
    + rewrite bind_logged, IH. simpl. do 3 f_equal. lia.
Qed.

(** With it a check loop stops at the first such counter. *)
Lemma check_loop_first mem counts report indices errors :
  Forall (fun i => i < length counts) indices ->
  for_indices_or_return (check_count mem true counts report) indices errors =
  match flat_map (bad_count counts report) indices with
  | [] => ret (inl errors)
  | e :: _ => ([e], Ret (inr EXIT_FAILURE))
  end.
Proof.
  intros H. revert errors. induction H as [|i rest Hi _ IH]; intros errors; simpl.
  - done.
  - apply lookup_lt_is_Some in Hi as [n Hn].
    rewrite (check_count_eq _ _ _ _ _ _ n Hn). unfold bad_count at 1. rewrite Hn.
    destruct (n =? 1); simpl.
    + by rewrite bind_ret, IH.
    + by rewrite bind_logged.
Qed.

Lemma bad_count_tally tag report (b : bvh) n i :
  i < n ->
  bad_count (tally tag (children b) n) report i = miscounted report tag b i.
Proof.
  intros Hi. unfold bad_count, miscounted, references.
  rewrite (tally_lookup tag _ _ _ Hi). done.
Qed.

Lemma flat_map_bad_count_tally tag report (b : bvh) n indices :
  Forall (fun i => i < n) indices ->
  flat_map (bad_count (tally tag (children b) n) report) indices =
  flat_map (miscounted report tag b) indices.
Proof.
  induction 1 as [|i rest Hi _ IH]; simpl; [done|].
  by rewrite IH, bad_count_tally.
Qed.

Lemma check_root_eq mem fatal counts n :
  counts !! 0 = Some n ->
  check_root mem fatal counts =
  if 0 <? n then ([RootReferenced n], Ret fatal) else ret false.
Proof.
  intros Hn. unfold check_root, count_index. rewrite Hn, bind_ret.
  destruct (0 <? n); [|done]. by rewrite bind_tell.
Qed.

(** ** Counting the references *)

Lemma sum_list_map_add {A} (f g : A -> nat) (l : list A) :
  sum_list (map (fun x => f x + g x) l) = sum_list (map f l) + sum_list (map g l).
Proof. induction l as [|x l IH]; simpl; [done|]. rewrite IH. lia. Qed.

Lemma sum_list_ones (l : list nat) :
  Forall (fun x => x = 1) l -> sum_list l = length l.
Proof. induction 1 as [|x l -> _ IH]; simpl; [done|]. by rewrite IH. Qed.

Lemma sum_list_with_le {A} (f : A -> nat) (l : list A) :
  (forall x, f x <= 1) -> sum_list_with f l <= length l.
Proof.
  intros Hf. induction l as [|y l IH]; simpl; [done|]. specialize (Hf y). lia.
Qed.

Lemma sum_list_with_full {A} (f : A -> nat) (l : list A) :
  (forall x, f x <= 1) -> sum_list_with f l = length l -> Forall (fun x => f x = 1) l.
Proof.
  intros Hf. induction l as [|x l IH]; simpl; [constructor|]. intros H.
  pose proof (sum_list_with_le f l Hf) as Hl.
  specialize (Hf x). constructor; [lia|]. apply IH. lia.
Qed.

Section Counting.
Variable tag : nat -> child.
Variable sel : child -> option nat.
Hypothesis sel_tag : forall c i, sel c = Some i <-> c = tag i.

Lemma indicator_sum c k n :
  sum_list (map (fun i => if child_eq_dec c (tag i) then 1 else 0) (seq k n)) =
  match sel c with
  | Some j => Nat.b2n ((k <=? j) && (j <? k + n))
  | None => 0
  end.
Proof using sel_tag.
  revert k. induction n as [|n IH]; intros k; simpl.
  - destruct (sel c) as [j|]; [|done].
    destruct (Nat.leb_spec k j), (Nat.ltb_spec j (k + 0)); simpl; lia.
  - rewrite IH. destruct (sel c) as [j|] eqn:E.
    + apply sel_tag in E as ->.
      destruct (child_eq_dec (tag j) (tag k)) as [Heq|Hne].
      * apply (tag_inj tag sel sel_tag) in Heq as ->.
        destruct (Nat.leb_spec (S k) k), (Nat.leb_spec k k),
          (Nat.ltb_spec k (S k + n)), (Nat.ltb_spec k (k + S n)); simpl; lia.
      * assert (j <> k) by congruence.
        destruct (Nat.leb_spec (S k) j), (Nat.leb_spec k j),
          (Nat.ltb_spec j (S k + n)), (Nat.ltb_spec j (k + S n)); simpl; lia.
    + destruct (child_eq_dec c (tag k)) as [Heq|_]; [|done].
      apply sel_tag in Heq. congruence.
Qed.

(** The counters add up to the number of references they count. *)
Lemma sum_tally cs n :
  sum_list (tally tag cs n) =
  sum_list_with (fun c => Nat.b2n (counted sel n c)) cs.
Proof using sel_tag.
  unfold tally. induction cs as [|c cs IH].
  - simpl. induction (seq 0 n); simpl; auto.
  - cbn [sum_list_with]. rewrite <- IH.
    assert (E : map (fun i => count_occ child_eq_dec (c :: cs) (tag i)) (seq 0 n) =
                map (fun i => (if child_eq_dec c (tag i) then 1 else 0)
                              + count_occ child_eq_dec cs (tag i)) (seq 0 n)).
    { apply map_ext. intros i. simpl. by destruct (child_eq_dec c (tag i)). }
    rewrite E, sum_list_map_add, indicator_sum. f_equal.
    unfold counted. destruct (sel c) as [j|]; [|done].
    rewrite Nat.add_0_l. by destruct (Nat.leb_spec 0 j); [|lia].
Qed.
End Counting.

Lemma counted_in_range (b : bvh) c :
  Nat.b2n (counted node_ref (length b) c)
  + Nat.b2n (counted leaf_ref (length b + 1) c)
  = Nat.b2n (in_range b c).
Proof.
  unfold counted, in_range. destruct c as [i|k]; simpl;
    destruct (_ <? _); simpl; lia.
Qed.

Lemma children_length (b : bvh) : length (children b) = 2 * length b.
Proof.
  unfold children. induction b as [|n b IH]; simpl in *; [done|]. lia.
Qed.

(** All the counters of a hierarchy together count its references that are
    in range, of which there are at most two per node. *)
Lemma counters_sum (b : bvh) :
  sum_list (tally Internal (children b) (length b))
  + sum_list (tally Leaf (children b) (length b + 1))
  = sum_list_with (fun c => Nat.b2n (in_range b c)) (children b).
Proof.
  rewrite (sum_tally Internal node_ref node_ref_tag),
    (sum_tally Leaf leaf_ref leaf_ref_tag).
  induction (children b) as [|c cs IH]; simpl; [done|].
  rewrite <- counted_in_range. lia.
Qed.

Lemma flat_map_nil {A B} (f : A -> list B) (l : list A) :
  flat_map f l = [] <-> Forall (fun x => f x = []) l.
Proof.
  induction l as [|x l IH]; simpl; [by split; [constructor|]|].
  rewrite Forall_cons, <- IH. split.
  - by intros [? ?]%app_eq_nil.
  - by intros [-> ->].
Qed.

Lemma miscounted_nil report tag (b : bvh) i :
  miscounted report tag b i = [] <-> references b (tag i) = 1.
Proof.
  unfold miscounted. destruct (Nat.eqb_spec (references b (tag i)) 1); split; done.
Qed.

Lemma node_violations_nil (b : bvh) :
  node_violations b = [] <->
  forall i, 1 <= i < length b -> references b (Internal i) = 1.
Proof.
  unfold node_violations. rewrite flat_map_nil, Forall_forall.
  setoid_rewrite miscounted_nil. setoid_rewrite elem_of_seq.
  split; intros H i Hi; apply H; lia.
Qed.

Lemma leaf_violations_nil (b : bvh) :
  leaf_violations b = [] <->
  forall k, k <= length b -> references b (Leaf k) = 1.
Proof.
  unfold leaf_violations. rewrite flat_map_nil, Forall_forall.
  setoid_rewrite miscounted_nil. setoid_rewrite elem_of_seq.
  split; intros H i Hi; apply H; lia.
Qed.

Lemma root_violation_nil (b : bvh) :
  root_violation b = [] <-> references b (Internal 0) = 0.
Proof.
  unfold root_violation.
  destruct (Nat.ltb_spec 0 (references b (Internal 0))); split; try done; lia.
Qed.

(** What the counters add up to when no node but the root and no leaf is
    miscounted. *)
Lemma counters_sum_exact (b : bvh) :
  b <> [] ->
  node_violations b = [] ->
  leaf_violations b = [] ->
  sum_list (tally Internal (children b) (length b))
  + sum_list (tally Leaf (children b) (length b + 1))
  = references b (Internal 0) + 2 * length b.
Proof.
  intros Hb Hn Hl.
  pose proof (proj1 (node_violations_nil b) Hn) as Hn'.
  pose proof (proj1 (leaf_violations_nil b) Hl) as Hl'.
  clear Hn Hl. rename Hn' into Hn, Hl' into Hl.
  destruct b as [|nd b']; [done|]. set (b := nd :: b') in *.
  assert (HN : length b = S (length b')) by done.
  rewrite (sum_list_ones (tally Leaf _ _)).
  2: { apply Forall_forall. intros x Hx. unfold tally in Hx.
       apply list_elem_of_fmap in Hx as (k & -> & Hk%elem_of_seq).
       apply Hl. lia. }
  rewrite (tally_length Leaf).
  unfold tally at 1. rewrite HN at 1. cbn [seq map sum_list].
  rewrite (sum_list_ones (map _ _)).
  2: { apply Forall_forall. intros x Hx.
       apply list_elem_of_fmap in Hx as (k & -> & Hk%elem_of_seq).
       apply Hn. lia. }
  rewrite length_map, length_seq. unfold references, id. lia.
Qed.

(** The counting argument: two references per node leave none for the
    root once every other node and every leaf has its one. *)
Lemma root_unreferenced (b : bvh) :
  b <> [] ->
  node_violations b = [] ->
  leaf_violations b = [] ->
  references b (Internal 0) = 0 /\ refs_in_range b.
Proof.
  intros Hb Hn Hl.
  pose proof (counters_sum_exact b Hb Hn Hl) as Hsum.
  rewrite counters_sum in Hsum.
  pose proof (sum_list_with_le (fun c => Nat.b2n (in_range b c)) (children b)) as Hle.
  rewrite children_length in Hle.
  assert (Hb1 : forall x, Nat.b2n (in_range b x) <= 1).
  { intros x. destruct (in_range b x); simpl; lia. }
  specialize (Hle Hb1).
  assert (H0 : references b (Internal 0) = 0) by lia.
  split; [done|].
  assert (Hfull : sum_list_with (fun c => Nat.b2n (in_range b c)) (children b)
                  = length (children b)) by (rewrite children_length; lia).
  apply sum_list_with_full in Hfull; [|done].
  unfold refs_in_range. eapply Forall_impl; [apply Hfull|].
  intros c. simpl. by destruct (in_range b c).
Qed.

(** ** Phase 1 on a hierarchy whose references are in range *)

Lemma in_range_fits (b : bvh) c :
  in_range b c = true <->
  fits node_ref (length b) c = true /\ fits leaf_ref (length b + 1) c = true.
Proof. unfold in_range, fits. destruct c; simpl; intuition. Qed.

Lemma refs_in_range_fits (b : bvh) :
  refs_in_range b <->
  forallb (fits node_ref (length b)) (children b) = true /\
  forallb (fits leaf_ref (length b + 1)) (children b) = true.
Proof.
  unfold refs_in_range. rewrite !forallb_forall, Forall_forall.
  setoid_rewrite in_range_fits. setoid_rewrite <- list_elem_of_In.
  split; [intros H; split; intros c Hc; by apply H|].
  intros [H1 H2] c Hc. split; [by apply H1|by apply H2].
Qed.

Lemma leafless_fits n past :
  leafless past -> forallb (fits leaf_ref n) (kids past) = true.
Proof.
  unfold leafless, left_is_leaf, right_is_leaf, fits. intros [Hl Hr]. simpl.
  by destruct (left past), (right past).
Qed.

Lemma leafless_tally cs n past :
  leafless past -> tally Leaf (cs ++ kids past) n = tally Leaf cs n.
Proof.
  unfold leafless, left_is_leaf, right_is_leaf, tally. intros [Hl Hr].
  apply map_ext. intros k. rewrite count_occ_app. simpl.
  destruct (left past), (right past); try done; simpl; lia.
Qed.

Lemma leaf_sweep_leafless (b : bvh) mem :
  forallb (fits leaf_ref (length b + 1)) (children b) = true ->
  leafless (past_nodes mem) ->
  leaf_sweep b mem =
  ([NodeOverrun (length b)], Ret (tally Leaf (children b) (length b + 1))).
Proof.
  intros Hl Hmem.
  by rewrite leaf_sweep_eq, Hl, (leafless_fits _ _ Hmem), (leafless_tally _ _ _ Hmem).
Qed.

Lemma seq_below start len : Forall (fun i => i < start + len) (seq start len).
Proof. apply Forall_forall. intros i Hi%elem_of_seq. lia. Qed.

Lemma seq_after_root n : Forall (fun i => i < n) (seq 1 (n - 1)).
Proof. apply Forall_forall. intros i Hi%elem_of_seq. lia. Qed.

(** The node checks, once the first sweep has gone through. *)
Lemma check_root_tally (b : bvh) mem fatal :
  b <> [] ->
  check_root mem fatal (tally Internal (children b) (length b)) =
  (root_violation b, Ret (match root_violation b with [] => false | _ => fatal end)).
Proof.
  intros Hb. rewrite (check_root_eq _ _ _ (references b (Internal 0))).
  2: { apply (tally_lookup Internal). destruct b; [done|simpl; lia]. }
  unfold root_violation. by destruct (0 <? references b (Internal 0)).
Qed.

Lemma check_node_counts_all (b : bvh) mem errors :
  check_node_counts mem false (tally Internal (children b) (length b)) errors =
  (node_violations b, Ret (inl (errors + length (node_violations b)))).
Proof.
  unfold check_node_counts. rewrite (tally_length Internal).
  rewrite check_loop_all.
  2: { rewrite (tally_length Internal). apply seq_after_root. }
  rewrite (flat_map_bad_count_tally Internal); [done|]. apply seq_after_root.
Qed.

Lemma check_node_counts_first (b : bvh) mem errors :
  check_node_counts mem true (tally Internal (children b) (length b)) errors =
  match node_violations b with
  | [] => ret (inl errors)
  | e :: _ => ([e], Ret (inr EXIT_FAILURE))
  end.
Proof.
  unfold check_node_counts. rewrite (tally_length Internal).
  rewrite check_loop_first.
  2: { rewrite (tally_length Internal). apply seq_after_root. }
  rewrite (flat_map_bad_count_tally Internal); [done|]. apply seq_after_root.
Qed.

Lemma check_leaf_counts_all (b : bvh) mem errors :
  check_leaf_counts b mem false (tally Leaf (children b) (length b + 1)) errors =
  (leaf_violations b, Ret (inl (errors + length (leaf_violations b)))).
Proof.
  unfold check_leaf_counts. rewrite check_loop_all.
  2: { rewrite (tally_length Leaf). apply (seq_below 0). }
  rewrite (flat_map_bad_count_tally Leaf); [done|]. apply (seq_below 0).
Qed.

Lemma check_leaf_counts_first (b : bvh) mem errors :
  check_leaf_counts b mem true (tally Leaf (children b) (length b + 1)) errors =
  match leaf_violations b with
  | [] => ret (inl errors)
  | e :: _ => ([e], Ret (inr EXIT_FAILURE))
  end.
Proof.
  unfold check_leaf_counts. rewrite check_loop_first.
  2: { rewrite (tally_length Leaf). apply (seq_below 0). }
  rewrite (flat_map_bad_count_tally Leaf); [done|]. apply (seq_below 0).
Qed.

(** [check_bvh] without the fatal policy: every violation is reported, the
    root's without being counted as an error. *)
Lemma check_bvh_collect fuel (b : bvh) mem :
  b <> [] -> refs_in_range b -> leafless (past_nodes mem) ->
  check_bvh fuel b mem false =
  bind (root_violation b ++ node_violations b
        ++ NodeOverrun (length b) :: leaf_violations b, Ret tt)
    (fun _ =>
       if 0 <? length (node_violations b) + length (leaf_violations b)
       then ret EXIT_FAILURE
       else check_bvh_volumes fuel b false 0).
Proof.
  intros Hb [Hn Hl]%refs_in_range_fits Hmem. unfold check_bvh.
  rewrite node_sweep_eq, Hn, bind_ret, (check_root_tally _ _ _ Hb), bind_logged.
  assert (Hstop : match root_violation b with [] => false | _ => false end = false)
    by by destruct (root_violation b).
  rewrite Hstop, check_node_counts_all, bind_logged. simpl.
  rewrite (leaf_sweep_leafless _ _ Hl Hmem), bind_logged.
  rewrite check_leaf_counts_all, bind_logged. simpl.
  unfold bind. simpl. rewrite <- !app_assoc. simpl. done.
Qed.

(** [check_bvh] with the fatal policy: the first violation ends the run. *)
Lemma check_bvh_stop fuel (b : bvh) mem :
  b <> [] -> refs_in_range b -> leafless (past_nodes mem) ->
  check_bvh fuel b mem true =
  match root_violation b, node_violations b, leaf_violations b with
  | e :: _, _, _ => ([e], Ret EXIT_FAILURE)
  | [], e :: _, _ => ([e], Ret EXIT_FAILURE)
  | [], [], e :: _ => ([NodeOverrun (length b); e], Ret EXIT_FAILURE)
  | [], [], [] =>
      bind (tell (NodeOverrun (length b)))
        (fun _ => check_bvh_volumes fuel b true 0)
  end.
Proof.
  intros Hb [Hn Hl]%refs_in_range_fits Hmem. unfold check_bvh.
  rewrite node_sweep_eq, Hn, bind_ret, (check_root_tally _ _ _ Hb), bind_logged.
  assert (Hroot : root_violation b = [] \/
                  exists n, root_violation b = [RootReferenced n]).
  { unfold root_violation. destruct (0 <? _); eauto. }
  destruct Hroot as [->|[n ->]]; [|done]. simpl.
  rewrite check_node_counts_first.
  destruct (node_violations b) as [|e ?]; [|done].
  rewrite bind_ret, (leaf_sweep_leafless _ _ Hl Hmem), bind_logged.
  rewrite check_leaf_counts_first.
  destruct (leaf_violations b) as [|e ?]; [|done].
  rewrite bind_ret. simpl. by rewrite bind_tell.
Qed.

Lemma visits_miscounted report tag (b : bvh) indices :
  (forall i n, visits [report i n] = []) ->
  visits (flat_map (miscounted report tag b) indices) = [].
Proof.
  intros Hr. induction indices as [|i rest IH]; simpl; [done|].
  rewrite visits_app, IH, app_nil_r. unfold miscounted.
  destruct (_ =? 1); [done|apply Hr].
Qed.

Lemma visits_violations (b : bvh) :
  visits (root_violation b ++ node_violations b
          ++ NodeOverrun (length b) :: leaf_violations b) = [].
Proof.
  rewrite !visits_app. change (NodeOverrun ?i :: ?l) with ([NodeOverrun i] ++ l).
  rewrite visits_app. unfold node_violations, leaf_violations.
  rewrite !visits_miscounted by done.
  unfold root_violation. by destruct (0 <? _).
Qed.

(** Without the fatal policy, any violation makes the run end after the
    two check loops, with every violation reported. *)
Lemma check_bvh_reports_all fuel (b : bvh) mem :
  b <> [] -> refs_in_range b -> leafless (past_nodes mem) ->
  root_violation b ++ node_violations b ++ leaf_violations b <> [] ->
  check_bvh fuel b mem false =
    (root_violation b ++ node_violations b
     ++ NodeOverrun (length b) :: leaf_violations b, Ret EXIT_FAILURE).
Proof.
  intros Hb Hrange Hmem Hfound.
  rewrite (check_bvh_collect fuel b mem Hb Hrange Hmem).
  destruct (node_violations b) as [|e1 l1] eqn:En.
  - destruct (leaf_violations b) as [|e2 l2] eqn:El.
    + destruct (root_unreferenced b Hb En El) as [H0 _].
      apply root_violation_nil in H0. by rewrite H0 in Hfound.
    + unfold bind. simpl. by rewrite app_nil_r.
  - unfold bind. simpl. by rewrite app_nil_r.
Qed.

(** C9 (amended): without the fatal policy, on a hierarchy of at least one
    node whose child references are all in range, and when the slot that
    the second sweep reads behind the node array holds no leaf reference,
    phase 1 reports every structural violation there is (the root's
    counter when it is positive, the counter of every other node and of
    every leaf when it is not one), over the full sweep, and returns
    [EXIT_FAILURE] if there is any, without a single call of the geometric
    audit; the audit runs only when there is none, and its result is then
    the result. *)
Theorem collect_all_then_audit fuel (b : bvh) mem :
  b <> [] -> refs_in_range b -> leafless (past_nodes mem) ->
  let found := root_violation b ++ node_violations b ++ leaf_violations b in
  (found <> [] ->
   check_bvh fuel b mem false =
     (root_violation b ++ node_violations b
      ++ NodeOverrun (length b) :: leaf_violations b, Ret EXIT_FAILURE)) /\
  (found = [] ->
   check_bvh fuel b mem false =
     (tell (NodeOverrun (length b)) ;; check_bvh_volumes fuel b false 0)) /\
  (visits (check_bvh fuel b mem false).1 <> [] -> found = []).
Proof.
  intros Hb Hrange Hmem found. subst found.
  pose proof (check_bvh_reports_all fuel b mem Hb Hrange Hmem) as Hfail.
  split; [done|]. split.
  - intros Hfound. rewrite (check_bvh_collect fuel b mem Hb Hrange Hmem).
    apply app_eq_nil in Hfound as [-> Hfound].
    apply app_eq_nil in Hfound as [-> ->]. done.
  - intros Hvisits.
    destruct (root_violation b ++ node_violations b ++ leaf_violations b)
      as [|e l] eqn:E; [done|]. exfalso.
    apply Hvisits. rewrite Hfail by done. simpl. apply visits_violations.
Qed.

Lemma edge_references (b : bvh) i c : edge b i c -> 0 < references b (Internal c).
Proof.
  intros (n & Hn & Hc). unfold references.
  apply count_occ_In, list_elem_of_In.
  unfold children. apply list_elem_of_In, in_flat_map. exists n.
  split; apply list_elem_of_In; [by eapply list_elem_of_lookup_2|done].
Qed.

(** C2 (amended): on a hierarchy in which some node has the root as a
    child and every reference to an internal node is in range,
    [check_bvh] reports the root's reference count under both policies.
    With the fatal policy it returns [EXIT_FAILURE] right after the
    report, whatever the leaf references are.  Without it the report is
    the first thing in the run; the run returns [EXIT_FAILURE] when the
    leaf references are in range too and the slot that the second sweep
    reads behind the node array holds no leaf reference, and it throws
    from [at()], after the report, when a leaf reference is out of
    range. *)
Theorem root_reference_reported fuel (b : bvh) mem i :
  (forall c, Internal c ∈ children b -> c < length b) -> edge b i 0 ->
  let n := references b (Internal 0) in
  0 < n /\
  check_bvh fuel b mem true = ([RootReferenced n], Ret EXIT_FAILURE) /\
  (exists rest, (check_bvh fuel b mem false).1 = RootReferenced n :: rest) /\
  (refs_in_range b -> leafless (past_nodes mem) ->
   exists rest,
     check_bvh fuel b mem false = (RootReferenced n :: rest, Ret EXIT_FAILURE)) /\
  (~ refs_in_range b -> (check_bvh fuel b mem false).2 = Throw).
Proof.
  intros Hnodes Hedge n. pose proof (edge_references _ _ _ Hedge) as Hpos.
  fold n in Hpos. split; [done|].
  assert (Hb : b <> []).
  { destruct Hedge as (nd & Hnd & _). by destruct b. }
  assert (Hroot : root_violation b = [RootReferenced n]).
  { unfold root_violation. fold n. by destruct (Nat.ltb_spec 0 n); [|lia]. }
  assert (Hn : forallb (fits node_ref (length b)) (children b) = true).
  { apply forallb_forall. intros [c|k] Hc%list_elem_of_In; [|done].
    simpl. apply Nat.ltb_lt. by apply Hnodes. }
  assert (Hstart : forall fatal,
            check_bvh fuel b mem fatal =
            bind ([RootReferenced n], Ret fatal) (fun stop =>
              if (stop : bool) then ret EXIT_FAILURE
              else
                r <- check_node_counts mem fatal
                       (tally Internal (children b) (length b)) 0 ;;
                match r with
                | inr code => ret code
                | inl errors =>
                    leaf_counts <- leaf_sweep b mem ;;
                    r <- check_leaf_counts b mem fatal leaf_counts errors ;;
                    match r with
                    | inr code => ret code
                    | inl errors =>
                        if 0 <? errors then ret EXIT_FAILURE
                        else check_bvh_volumes fuel b fatal 0
                    end
                end)).
  { intros fatal. unfold check_bvh.
    by rewrite node_sweep_eq, Hn, bind_ret, (check_root_tally _ _ _ Hb), Hroot. }
  split; [by rewrite Hstart|]. split; [|split].
  - rewrite Hstart, bind_logged. simpl. eauto.
  - intros Hrange Hmem.
    rewrite (check_bvh_reports_all fuel b mem Hb Hrange Hmem), Hroot;
      [simpl; eauto|].
    by rewrite Hroot.
  - intros Hout. rewrite Hstart, bind_logged. cbv beta iota.
    rewrite check_node_counts_all, bind_logged. cbv beta iota.
    rewrite leaf_sweep_eq.
    destruct (forallb (fits leaf_ref (length b + 1)) (children b)) eqn:Hl.
    + destruct Hout. by apply refs_in_range_fits.
    + by rewrite bind_throw.
Qed.

Lemma root_reference_reported_witness :
  (0 < 1 /\
   check_bvh 3 root_child calm true = ([RootReferenced 1], Ret EXIT_FAILURE) /\
   (exists rest, (check_bvh 3 root_child calm false).1 = RootReferenced 1 :: rest) /\
   exists rest,
     check_bvh 3 root_child calm false = (RootReferenced 1 :: rest, Ret EXIT_FAILURE)) /\
  (check_bvh 3 root_and_far_leaf calm true = ([RootReferenced 1], Ret EXIT_FAILURE) /\
   (exists rest,
      (check_bvh 3 root_and_far_leaf calm false).1 = RootReferenced 1 :: rest) /\
   (check_bvh 3 root_and_far_leaf calm false).2 = Throw).
Proof.
  split.
  - destruct (root_reference_reported 3 root_child calm 1) as (H1 & H2 & H3 & H4 & _).
    + intros c Hc. simpl in Hc.
      repeat (apply elem_of_cons in Hc as [Hc|Hc]; [try discriminate Hc|]).
      * injection Hc as ->. simpl. lia.
      * injection Hc as ->. simpl. lia.
      * by apply elem_of_nil in Hc.
    + exists (mk f1 (Internal 1) (Internal 0)). split; [reflexivity|].
      right. left.
    + split; [exact H1|]. split; [exact H2|]. split; [exact H3|].
      apply H4; [repeat constructor|split; reflexivity].
  - destruct (root_reference_reported 3 root_and_far_leaf calm 0)
      as (_ & H2 & H3 & _ & H5).
    + intros c Hc. simpl in Hc.
      repeat (apply elem_of_cons in Hc as [Hc|Hc]; [try discriminate Hc|]).
      * injection Hc as ->. simpl. lia.
      * by apply elem_of_nil in Hc.
    + exists (mk f1 (Internal 0) (Leaf 5)). split; [reflexivity|].
      apply list_elem_of_here.
    + split; [exact H2|]. split; [exact H3|]. apply H5.
      intros [_ H]%refs_in_range_fits. vm_compute in H. discriminate H.
Defined.

(** The claim C2 as stated fails on [dangling]: the root is a child of the
    node 0, and under either policy the run ends in the first sweep with
    the exception of [at()] for the reference to the internal node 7,
    having reported nothing. *)
Lemma root_referenced_but_thrown :
  edge dangling 0 0 /\
  check_bvh 3 dangling calm true = ([], Throw) /\
  check_bvh 3 dangling calm false = ([], Throw).
Proof.
  split; [|split; by_running].
  exists (mk f1 (Internal 0) (Internal 7)). split; [reflexivity|left].
Qed.

Lemma collect_all_then_audit_witness :
  check_bvh 3 sound calm false =
    (tell (NodeOverrun 3) ;; check_bvh_volumes 3 sound false 0) /\
  check_bvh 3 twice calm false =
    ([NodeOverrun 1; LeafReferenced 0 2; LeafReferenced 1 0], Ret EXIT_FAILURE) /\
  visits (check_bvh 3 twice calm false).1 = [].
Proof.
  destruct (collect_all_then_audit 3 sound calm) as (_ & Hnone & _);
    [done | repeat constructor | split; reflexivity |].
  destruct (collect_all_then_audit 3 twice calm) as (Hsome & _ & _);
    [done | repeat constructor | split; reflexivity |].
  split; [apply Hnone; by_running|].
  split; [apply Hsome; vm_compute; discriminate|].
  by_running.
Defined.

(** The claim C9 as stated fails on [dangling_leaf]: the leaf 1 is not
    referenced, which is a structural violation, and the run without the
    fatal policy ends in the second sweep with the exception of [at()]; no
    violation is reported and no status is returned. *)
Lemma violation_but_thrown :
  leaf_violations dangling_leaf = [LeafReferenced 1 0] /\
  check_bvh 3 dangling_leaf calm false = ([], Throw).
Proof. split; by_running. Qed.

(** What the root check leaves to the counting argument: the root's
    violation is reported and not counted in [errors], so that a leaf
    reference in the slot behind the node array lets the run go on to the
    audit and succeed. *)
Lemma root_reference_not_counted :
  check_bvh 3 root_child (noisy 2) false
  = ([RootReferenced 1; NodeOverrun 2; Visit 0], Ret EXIT_SUCCESS).
Proof. by_running. Qed.

(** ** Counters as required make the hierarchy a tree below the root *)

Lemma children_app (b1 b2 : bvh) : children (b1 ++ b2) = children b1 ++ children b2.
Proof. unfold children. apply flat_map_app. Qed.

Lemma children_elem (b : bvh) i n c :
  b !! i = Some n -> c ∈ kids n -> c ∈ children b.
Proof.
  intros Hn Hc. unfold children. apply list_elem_of_In, in_flat_map. exists n.
  split; apply list_elem_of_In; [by eapply list_elem_of_lookup_2|done].
Qed.

Lemma references_twice (b : bvh) y i ny ni c :
  y < i -> b !! y = Some ny -> b !! i = Some ni ->
  c ∈ kids ny -> c ∈ kids ni ->
  2 <= references b c.
Proof.
  intros Hlt Hy Hi Hcy Hci. unfold references.
  rewrite <- (take_drop_middle b i ni Hi), children_app, count_occ_app.
  change (children (ni :: drop (S i) b)) with (kids ni ++ children (drop (S i) b)).
  rewrite count_occ_app.
  assert (0 < count_occ child_eq_dec (children (take i b)) c).
  { apply count_occ_In, list_elem_of_In. apply (children_elem _ y ny); [|done].
    by rewrite lookup_take_lt. }
  assert (0 < count_occ child_eq_dec (kids ni) c).
  { by apply count_occ_In, list_elem_of_In. }
  lia.
Qed.

Lemma unique_parent (b : bvh) y i c :
  references b (Internal c) <= 1 -> edge b y c -> edge b i c -> y = i.
Proof.
  intros Hc (ny & Hy & Hcy) (ni & Hi & Hci).
  destruct (Nat.lt_trichotomy y i) as [Hlt|[->|Hlt]]; [|done|].
  - pose proof (references_twice b y i ny ni _ Hlt Hy Hi Hcy Hci). lia.
  - pose proof (references_twice b i y ni ny _ Hlt Hi Hy Hci Hcy). lia.
Qed.

Lemma edge_in_range (b : bvh) i c : refs_in_range b -> edge b i c -> c < length b.
Proof.
  intros Hrange (n & Hn & Hc). unfold refs_in_range in Hrange.
  rewrite Forall_forall in Hrange.
  specialize (Hrange _ (children_elem _ _ _ _ Hn Hc)). simpl in Hrange.
  by apply Nat.ltb_lt.
Qed.

Lemma path_split (b : bvh) q :
  path b q ->
  forall l1 x l2, q = l1 ++ x :: l2 ->
    (l2 = [] /\ x = 0) \/ (exists y l3, l2 = y :: l3 /\ edge b y x).
Proof.
  induction 1 as [|i c p Hp IH Hedge]; intros l1 x l2 E.
  - destruct l1 as [|? [|? ?]]; inversion E; subst; by left.
  - destruct l1 as [|z l1]; simpl in E; inversion E; subst.
    + right. by exists i, p.
    + by eapply IH.
Qed.

Lemma path_below (b : bvh) p :
  b <> [] -> refs_in_range b -> path b p -> Forall (fun i => i < length b) p.
Proof.
  intros Hb Hrange. induction 1 as [|i c p Hp IH Hedge].
  - constructor; [|constructor]. destruct b; [done|simpl; lia].
  - constructor; [|done]. by eapply edge_in_range.
Qed.

Section Tree.
Variable b : bvh.
Hypothesis nonempty : b <> [].
Hypothesis in_range_b : refs_in_range b.
Hypothesis root_free : references b (Internal 0) = 0.
Hypothesis once : forall i, 1 <= i < length b -> references b (Internal i) = 1.

Lemma referenced_once c : c < length b -> references b (Internal c) <= 1.
Proof using root_free once.
  intros Hc. destruct c as [|c]; [lia|]. rewrite once; lia.
Qed.

(** No node occurs twice on a chain from the root. *)
Lemma path_NoDup p : path b p -> NoDup p.
Proof using nonempty in_range_b root_free once.
  induction 1 as [|i c p Hp IH Hedge].
  - apply NoDup_singleton.
  - constructor; [|done]. intros Hin.
    apply list_elem_of_split in Hin as (l1 & l2 & E).
    destruct (path_split b _ Hp l1 c l2 E) as [[-> ->]|(y & l3 & -> & Hy)].
    + pose proof (edge_references _ _ _ Hedge). lia.
    + assert (y = i) as ->.
      { eapply unique_parent; [|done..].
        apply referenced_once. by eapply edge_in_range. }
      rewrite E in IH. destruct l1 as [|z l1]; simpl in *.
      * inversion E; subst. apply NoDup_cons in IH as [Hni _].
        apply Hni. left.
      * inversion E; subst. apply NoDup_cons in IH as [Hni _].
        apply Hni. apply elem_of_app. right. right. left.
Qed.

Lemma path_length p : path b p -> length p <= length b.
Proof using nonempty in_range_b root_free once.
  intros Hp. pose proof (path_NoDup p Hp) as Hnd.
  pose proof (path_below b p nonempty in_range_b Hp) as Hbelow.
  rewrite <- (length_seq (length b) 0).
  apply submseteq_length, NoDup_submseteq; [done|].
  intros x Hx. rewrite Forall_forall in Hbelow. apply elem_of_seq.
  specialize (Hbelow x Hx). lia.
Qed.
End Tree.

Section Rooted.
Variable b : bvh.
Hypothesis nonempty : b <> [].
Hypothesis in_range_b : refs_in_range b.
Hypothesis root_free : references b (Internal 0) = 0.
Hypothesis once : forall i, 1 <= i < length b -> references b (Internal i) = 1.

(** Below a chain from the root the hierarchy is a tree, and the audit of
    it returns with fuel for the nodes that are not on the chain. *)
Lemma audit_below_path fatal d :
  forall fuel h p,
    path b (h :: p) -> length b - length (h :: p) <= d -> d < fuel ->
    exists t l s,
      subtree b (Internal h) t /\
      check_bvh_volumes fuel b fatal h = (l, Ret s) /\
      (s = EXIT_FAILURE <-> exists j c', j ∈ t /\ exceeds b j c') /\
      (fatal = false -> visits l = t).
Proof using nonempty in_range_b root_free once.
  induction d as [|d IH]; intros fuel h p Hp Hd Hfuel.
  all: destruct fuel as [|fuel]; [lia|].
  all: pose proof (path_below b _ nonempty in_range_b Hp) as Hbelow.
  all: apply Forall_cons in Hbelow as [Hh _].
  all: apply lookup_lt_is_Some in Hh as [n Hn].
  all: assert (Hsub : forall sub, sub ∈ kids n ->
         exists t l s,
           subtree b sub t /\ audit fuel b fatal sub = (l, Ret s) /\
           (s = EXIT_FAILURE <-> exists j c', j ∈ t /\ exceeds b j c') /\
           (fatal = false -> visits l = t)).
  1,3: intros [c|k] Hsub.
  2,4: exists [], [], EXIT_SUCCESS.
  2,3: split; [constructor|]; split; [done|]; split; [|done];
       split; [done|]; intros (j & c' & Hj & _); by apply elem_of_nil in Hj.
  - assert (Hpc : path b (c :: h :: p)) by (constructor; [done|by exists n]).
    pose proof (path_length b nonempty in_range_b root_free once _ Hpc) as Hlen.
    simpl in *. lia.
  - assert (Hpc : path b (c :: h :: p)) by (constructor; [done|by exists n]).
    pose proof (path_length b nonempty in_range_b root_free once _ Hpc) as Hlen.
    destruct (IH fuel c (h :: p) Hpc) as (t & l & s & Ht & Hrun & Hs & Hv);
      [simpl in *; lia | lia |].
    by exists t, l, s.
  - destruct (Hsub (left n)) as (tl & ll & sl & Htl & Hal & Hsl & Hvl); [left|].
    destruct (Hsub (right n)) as (tr & lr & sr & Htr & Har & Hsr & Hvr);
      [right; left|].
    destruct (audit_node fuel b fatal h n tl tr ll sl lr sr)
      as (l & s & Hrun & Hs & Hv); try done.
    { intros c [Hc|Hc]%kids_internal; rewrite Hc in *;
        eapply subtree_root; eauto. }
    exists (h :: tl ++ tr), l, s. split; [by econstructor|done].
  - destruct (Hsub (left n)) as (tl & ll & sl & Htl & Hal & Hsl & Hvl); [left|].
    destruct (Hsub (right n)) as (tr & lr & sr & Htr & Har & Hsr & Hvr);
      [right; left|].
    destruct (audit_node fuel b fatal h n tl tr ll sl lr sr)
      as (l & s & Hrun & Hs & Hv); try done.
    { intros c [Hc|Hc]%kids_internal; rewrite Hc in *;
        eapply subtree_root; eauto. }
    exists (h :: tl ++ tr), l, s. split; [by econstructor|done].
Qed.

(** From the root: the audit returns with fuel for every node. *)
Lemma audit_from_root fatal fuel :
  length b <= fuel ->
  exists t l s,
    subtree b (Internal 0) t /\
    check_bvh_volumes fuel b fatal 0 = (l, Ret s) /\
    (s = EXIT_FAILURE <-> exists j c, reachable b 0 j /\ exceeds b j c) /\
    (fatal = false -> visits l = t).
Proof using nonempty in_range_b root_free once.
  intros Hfuel.
  destruct (audit_below_path fatal (length b - 1) fuel 0 [])
    as (t & l & s & Ht & Hrun & Hs & Hv).
  { constructor. } { simpl. lia. }
  { destruct b; [done|]. simpl in *. lia. }
  exists t, l, s. repeat split; try done.
  - intros (j & c & Hj & Hx)%Hs. exists j, c. split; [|done].
    destruct (subtree_reachable _ _ _ Ht j Hj) as (i & [= <-] & Hr). done.
  - intros (j & c & Hj & Hx). apply Hs. exists j, c. split; [|done].
    by eapply reachable_subtree.
Qed.
End Rooted.

(** ** The tree below the root has every node once *)

Lemma both_children (b : bvh) i n c :
  b !! i = Some n -> left n = Internal c -> right n = Internal c ->
  2 <= references b (Internal c).
Proof.
  intros Hn Hl Hr. unfold references.
  rewrite <- (take_drop_middle b i n Hn), children_app, count_occ_app.
  change (children (n :: drop (S i) b)) with (kids n ++ children (drop (S i) b)).
  rewrite count_occ_app. unfold kids. rewrite Hl, Hr.
  rewrite !count_occ_cons_eq by done. lia.
Qed.

Lemma subtree_nonempty (b : bvh) c t x :
  subtree b c t -> x ∈ t -> exists i, c = Internal i.
Proof. destruct 1; [by intros ?%elem_of_nil|eauto]. Qed.

(** A node of the tree below [i] ends a chain that continues the chain to
    [i]. *)
Lemma subtree_path (b : bvh) c t :
  subtree b c t ->
  forall i p x,
    c = Internal i -> path b (i :: p) -> x ∈ t ->
    exists q, path b (q ++ i :: p) /\ head (q ++ i :: p) = Some x.
Proof.
  induction 1 as [k|j n tl tr Hn Hl IHl Hr IHr]; intros i p x [= <-] Hp Hx.
  apply elem_of_cons in Hx as [->|Hx]; [by exists []|].
  apply elem_of_app in Hx as [Hx|Hx].
  - destruct (subtree_nonempty _ _ _ _ Hl Hx) as [cl Hcl].
    assert (Hpc : path b (cl :: j :: p)).
    { constructor; [done|]. exists n. split; [done|].
      apply kids_internal. by left. }
    destruct (IHl cl (j :: p) x Hcl Hpc Hx) as (q & Hq & Hhead).
    exists (q ++ [cl]). by rewrite <- app_assoc.
  - destruct (subtree_nonempty _ _ _ _ Hr Hx) as [cr Hcr].
    assert (Hpc : path b (cr :: j :: p)).
    { constructor; [done|]. exists n. split; [done|].
      apply kids_internal. by right. }
    destruct (IHr cr (j :: p) x Hcr Hpc Hx) as (q & Hq & Hhead).
    exists (q ++ [cr]). by rewrite <- app_assoc.
Qed.

Section Branches.
Variable b : bvh.
Hypothesis nonempty : b <> [].
Hypothesis in_range_b : refs_in_range b.
Hypothesis root_free : references b (Internal 0) = 0.
Hypothesis once : forall i, 1 <= i < length b -> references b (Internal i) = 1.

(** There is one chain from the root to a node. *)
Lemma path_unique q1 :
  forall x q2, path b (x :: q1) -> path b (x :: q2) -> q1 = q2.
Proof using nonempty in_range_b root_free once.
  induction q1 as [|y1 q1 IH]; intros x q2 H1 H2.
  - inversion H1; subst. inversion H2 as [|i c p Hp Hedge]; subst; [done|].
    pose proof (edge_references _ _ _ Hedge). lia.
  - inversion H1 as [|i1 c1 p1 Hp1 Hedge1]; subst.
    inversion H2 as [|i2 c2 p2 Hp2 Hedge2]; subst.
    + pose proof (edge_references _ _ _ Hedge1). lia.
    + assert (y1 = i2) as ->.
      { eapply unique_parent; [|done..].
        apply (referenced_once b root_free once). by eapply edge_in_range. }
      f_equal. by eapply IH.
Qed.

(** No chain from the root comes back to a node below one of its
    children. *)
Lemma path_no_return j p c q :
  path b (q ++ c :: j :: p) -> head (q ++ c :: j :: p) <> Some j.
Proof using nonempty in_range_b root_free once.
  intros Hq Hhead.
  pose proof (path_NoDup b nonempty in_range_b root_free once _ Hq) as Hnd.
  destruct q as [|y q]; simpl in *.
  - inversion Hhead; subst. apply NoDup_cons in Hnd as [Hni _]. apply Hni. left.
  - inversion Hhead; subst. apply NoDup_cons in Hnd as [Hni _]. apply Hni.
    apply elem_of_app. right. right. left.
Qed.

(** The tree below a node that a chain from the root leads to has no node
    twice. *)
Lemma subtree_NoDup c t :
  subtree b c t ->
  forall i p, c = Internal i -> path b (i :: p) -> NoDup t.
Proof using nonempty in_range_b root_free once.
  induction 1 as [k|j n tl tr Hn Hl IHl Hr IHr]; intros i p [= <-] Hp.
  assert (Hleft : forall x, x ∈ tl ->
            exists cl q, left n = Internal cl /\ path b (q ++ cl :: j :: p) /\
                         head (q ++ cl :: j :: p) = Some x).
  { intros x Hx. destruct (subtree_nonempty _ _ _ _ Hl Hx) as [cl Hcl].
    assert (Hpc : path b (cl :: j :: p)).
    { constructor; [done|]. exists n. split; [done|].
      apply kids_internal. by left. }
    destruct (subtree_path _ _ _ Hl cl (j :: p) x Hcl Hpc Hx) as (q & Hq & Hh).
    by exists cl, q. }
  assert (Hright : forall x, x ∈ tr ->
            exists cr q, right n = Internal cr /\ path b (q ++ cr :: j :: p) /\
                         head (q ++ cr :: j :: p) = Some x).
  { intros x Hx. destruct (subtree_nonempty _ _ _ _ Hr Hx) as [cr Hcr].
    assert (Hpc : path b (cr :: j :: p)).
    { constructor; [done|]. exists n. split; [done|].
      apply kids_internal. by right. }
    destruct (subtree_path _ _ _ Hr cr (j :: p) x Hcr Hpc Hx) as (q & Hq & Hh).
    by exists cr, q. }
  apply NoDup_cons. split; [|apply NoDup_app; split; [|split]].
  - intros [Hj|Hj]%elem_of_app.
    + destruct (Hleft j Hj) as (cl & q & _ & Hq & Hh). by eapply path_no_return.
    + destruct (Hright j Hj) as (cr & q & _ & Hq & Hh). by eapply path_no_return.
  - destruct tl as [|x tl']; [constructor|].
    destruct (Hleft x) as (cl & q & Hcl & Hq & _); [left|].
    apply (IHl cl (j :: p) Hcl). constructor; [done|]. exists n.
    split; [done|]. apply kids_internal. by left.
  - intros x Hxl Hxr.
    destruct (Hleft x Hxl) as (cl & qa & Hcl & Hqa & Hha).
    destruct (Hright x Hxr) as (cr & qb & Hcr & Hqb & Hhb).
    destruct (qa ++ cl :: j :: p) as [|xa La] eqn:Ea; [done|].
    destruct (qb ++ cr :: j :: p) as [|xb Lb] eqn:Eb; [done|].
    simpl in Hha, Hhb. inversion Hha; inversion Hhb; subst.
    pose proof (path_unique La x Lb Hqa Hqb) as ->.
    rewrite <- Eb in Ea.
    apply app_inj_2 in Ea as [_ [= ->]]; [|done].
    pose proof (both_children b j n cr Hn Hcl Hcr) as Htwice.
    assert (cr < length b).
    { eapply edge_in_range; [done|]. exists n. split; [done|].
      apply kids_internal. by left. }
    pose proof (referenced_once b root_free once cr). lia.
  - destruct tr as [|x tr']; [constructor|].
    destruct (Hright x) as (cr & q & Hcr & Hq & _); [left|].
    apply (IHr cr (j :: p) Hcr). constructor; [done|]. exists n.
    split; [done|]. apply kids_internal. by right.
Qed.
End Branches.

(** Counters as required make the part of the hierarchy below the root a
    tree: it unfolds into a finite tree in which no node occurs twice, so
    that the audit from the root, with fuel for the nodes of the hierarchy,
    satisfies what [audit_visits_reachable_nodes_once] asks for. *)
Lemma counters_make_tree (b : bvh) :
  b <> [] -> counters_as_required b ->
  exists t, subtree b (Internal 0) t /\ NoDup t /\ length t <= length b.
Proof.
  intros Hb (H0 & Hn & Hl).
  pose proof (proj2 (node_violations_nil b) Hn) as Hn'.
  pose proof (proj2 (leaf_violations_nil b) Hl) as Hl'.
  destruct (root_unreferenced b Hb Hn' Hl') as [_ Hrange].
  destruct (audit_from_root b Hb Hrange H0 Hn false (length b))
    as (t & l & s & Ht & _); [done|].
  pose proof (subtree_NoDup b Hb Hrange H0 Hn _ _ Ht 0 [] eq_refl (path_root b))
    as Hnd.
  exists t. split; [done|]. split; [done|].
  rewrite <- (length_seq (length b) 0).
  apply submseteq_length, NoDup_submseteq; [done|].
  intros x Hx. apply elem_of_seq.
  destruct (subtree_path _ _ _ Ht 0 [] x eq_refl (path_root b) Hx) as (q & Hq & Hh).
  pose proof (path_below b _ Hb Hrange Hq) as Hbelow.
  rewrite Forall_forall in Hbelow.
  destruct (q ++ [0]) as [|y L] eqn:E; [done|]. simpl in Hh. inversion Hh; subst.
  specialize (Hbelow x ltac:(left)). lia.
Qed.

(** ** When [check_bvh] succeeds *)

Lemma check_bvh_success_in_range fuel (b : bvh) mem fatal l :
  check_bvh fuel b mem fatal = (l, Ret EXIT_SUCCESS) ->
  forallb (fits node_ref (length b)) (children b) = true /\
  forallb (fits leaf_ref (length b + 1)) (children b) = true.
Proof.
  unfold check_bvh. rewrite node_sweep_eq.
  destruct (forallb (fits node_ref _) _); [|done]. rewrite bind_ret.
  intros H. split; [done|].
  apply bind_value in H as (l3 & stop & l4 & _ & H & ->).
  destruct stop; [done|].
  apply bind_value in H as (l5 & r & l6 & Hr & H & ->).
  destruct r as [errors|code];
    [|apply check_count_loop_return in Hr as ->; done].
  apply bind_value in H as (l7 & lc & l8 & Hsweep & _).
  rewrite leaf_sweep_eq in Hsweep.
  by destruct (forallb (fits leaf_ref _) (children b)).
Qed.

Lemma length_zero_nil {A} (l1 l2 : list A) :
  (0 <? length l1 + length l2) = false -> l1 = [] /\ l2 = [].
Proof. destruct l1, l2; simpl; try done. Qed.

(** C6 (amended): on a hierarchy of at least one node, and when the slot
    that the second sweep reads behind the node array holds no leaf
    reference, [check_bvh] returns [EXIT_SUCCESS] if and only if the
    reference counters are as required (zero for the root, one for every
    other internal node, one for every leaf) and no node that is reachable
    from the root has an internal child whose volume exceeds its own; in
    particular it returns [EXIT_SUCCESS] on a valid hierarchy, with fuel
    for its nodes. *)
Theorem success_iff_counters_and_volumes (b : bvh) mem fatal :
  b <> [] -> leafless (past_nodes mem) ->
  (forall fuel l,
     check_bvh fuel b mem fatal = (l, Ret EXIT_SUCCESS) ->
     counters_as_required b /\
     forall j c, reachable b 0 j -> ~ exceeds b j c) /\
  (counters_as_required b ->
   (forall j c, reachable b 0 j -> ~ exceeds b j c) ->
   forall fuel, length b <= fuel ->
     exists l, check_bvh fuel b mem fatal = (l, Ret EXIT_SUCCESS)).
Proof.
  intros Hb Hmem. split.
  - intros fuel l Hrun.
    pose proof (check_bvh_success_in_range _ _ _ _ _ Hrun) as Hfits.
    apply refs_in_range_fits in Hfits as Hrange.
    assert (Hnone : node_violations b = [] /\ leaf_violations b = [] /\
                    exists l', check_bvh_volumes fuel b fatal 0 = (l', Ret EXIT_SUCCESS)).
    { destruct fatal.
      - rewrite (check_bvh_stop _ _ _ Hb Hrange Hmem) in Hrun.
        destruct (root_violation b); [|done].
        destruct (node_violations b); [|done].
        destruct (leaf_violations b); [|done].
        apply bind_value in Hrun as (? & ? & l' & _ & Hrun & _). eauto.
      - rewrite (check_bvh_collect _ _ _ Hb Hrange Hmem) in Hrun.
        apply bind_value in Hrun as (? & ? & l' & _ & Hrun & _).
        destruct (0 <? _) eqn:E; [done|].
        apply length_zero_nil in E as [-> ->]. eauto. }
    destruct Hnone as (Hn & Hl & l' & Haudit).
    destruct (root_unreferenced b Hb Hn Hl) as [H0 _].
    split.
    + split; [done|]. split; [by apply node_violations_nil|].
      by apply leaf_violations_nil.
    + intros j c Hj (n & sub & Hjn & Hc & Hsub & Hlt).
      pose proof (audit_success_sound _ _ _ _ _ Haudit j n c sub Hj Hjn Hc Hsub).
      congruence.
  - intros (H0 & Hn & Hl) Hvol fuel Hfuel.
    pose proof (proj2 (node_violations_nil b) Hn) as Hn'.
    pose proof (proj2 (leaf_violations_nil b) Hl) as Hl'.
    pose proof (proj2 (root_violation_nil b) H0) as H0'.
    destruct (root_unreferenced b Hb Hn' Hl') as [_ Hrange].
    destruct (audit_from_root b Hb Hrange H0 Hn fatal fuel Hfuel)
      as (t & l & s & _ & Haudit & Hs & _).
    assert (s = EXIT_SUCCESS) as ->.
    { destruct s; [done|]. destruct (proj1 Hs eq_refl) as (j & c & Hj & Hx).
      by destruct (Hvol j c Hj). }
    exists (NodeOverrun (length b) :: l).
    destruct fatal.
    + rewrite (check_bvh_stop _ _ _ Hb Hrange Hmem), H0', Hn', Hl'.
      by rewrite bind_tell, Haudit.
    + rewrite (check_bvh_collect _ _ _ Hb Hrange Hmem), H0', Hn', Hl'.
      simpl. by rewrite bind_logged, Haudit.
Qed.

Lemma sound_counters : counters_as_required sound.
Proof.
  split; [reflexivity|]. split.
  - intros i Hi. simpl in Hi.
    assert (i = 1 \/ i = 2) as [->| ->] by lia; reflexivity.
  - intros k Hk. simpl in Hk.
    assert (k = 0 \/ k = 1 \/ k = 2 \/ k = 3) as [->|[->|[->| ->]]] by lia;
      reflexivity.
Qed.

Lemma success_iff_counters_and_volumes_witness :
  (counters_as_required sound /\
   forall j c, reachable sound 0 j -> ~ exceeds sound j c) /\
  exists l, check_bvh 3 sound calm true = (l, Ret EXIT_SUCCESS).
Proof.
  pose proof (success_iff_counters_and_volumes sound calm true
                ltac:(done) ltac:(done)) as [Hfwd Hbwd].
  pose proof (Hfwd 3 [NodeOverrun 3; Visit 0; Visit 1; Visit 2]
                ltac:(by_running)) as [Hc Hv].
  split; [by split|]. apply (Hbwd Hc Hv 3). simpl. lia.
Defined.

(** The claim C6 as stated fails on [detached]: the counters are as
    required and [check_bvh] returns [EXIT_SUCCESS] under both policies,
    while the node 2 exceeds its parent 1. *)
Lemma success_with_violation :
  counters_as_required detached /\
  (check_bvh 3 detached calm false).2 = Ret EXIT_SUCCESS /\
  (check_bvh 3 detached calm true).2 = Ret EXIT_SUCCESS /\
  exceeds detached 1 2.
Proof.
  split; [|split; [|split]]; try by_running.
  - split; [reflexivity|]. split.
    + intros i Hi. simpl in Hi.
      assert (i = 1 \/ i = 2) as [->| ->] by lia; reflexivity.
    + intros k Hk. simpl in Hk.
      assert (k = 0 \/ k = 1 \/ k = 2 \/ k = 3) as [->|[->|[->| ->]]] by lia;
        reflexivity.
  - exists (mk f1 (Internal 2) (Leaf 2)), (mk f2 (Internal 1) (Leaf 3)).
    split; [reflexivity|]. split; [left|]. split; reflexivity.
Qed.

(** ** The reads outside the node array *)

(** C1 (the code departs from the claim): the sweep that fills
    [leaf_counts] runs over the indices of the first sweep and over one
    more, [bvh.size()], which is not an index of the node array; unless an
    [at()] has thrown before, the run reads the node slot behind the array.
    On the hierarchy of one node over two primitives the read is at the
    index 1. *)
Theorem leaf_sweep_overruns (b : bvh) mem :
  leaf_sweep_indices b = node_sweep_indices b ++ [length b] /\
  b !! length b = None /\
  ((leaf_sweep b mem).2 = Throw \/ (leaf_sweep b mem).1 = [NodeOverrun (length b)]) /\
  check_bvh 3 two_leaves calm false = ([NodeOverrun 1; Visit 0], Ret EXIT_SUCCESS).
Proof.
  split; [|split; [|split]].
  - unfold leaf_sweep_indices, node_sweep_indices. by rewrite seq_app.
  - by apply lookup_ge_None.
  - rewrite leaf_sweep_eq.
    destruct (forallb _ (children b)); [|by left].
    rewrite bind_tell. destruct (forallb _ (kids _)); [by right|by left].
  - by_running.
Qed.

(** What the read can do to a valid hierarchy: a leaf reference in the slot
    behind the array is counted with the others. *)
Lemma valid_hierarchy_rejected :
  check_bvh 3 two_leaves (noisy 0) true
  = ([NodeOverrun 1; LeafReferenced 0 2], Ret EXIT_FAILURE) /\
  check_bvh 3 two_leaves (noisy 5) true = ([NodeOverrun 1], Throw).
Proof. split; by_running. Qed.





Lemma empty_hierarchy_outcomes :
  check_bvh 3 [] calm true
  = ([CountOverrun 0; NodeOverrun 0; LeafReferenced 0 0], Ret EXIT_FAILURE) /\
  check_bvh 3 [] {| past_nodes := mk f0 (Leaf 0) (Internal 0); past_counts := 3 |} false
  = ([CountOverrun 0; RootReferenced 3; NodeOverrun 0], Throw).
Proof. split; by_running. Qed.

(** ** Instances *)

Lemma fatal_audit_returns_witness :
  check_bvh_volumes 1 inflated true 0
  = ([Visit 0; LeftVolume 0 1 f1 f2; RightVolume 0 2 f1 f2], Ret EXIT_FAILURE) /\
  check_bvh_volumes 3 left_bad true 0
  = ([Visit 0; Visit 1; LeftVolume 1 3 f1 f2], Ret EXIT_FAILURE) /\
  check_bvh_volumes 3 right_bad true 0
  = ([Visit 0; Visit 1; Visit 2; LeftVolume 2 3 f1 f2], Ret EXIT_FAILURE).
Proof.
  split; [|split].
  - destruct (fatal_audit_returns 0 inflated 0 (mk f1 (Internal 1) (Internal 2))
                [LeftVolume 0 1 f1 f2; RightVolume 0 2 f1 f2] 2
                eq_refl ltac:(by_running)) as (H & _ & _).
    apply H. lia.
  - destruct (fatal_audit_returns 2 left_bad 0 (mk f2 (Internal 1) (Internal 2))
                [] 0 eq_refl ltac:(by_running)) as (_ & H & _).
    apply (H 1 [Visit 1; LeftVolume 1 3 f1 f2]); [done|done|].
    by_running.
  - destruct (fatal_audit_returns 2 right_bad 0 (mk f2 (Internal 1) (Internal 2))
                [] 0 eq_refl ltac:(by_running)) as (_ & _ & H).
    apply (H 2 [Visit 1] [Visit 2; LeftVolume 2 3 f1 f2]); [done| |done|].
    + by_running.
    + by_running.
Defined.

Lemma schedule_runs_every_division_once_witness :
  let t := schedule (make_fake_task_scheduler 4) in
  invocations t = divisions 4 /\
  length (invocations t) = 4 /\
  NoDup (invocations t) /\
  (forall div, div ∈ invocations t <->
     exists i, (i < 4)%N /\ div = {| index := i; count := 4 |}) /\
  Call {| index := 3; count := 4 |} ∈ t /\
  pending t = [].
Proof.
  apply (schedule_runs_every_division_once 4). split; [lia|reflexivity].
Defined.

(** ** The fatal policy cuts the run short *)

Lemma bind_prefix {A B} (m : run A) (k : A -> run B) : m.1 `prefix_of` (bind m k).1.
Proof.
  unfold bind. destruct (m.2); simpl; [by apply prefix_app_r|done..].
Qed.

Lemma cut_short_refl (r : run exit_status) : cut_short r r.
Proof. by split. Qed.

Lemma cut_short_stop (r : run exit_status) : cut_short (ret EXIT_FAILURE) r.
Proof. split; [apply prefix_nil|done]. Qed.

(** After a common start the two runs are compared on what follows. *)
Lemma cut_short_bind_same {A} (m : run A) (kf kn : A -> run exit_status) :
  (forall a, m.2 = Ret a -> cut_short (kf a) (kn a)) ->
  cut_short (bind m kf) (bind m kn).
Proof.
  intros H. unfold bind. destruct (m.2) as [a| |] eqn:E; [|by split..].
  destruct (H a eq_refl) as [Hp He]. split; simpl.
  - by apply prefix_app.
  - intros Hs. by rewrite (He Hs).
Qed.

(** The two runs start with runs of which one is cut short: either it
    went through, the other one is the same and the comparison goes on, or
    it makes the fatal run return without a word. *)
Lemma cut_short_bind {A} (mf mn : run A) (kf kn : A -> run exit_status) :
  mf.1 `prefix_of` mn.1 ->
  (forall a, mf.2 = Ret a ->
     (mn = mf /\ cut_short (kf a) (kn a)) \/
     ((kf a).1 = [] /\ (kf a).2 <> Ret EXIT_SUCCESS)) ->
  cut_short (bind mf kf) (bind mn kn).
Proof.
  intros Hp H.
  assert (Hpre : mf.1 `prefix_of` (bind mn kn).1).
  { etrans; [done|apply bind_prefix]. }
  destruct (mf.2) as [a| |] eqn:E.
  - destruct (H a eq_refl) as [[-> Hc]|[Hnil Hne]].
    + apply cut_short_bind_same. intros a' Ha'. congruence.
    + unfold bind at 1. rewrite E. simpl. rewrite Hnil, app_nil_r. by split.
  - unfold bind at 1. rewrite E. by split.
  - unfold bind at 1. rewrite E. by split.
Qed.

Lemma count_index_returns v mem i :
  exists l n, count_index v mem i = (l, Ret n) /\ quiet l.
Proof.
  unfold count_index. destruct (v !! i).
  - eexists [], _. split; [done|constructor].
  - eexists [_], _. split; [done|]. by repeat constructor.
Qed.

Lemma check_count_shape mem counts report i errors :
  exists l n, quiet l /\ forall fatal,
    check_count mem fatal counts report i errors =
    if negb (n =? 1)
    then (l ++ [report i n], Ret (if fatal then inr EXIT_FAILURE else inl (S errors)))
    else (l, Ret (inl errors)).
Proof.
  unfold check_count.
  destruct (count_index_returns counts mem i) as (l & n & -> & Hq).
  exists l, n. split; [done|]. intros fatal. rewrite bind_logged.
  destruct (negb (n =? 1)); simpl; [|by rewrite app_nil_r].
  by destruct fatal.
Qed.

Lemma check_loop_cut mem counts report indices errors :
  let rf := for_indices_or_return (check_count mem true counts report) indices errors in
  let rn := for_indices_or_return (check_count mem false counts report) indices errors in
  rf.1 `prefix_of` rn.1 /\ forall a, rf.2 = Ret a -> (a = inl errors /\ rn = rf) \/ a = inr EXIT_FAILURE.
Proof.
  revert errors. induction indices as [|i rest IH]; intros errors; simpl.
  - split; [done|]. intros a [= <-]. by left.
  - destruct (check_count_shape mem counts report i errors) as (l & n & _ & Hc).
    rewrite !Hc.
    destruct (negb (n =? 1)); rewrite !bind_logged; simpl.
    + split; [apply prefix_app, prefix_nil|]. intros a [= <-]. by right.
    + destruct (IH errors) as [Hp Ha]. split; [by apply prefix_app|].
      intros a Hr. destruct (Ha a Hr) as [[-> He]| ->]; [left|by right].
      split; [done|]. by rewrite He.
Qed.

Lemma audit_cut fuel (b : bvh) :
  (forall i, cut_short (check_bvh_volumes fuel b true i)
                       (check_bvh_volumes fuel b false i)) ->
  forall c, cut_short (audit fuel b true c) (audit fuel b false c).
Proof. intros H [i|k]; simpl; [apply H|apply cut_short_refl]. Qed.

(** The geometric audit under the fatal policy prints an initial segment
    of what it prints without it. *)
Lemma check_bvh_volumes_cut fuel (b : bvh) i :
  cut_short (check_bvh_volumes fuel b true i) (check_bvh_volumes fuel b false i).
Proof.
  revert i. induction fuel as [|fuel IH]; intros i; [apply cut_short_refl|].
  pose proof (audit_cut fuel b IH) as Haudit.
  rewrite !check_bvh_volumes_S.
  apply cut_short_bind_same. intros n _.
  apply cut_short_bind_same. intros _ _.
  apply cut_short_bind_same. intros errors _.
  destruct errors as [|errors]; simpl; [|apply cut_short_stop].
  apply cut_short_bind; [apply Haudit|].
  intros [] Hl; simpl.
  - left. split; [by apply (proj2 (Haudit _))|].
    apply cut_short_bind; [apply Haudit|].
    intros [] Hr; simpl.
    + left. split; [by apply (proj2 (Haudit _))|apply cut_short_refl].
    + by right.
  - by right.
Qed.

Lemma check_root_shape mem counts :
  exists l n, quiet l /\ forall fatal,
    check_root mem fatal counts =
    if 0 <? n then (l ++ [RootReferenced n], Ret fatal) else (l, Ret false).
Proof.
  unfold check_root.
  destruct (count_index_returns counts mem 0) as (l & n & -> & Hq).
  exists l, n. split; [done|]. intros fatal. rewrite bind_logged.
  destruct (0 <? n); simpl; by rewrite ?app_nil_r.
Qed.

(** The whole validation under the fatal policy is the validation without
    it, cut short. *)
Lemma check_bvh_cut fuel (b : bvh) mem :
  cut_short (check_bvh fuel b mem true) (check_bvh fuel b mem false).
Proof.
  unfold check_bvh.
  apply cut_short_bind_same. intros node_counts _.
  destruct (check_root_shape mem node_counts) as (l0 & n & _ & Hroot).
  apply cut_short_bind; [rewrite !Hroot; by destruct (0 <? n)|].
  intros stop Hstop. rewrite Hroot in Hstop.
  destruct stop; [by right|]. left. split.
  { rewrite !Hroot. by destruct (0 <? n). }
  unfold check_node_counts.
  destruct (check_loop_cut mem node_counts NodeCounted
              (seq 1 (length node_counts - 1)) 0) as [Hp Ha].
  apply cut_short_bind; [done|].
  intros r Hr. destruct (Ha r Hr) as [[-> He]| ->]; [left|by right].
  split; [done|].
  apply cut_short_bind_same. intros leaf_counts _.
  unfold check_leaf_counts.
  destruct (check_loop_cut mem leaf_counts LeafReferenced
              (seq 0 (length b + 1)) 0) as [Hp' Ha'].
  apply cut_short_bind; [done|].
  intros r Hr'. destruct (Ha' r Hr') as [[-> He']| ->]; [left|by right].
  split; [done|]. simpl. apply check_bvh_volumes_cut.
Qed.

(** X1.  What [check_bvh] prints with [errors_fatal] set is an initial
    segment of what it prints on the same hierarchy with [errors_fatal]
    clear: the policy only decides where the run stops. *)
Theorem fatal_log_is_prefix fuel (b : bvh) mem :
  (check_bvh fuel b mem true).1 `prefix_of` (check_bvh fuel b mem false).1.
Proof. apply check_bvh_cut. Qed.

(** X2.  When [check_bvh] returns [EXIT_SUCCESS] with [errors_fatal] set,
    the run with [errors_fatal] clear is the same run: the same output and
    [EXIT_SUCCESS]. *)
Theorem fatal_success_same_run fuel (b : bvh) mem l :
  check_bvh fuel b mem true = (l, Ret EXIT_SUCCESS) ->
  check_bvh fuel b mem false = (l, Ret EXIT_SUCCESS).
Proof.
  intros H. destruct (check_bvh_cut fuel b mem) as [_ He].
  rewrite He; [done|]. by rewrite H.
Qed.

Lemma fatal_success_same_run_witness :
  check_bvh 3 sound calm false =
    ([NodeOverrun 3; Visit 0; Visit 1; Visit 2], Ret EXIT_SUCCESS).
Proof.
  apply (fatal_success_same_run 3 sound calm). by_running.
Defined.

(** X3.  The same for the geometric audit alone, from any node: with
    [errors_fatal] set [check_bvh_volumes] prints an initial segment of
    what it prints with [errors_fatal] clear, and the two runs are the
    same when the fatal one returns [EXIT_SUCCESS]. *)
Theorem fatal_audit_is_cut_short fuel (b : bvh) i :
  cut_short (check_bvh_volumes fuel b true i) (check_bvh_volumes fuel b false i).
Proof. apply check_bvh_volumes_cut. Qed.

Lemma exit_status_agree (s1 s2 : exit_status) :
  (s1 = EXIT_FAILURE <-> s2 = EXIT_FAILURE) -> s1 = s2.
Proof. destruct s1, s2; intros [H1 H2]; try done; [by rewrite H2|by rewrite H1]. Qed.

(** X4.  On a hierarchy with a node, whose references are all in range,
    the policy does not change the verdict: with fuel for the nodes both
    runs return, and they return the same status. *)
Theorem verdict_independent_of_policy fuel (b : bvh) mem :
  b <> [] -> refs_in_range b -> leafless (past_nodes mem) ->
  length b <= fuel ->
  exists s,
    (check_bvh fuel b mem true).2 = Ret s /\
    (check_bvh fuel b mem false).2 = Ret s.
Proof.
  intros Hne Hin Hmem Hfuel.
  rewrite (check_bvh_stop fuel b mem Hne Hin Hmem).
  destruct (root_violation b ++ node_violations b ++ leaf_violations b)
    as [|e found] eqn:Hfound.
  - apply app_eq_nil in Hfound as [Hr [Hn Hl]%app_eq_nil].
    rewrite (check_bvh_collect fuel b mem Hne Hin Hmem), Hr, Hn, Hl. simpl.
    pose proof (proj1 (root_violation_nil b) Hr) as Hroot.
    pose proof (proj1 (node_violations_nil b) Hn) as Honce.
    destruct (audit_from_root b Hne Hin Hroot Honce true fuel Hfuel)
      as (tf & lf & sf & _ & Hf & Hsf & _).
    destruct (audit_from_root b Hne Hin Hroot Honce false fuel Hfuel)
      as (tn & ln & sn & _ & Hn' & Hsn & _).
    exists sf. rewrite Hf, Hn'. simpl.
    split; [done|]. f_equal. apply exit_status_agree. by rewrite Hsf, Hsn.
  - exists EXIT_FAILURE. split.
    + destruct (root_violation b); [|done].
      destruct (node_violations b); [|done].
      destruct (leaf_violations b); [|done]. done.
    + rewrite (check_bvh_reports_all fuel b mem Hne Hin Hmem); [done|].
      by rewrite Hfound.
Qed.

Lemma sound_in_range : refs_in_range sound.
Proof. unfold refs_in_range. simpl. by repeat constructor. Qed.

Lemma verdict_independent_of_policy_witness :
  exists s,
    (check_bvh 3 sound calm true).2 = Ret s /\
    (check_bvh 3 sound calm false).2 = Ret s.
Proof.
  apply (verdict_independent_of_policy 3 sound calm).
  - done.
  - apply sound_in_range.
  - done.
  - simpl. lia.
Defined.

(** ** What the status says about the output *)

Lemma quiet_nil : quiet [].
Proof. constructor. Qed.

#[local] Hint Resolve quiet_nil : core.

Lemma quiet_app (l1 l2 : list event) : quiet (l1 ++ l2) <-> quiet l1 /\ quiet l2.
Proof. apply Forall_app. Qed.

Lemma loud_app (l1 l2 : list event) : loud (l1 ++ l2) <-> loud l1 \/ loud l2.
Proof. apply Exists_app. Qed.

Lemma loud_reports (d : list event) :
  Forall (fun e => is_diagnostic e = true) d -> 0 < length d -> loud d.
Proof.
  intros Hd Hlen. destruct d as [|e d]; [simpl in Hlen; lia|].
  apply Exists_cons_hd. by inversion Hd.
Qed.

Lemma stops_quiet (l : list event) r : quiet l -> stops_at_report l r.
Proof.
  intros H. exists l, []. rewrite app_nil_r.
  split; [done|]. split; [done|]. split; [constructor|]. split; [simpl; lia|done].
Qed.

Lemma stops_prepend (l0 l : list event) r :
  quiet l0 -> stops_at_report l r -> stops_at_report (l0 ++ l) r.
Proof.
  intros H0 (l1 & d & -> & H1 & Hd & Hlen & Hr).
  exists (l0 ++ l1), d. rewrite app_assoc.
  split; [done|]. split; [by apply quiet_app|]. done.
Qed.

Lemma stops_success_quiet (l : list event) :
  stops_at_report l (Ret EXIT_SUCCESS) -> quiet l.
Proof.
  intros (l0 & d & -> & H0 & Hd & _ & Hr).
  destruct d as [|e d]; [by rewrite app_nil_r|].
  by destruct Hr as [?|?].
Qed.

Lemma bind_result {A B} (m : run A) (k : A -> run B) a :
  m.2 = Ret a -> (bind m k).2 = (k a).2.
Proof. intros H. unfold bind. by rewrite H. Qed.

Lemma fold_right_success (m : run exit_status) :
  bind m (fun sr => ret (fold_right_result EXIT_SUCCESS sr)) = m.
Proof. destruct m as [l [[]| |]]; unfold bind; simpl; by rewrite ?app_nil_r. Qed.

(** Once an error has been counted without the fatal policy, the node does
    not return [EXIT_SUCCESS]. *)
Lemma counted_node_fails (mL mR : run exit_status) :
  (sl <- mL ;;
   match fold_left_result false EXIT_FAILURE sl with
   | inr code => ret code
   | inl exit_code => sr <- mR ;; ret (fold_right_result exit_code sr)
   end).2 <> Ret EXIT_SUCCESS.
Proof. destruct mL as [ll [[]| |]], mR as [lr [[]| |]]; by simpl. Qed.

Lemma check_sub_volume_shape (b : bvh) i pv sub report e :
  (forall a c x y, is_diagnostic (report a c x y) = true) ->
  exists d,
    Forall (fun e => is_diagnostic e = true) d /\ length d <= 1 /\
    (check_sub_volume b i pv sub report e = (d, Ret (e + length d)) \/
     check_sub_volume b i pv sub report e = (d, Throw)).
Proof.
  intros Hrep. rewrite check_sub_volume_eq.
  destruct sub as [c|k]; [destruct (b !! c) as [sn|]; [destruct (flt _ _)|]|].
  - eexists [_]. split; [by repeat constructor|]. split; [done|]. left.
    simpl. do 2 f_equal. lia.
  - exists []. split; [done|]. split; [simpl; lia|]. left.
    simpl. unfold ret. do 2 f_equal. lia.
  - exists []. split; [done|]. split; [simpl; lia|]. by right.
  - exists []. split; [done|]. split; [simpl; lia|]. left.
    simpl. unfold ret. do 2 f_equal. lia.
Qed.

Lemma local_errors_shape (b : bvh) i n :
  exists d,
    Forall (fun e => is_diagnostic e = true) d /\ length d <= 2 /\
    (local_errors b i n = (d, Ret (length d)) \/ local_errors b i n = (d, Throw)).
Proof.
  rewrite local_errors_eq.
  destruct (check_sub_volume_shape b i (volume_of (box n)) (left n) LeftVolume 0
              ltac:(done)) as (d1 & Hd1 & Hl1 & [-> | ->]).
  - rewrite bind_logged.
    destruct (check_sub_volume_shape b i (volume_of (box n)) (right n) RightVolume
                (0 + length d1) ltac:(done)) as (d2 & Hd2 & Hl2 & [-> | ->]);
      exists (d1 ++ d2); rewrite length_app;
      (split; [by apply Forall_app|]); (split; [lia|]); [by left|by right].
  - exists d1. split; [done|]. split; [lia|]. by right.
Qed.

Lemma check_loop_reported mem fatal counts report indices errors :
  (forall i n, is_diagnostic (report i n) = true) ->
  let m := for_indices_or_return (check_count mem fatal counts report)
             indices errors in
  (exists l0 i n,
     fatal = true /\ quiet l0 /\ m = (l0 ++ [report i n], Ret (inr EXIT_FAILURE))) \/
  (m.2 = Ret (inl errors) /\ quiet m.1) \/
  (exists e', fatal = false /\ m.2 = Ret (inl e') /\ errors < e' /\ loud m.1).
Proof.
  intros Hrep. revert errors.
  induction indices as [|i rest IH]; intros errors; simpl.
  - right. left. by split.
  - destruct (check_count_shape mem counts report i errors) as (l & n & Hq & Hc).
    rewrite Hc. destruct (negb (n =? 1)); [destruct fatal|]; rewrite bind_logged.
    + left. exists l, i, n. simpl. by rewrite app_nil_r.
    + right. right.
      destruct (IH (S errors)) as [(? & ? & ? & [=] & _)|[[Hr _]|(e' & _ & Hr & Hlt & _)]].
      * exists (S errors). simpl. split; [done|]. split; [done|]. split; [lia|].
        apply loud_app. left. apply loud_app. right. by apply Exists_cons_hd.
      * exists e'. simpl. split; [done|]. split; [done|]. split; [lia|].
        apply loud_app. left. apply loud_app. right. by apply Exists_cons_hd.
    + destruct (IH errors) as [(l0 & i' & n' & -> & Hq0 & Hm)|[[Hr Hq']|(e' & -> & Hr & Hlt & Hl)]].
      * left. exists (l ++ l0), i', n'. rewrite Hm. simpl.
        rewrite app_assoc. split; [done|]. split; [by apply quiet_app|done].
      * right. left. simpl. split; [done|]. by apply quiet_app.
      * right. right. exists e'. simpl. split; [done|]. split; [done|].
        split; [done|]. apply loud_app. by right.
Qed.

Lemma node_sweep_silent (b : bvh) mem : (node_sweep b mem).1 = [].
Proof. rewrite node_sweep_eq. by case_match. Qed.

Lemma leaf_sweep_quiet (b : bvh) mem : quiet (leaf_sweep b mem).1.
Proof.
  rewrite leaf_sweep_eq. case_match; [|done].
  rewrite bind_tell. simpl. constructor; [done|]. by case_match.
Qed.

Section Reported.
Variable Q : event -> Prop.
Hypothesis Q_quiet : forall e, is_diagnostic e = false -> Q e.

Lemma quiet_Q (l : list event) : quiet l -> Forall Q l.
Proof using Q_quiet. intros H. eapply Forall_impl; [exact H|exact Q_quiet]. Qed.

(** A start that is allowed in a successful run, and quiet under the fatal
    policy, leaves the account to what follows. *)
Lemma reported_prefix {A} fatal (m : run A) (k : A -> run exit_status) :
  Forall Q m.1 -> (fatal = true -> quiet m.1) ->
  (forall a, m.2 = Ret a -> reported Q fatal (k a)) ->
  reported Q fatal (bind m k).
Proof.
  intros HQ Hq Hk. unfold bind. destruct (m.2) as [a| |] eqn:E.
  - destruct (Hk a eq_refl) as (H1 & H2 & H3). split; [|split]; simpl.
    + intros H. apply loud_app. right. by apply H1.
    + intros H. apply Forall_app. split; [done|by apply H2].
    + intros Hf. apply stops_prepend; [by apply Hq|by apply H3].
  - split; [|split]; simpl; [done..|]. intros Hf. by apply stops_quiet, Hq.
  - split; [|split]; simpl; [done..|]. intros Hf. by apply stops_quiet, Hq.
Qed.

(** Without the fatal policy, a start with a diagnostic is accounted for
    when what follows does not return [EXIT_SUCCESS]. *)
Lemma reported_after_report {A} (m : run A) (k : A -> run exit_status) :
  loud m.1 -> (forall a, m.2 = Ret a -> (k a).2 <> Ret EXIT_SUCCESS) ->
  reported Q false (bind m k).
Proof.
  intros Hl Hk. unfold bind. destruct (m.2) as [a| |] eqn:E;
    (split; [|split]); simpl; try done.
  - intros _. apply loud_app. by left.
  - intros H. by destruct (Hk a eq_refl).
Qed.

Lemma reported_stop fatal (l0 d : list event) :
  quiet l0 -> Forall (fun e => is_diagnostic e = true) d -> 0 < length d <= 2 ->
  reported Q fatal (l0 ++ d, Ret EXIT_FAILURE).
Proof.
  intros H0 Hd Hlen. split; [|split]; simpl; [|done|].
  - intros _. apply loud_app. right. apply loud_reports; [done|lia].
  - intros _. exists l0, d. split; [done|]. split; [done|]. split; [done|].
    split; [lia|]. by left.
Qed.

(** The two recursive calls of a node without errors of its own. *)
Lemma reported_both fatal (mL mR : run exit_status) :
  reported Q fatal mL -> reported Q fatal mR ->
  reported Q fatal
    (sl <- mL ;;
     match fold_left_result fatal EXIT_SUCCESS sl with
     | inr code => ret code
     | inl exit_code => sr <- mR ;; ret (fold_right_result exit_code sr)
     end).
Proof.
  intros HL HR. destruct mL as [ll [[]| |]].
  - rewrite bind_logged. cbv beta. rewrite fold_left_result_success, fold_right_success.
    destruct HL as (_ & H2 & H3).
    change (reported Q fatal (bind (ll, Ret tt) (fun _ => mR))).
    apply reported_prefix; simpl; [by apply H2| |done].
    intros Hf. by apply stops_success_quiet, H3.
  - destruct fatal.
    + rewrite bind_logged. simpl. by rewrite app_nil_r.
    + apply reported_after_report; [by apply HL|].
      intros a [= <-]. by destruct mR as [lr [[]| |]].
  - exact HL.
  - exact HL.
Qed.

Lemma audit_reported fatal fuel (b : bvh) :
  (forall i, reported Q fatal (check_bvh_volumes fuel b fatal i)) ->
  forall c, reported Q fatal (audit fuel b fatal c).
Proof.
  intros H [i|k]; simpl; [apply H|].
  split; [|split]; simpl; [done|constructor|]. intros _. apply stops_quiet. constructor.
Qed.

(** The geometric audit: [EXIT_FAILURE] comes with a diagnostic, a
    successful audit is quiet, and the fatal policy stops at the first
    node that has an error. *)
Lemma check_bvh_volumes_reported fatal fuel (b : bvh) i :
  reported Q fatal (check_bvh_volumes fuel b fatal i).
Proof using Q_quiet.
  revert i. induction fuel as [|fuel IH]; intros i.
  { split; [|split]; simpl; [done..|]. intros _. apply stops_quiet. constructor. }
  pose proof (audit_reported fatal fuel b IH) as Haudit.
  rewrite check_bvh_volumes_S.
  apply reported_prefix.
  { unfold at_. destruct (b !! i); constructor. }
  { intros _. unfold at_. destruct (b !! i); constructor. }
  intros n _. apply reported_prefix.
  { by repeat constructor; apply Q_quiet. }
  { intros _. by repeat constructor. }
  intros _ _.
  destruct (local_errors_shape b i n) as (d & Hd & Hlen & [-> | ->]).
  - destruct d as [|e d].
    + change (@nil event, Ret (length (@nil event))) with (ret 0).
      rewrite bind_ret. simpl. apply reported_both; apply Haudit.
    + destruct fatal.
      * rewrite bind_logged. simpl. rewrite app_nil_r.
        apply (reported_stop true [] (e :: d)); [constructor|done|simpl in *; lia].
      * apply reported_after_report; [apply loud_reports; [done|simpl; lia]|].
        intros a [= <-]. apply counted_node_fails.
  - split; [|split]; simpl; [done..|]. intros _.
    exists [], d. split; [done|]. split; [constructor|]. split; [done|].
    split; [done|]. by right.
Qed.

(** Lines 136-166 after an error has been counted: no [EXIT_SUCCESS]. *)
Lemma counted_run_fails fuel (b : bvh) mem errors :
  0 < errors ->
  (leaf_counts <- leaf_sweep b mem ;;
   r <- check_leaf_counts b mem false leaf_counts errors ;;
   match r with
   | inr code => ret code
   | inl errors =>
       if 0 <? errors then ret EXIT_FAILURE
       else check_bvh_volumes fuel b false 0
   end).2 <> Ret EXIT_SUCCESS.
Proof.
  intros He. destruct (leaf_sweep b mem) as [ls [lc| |]]; [|done..].
  rewrite bind_logged. simpl. unfold check_leaf_counts.
  destruct (check_loop_reported mem false lc LeafReferenced
              (seq 0 (length b + 1)) errors ltac:(done))
    as [(? & ? & ? & [=] & _)|[[Hr _]|(e' & _ & Hr & Hlt & _)]];
    rewrite (bind_result _ _ _ Hr).
  - apply Nat.ltb_lt in He. by rewrite He.
  - assert ((0 <? e') = true) as -> by (apply Nat.ltb_lt; lia). done.
Qed.

(** Lines 122-166: what follows the root check. *)
Lemma check_bvh_rest_reported fuel (b : bvh) mem fatal node_counts :
  reported Q fatal
    (r <- check_node_counts mem fatal node_counts 0 ;;
     match r with
     | inr code => ret code
     | inl errors =>
         leaf_counts <- leaf_sweep b mem ;;
         r <- check_leaf_counts b mem fatal leaf_counts errors ;;
         match r with
         | inr code => ret code
         | inl errors =>
             if 0 <? errors then ret EXIT_FAILURE
             else check_bvh_volumes fuel b fatal 0
         end
     end).
Proof using Q_quiet.
  unfold check_node_counts.
  destruct (check_loop_reported mem fatal node_counts NodeCounted
              (seq 1 (length node_counts - 1)) 0 ltac:(done))
    as [(l1 & i & k & -> & Hq1 & ->)|[[Hr Hq1]|(e' & -> & Hr & Hlt & Hl1)]].
  - rewrite bind_logged. simpl. rewrite app_nil_r.
    apply reported_stop; [done|by repeat constructor|simpl; lia].
  - apply reported_prefix; [by apply quiet_Q|done|].
    intros r Hr'. rewrite Hr in Hr'. injection Hr' as <-.
    apply reported_prefix; [apply quiet_Q, leaf_sweep_quiet|intros _; apply leaf_sweep_quiet|].
    intros leaf_counts _. unfold check_leaf_counts.
    destruct (check_loop_reported mem fatal leaf_counts LeafReferenced
                (seq 0 (length b + 1)) 0 ltac:(done))
      as [(l2 & i & k & -> & Hq2 & ->)|[[Hr2 Hq2]|(e' & -> & Hr2 & Hlt & Hl2)]].
    + rewrite bind_logged. simpl. rewrite app_nil_r.
      apply reported_stop; [done|by repeat constructor|simpl; lia].
    + apply reported_prefix; [by apply quiet_Q|done|].
      intros r Hr2'. rewrite Hr2 in Hr2'. injection Hr2' as <-. simpl.
      apply check_bvh_volumes_reported.
    + apply reported_after_report; [done|].
      intros r Hr2'. rewrite Hr2 in Hr2'. injection Hr2' as <-.
      assert ((0 <? e') = true) as -> by (apply Nat.ltb_lt; lia). done.
  - apply reported_after_report; [done|].
    intros r Hr'. rewrite Hr in Hr'. injection Hr' as <-.
    by apply counted_run_fails.
Qed.

End Reported.

Lemma quiet_allowed fatal e : is_diagnostic e = false -> allowed fatal e.
Proof. intros He Hd. congruence. Qed.

(** The whole validation. *)
Lemma check_bvh_reported fuel (b : bvh) mem fatal :
  reported (allowed fatal) fatal (check_bvh fuel b mem fatal).
Proof.
  pose proof (quiet_allowed fatal) as HQ.
  unfold check_bvh.
  apply reported_prefix;
    [rewrite node_sweep_silent; constructor|
     intros _; rewrite node_sweep_silent; constructor|].
  intros node_counts _.
  destruct (check_root_shape mem node_counts) as (l0 & n & Hq0 & Hroot).
  rewrite Hroot. destruct (0 <? n); [destruct fatal|].
  - rewrite bind_logged. simpl. rewrite app_nil_r.
    apply reported_stop; [done|by repeat constructor|simpl; lia].
  - apply reported_prefix; [|done|].
    + apply Forall_app. split; [by apply (quiet_Q _ HQ)|].
      constructor; [|constructor]. intros _. split; [done|by exists n].
    + intros stop [= <-]. apply (check_bvh_rest_reported _ HQ).
  - apply reported_prefix; [by apply (quiet_Q _ HQ)|done|].
    intros stop [= <-]. apply (check_bvh_rest_reported _ HQ).
Qed.

(** X5.  Whenever [check_bvh] returns [EXIT_FAILURE] it has printed a
    diagnostic: a failure is never silent, under either policy, on any
    hierarchy and whatever lies past the arrays. *)
Theorem failure_is_reported fuel (b : bvh) mem fatal l :
  check_bvh fuel b mem fatal = (l, Ret EXIT_FAILURE) ->
  exists e, e ∈ l /\ is_diagnostic e = true.
Proof.
  intros H. destruct (check_bvh_reported fuel b mem fatal) as (H1 & _ & _).
  rewrite H in H1. apply Exists_exists. by apply H1.
Qed.

Lemma failure_is_reported_witness :
  exists e,
    e ∈ [NodeOverrun 1; LeafReferenced 0 2; LeafReferenced 1 0] /\
    is_diagnostic e = true.
Proof.
  apply (failure_is_reported 3 twice calm false). by_running.
Defined.

(** X6.  A run of [check_bvh] that returns [EXIT_SUCCESS] has printed no
    diagnostic, with one exception: without the fatal policy the line on
    the root's counter may have been printed, since lines 115-120 report
    it and count no error. *)
Theorem success_is_silent fuel (b : bvh) mem fatal l e :
  check_bvh fuel b mem fatal = (l, Ret EXIT_SUCCESS) ->
  e ∈ l -> is_diagnostic e = true ->
  fatal = false /\ exists n, e = RootReferenced n.
Proof.
  intros H He Hd. destruct (check_bvh_reported fuel b mem fatal) as (_ & H2 & _).
  rewrite H in H2. specialize (H2 eq_refl).
  rewrite Forall_forall in H2. by apply (H2 e He).
Qed.

Lemma success_is_silent_witness :
  false = false /\ exists n, RootReferenced 1 = RootReferenced n.
Proof.
  apply (success_is_silent 3 root_child (noisy 2) false
           [RootReferenced 1; NodeOverrun 2; Visit 0]).
  - by_running.
  - apply list_elem_of_here.
  - reflexivity.
Defined.

(** X7.  With [errors_fatal] set, [check_bvh] stops at the first report:
    its output is a part without diagnostics followed by at most two
    diagnostics (the two comparisons of one node, lines 41-59, are both
    made before line 61 returns), and a run that printed a diagnostic
    returns [EXIT_FAILURE] or throws from [at()]. *)
Theorem fatal_stops_at_first_report fuel (b : bvh) mem :
  stops_at_report (check_bvh fuel b mem true).1 (check_bvh fuel b mem true).2.
Proof. by apply check_bvh_reported. Qed.

(** ** The checked accesses *)

Lemma kids_in_range (b : bvh) i n c :
  refs_in_range b -> b !! i = Some n -> Internal c ∈ kids n -> c < length b.
Proof.
  intros Hin Hn Hc. pose proof (children_elem b i n _ Hn Hc) as Hel.
  unfold refs_in_range in Hin. rewrite Forall_forall in Hin.
  specialize (Hin _ Hel). by apply Nat.ltb_lt.
Qed.

(** With every reference in range no [at()] of the geometric audit throws. *)
Lemma check_bvh_volumes_no_throw fatal (b : bvh) :
  refs_in_range b ->
  forall fuel i, i < length b -> (check_bvh_volumes fuel b fatal i).2 <> Throw.
Proof.
  intros Hin. induction fuel as [|fuel IH]; intros i Hi; [done|].
  apply lookup_lt_is_Some in Hi as [n Hn].
  pose proof (fun c => kids_in_range b i n c Hin Hn) as Hk.
  destruct (local_errors_defined b i n) as (l0 & errors & Hloc).
  { intros c Hc. apply lookup_lt_is_Some. by apply Hk. }
  rewrite (check_bvh_volumes_at fuel b fatal i n l0 errors Hn Hloc).
  assert (Haud : forall c, c ∈ kids n -> (audit fuel b fatal c).2 <> Throw).
  { intros [c|k] Hc; simpl; [by apply IH, Hk|done]. }
  assert (HL : (audit fuel b fatal (left n)).2 <> Throw)
    by (apply Haud; unfold kids; apply list_elem_of_here).
  assert (HR : (audit fuel b fatal (right n)).2 <> Throw)
    by (apply Haud; unfold kids; apply list_elem_of_further, list_elem_of_here).
  rewrite bind_logged. simpl.
  destruct (audit fuel b fatal (left n)) as [ll [sl| |]],
           (audit fuel b fatal (right n)) as [lr [sr| |]];
    destruct ((0 <? errors) && fatal); try done;
    try destruct sl; try destruct sr; destruct fatal, (0 <? errors); by simpl.
Qed.

Lemma check_bvh_no_throw fuel (b : bvh) mem fatal :
  b <> [] -> refs_in_range b -> leafless (past_nodes mem) ->
  (check_bvh fuel b mem fatal).2 <> Throw.
Proof.
  intros Hne Hin Hmem.
  assert (Hroot : 0 < length b) by (destruct b; [done|simpl; lia]).
  pose proof (check_bvh_volumes_no_throw fatal b Hin fuel 0 Hroot) as Hvol.
  destruct fatal.
  - rewrite (check_bvh_stop fuel b mem Hne Hin Hmem).
    destruct (root_violation b); [|done].
    destruct (node_violations b); [|done].
    destruct (leaf_violations b); [|done].
    by rewrite bind_tell.
  - rewrite (check_bvh_collect fuel b mem Hne Hin Hmem), bind_logged.
    by destruct (0 <? _).
Qed.

Lemma empty_no_throw fuel mem fatal :
  leafless (past_nodes mem) -> (check_bvh fuel [] mem fatal).2 <> Throw.
Proof.
  intros [Hl Hr].
  unfold check_bvh, node_sweep, check_root, check_node_counts, leaf_sweep,
    check_leaf_counts, count_leaf_refs, check_count, count_index, node_index.
  simpl. unfold bind, tell, ret. simpl. rewrite Hl, Hr. simpl.
  by destruct (0 <? past_counts mem), fatal.
Qed.

(** X8.  A reference to an internal node that lies outside the node array
    makes [check_bvh] throw from [node_counts.at()] of the first sweep
    (lines 104-113), before anything is printed, under either policy. *)
Theorem dangling_node_throws_at_once fuel (b : bvh) mem fatal i n c :
  b !! i = Some n -> Internal c ∈ kids n -> length b <= c ->
  check_bvh fuel b mem fatal = ([], Throw).
Proof.
  intros Hn Hc Hlen. unfold check_bvh. rewrite node_sweep_eq.
  destruct (forallb _ _) eqn:E; [|by rewrite bind_throw].
  rewrite forallb_forall in E.
  pose proof (children_elem b i n _ Hn Hc) as Hel.
  apply list_elem_of_In, E in Hel. simpl in Hel.
  apply Nat.ltb_lt in Hel. lia.
Qed.

Lemma dangling_node_throws_at_once_witness :
  check_bvh 3 dangling calm true = ([], Throw).
Proof.
  apply (dangling_node_throws_at_once 3 dangling calm true 0
           (mk f1 (Internal 0) (Internal 7)) 7).
  - reflexivity.
  - apply list_elem_of_further, list_elem_of_here.
  - simpl. lia.
Defined.

(** X9.  Without the fatal policy a child reference that is out of range
    makes [check_bvh] throw: the sweeps (lines 104-113 and 138-147) pass
    every reference to [at()] before phase 2 or the return of line 161
    is reached. *)
Theorem out_of_range_reference_throws fuel (b : bvh) mem :
  ~ refs_in_range b -> (check_bvh fuel b mem false).2 = Throw.
Proof.
  intros Hout.
  assert (Hne : b <> []).
  { intros ->. apply Hout. constructor. }
  unfold check_bvh. rewrite node_sweep_eq.
  destruct (forallb (fits node_ref (length b)) (children b)) eqn:En;
    [|by rewrite bind_throw].
  rewrite bind_ret, (check_root_tally _ _ _ Hne), bind_logged.
  assert (Hstop : match root_violation b with [] => false | _ => false end = false)
    by by destruct (root_violation b).
  rewrite Hstop, check_node_counts_all, bind_logged. cbv beta iota.
  rewrite leaf_sweep_eq.
  destruct (forallb (fits leaf_ref (length b + 1)) (children b)) eqn:El.
  - destruct Hout. by apply refs_in_range_fits.
  - by rewrite bind_throw.
Qed.

Lemma out_of_range_reference_throws_witness :
  (check_bvh 3 dangling_leaf calm false).2 = Throw.
Proof.
  apply (out_of_range_reference_throws 3 dangling_leaf calm).
  intros [_ H]%refs_in_range_fits. vm_compute in H. discriminate H.
Defined.

(** X10.  When every child reference is in range, and the slot that the
    leaf sweep reads one past the node array holds no leaf reference, no
    checked access of [check_bvh] throws, under either policy, on any
    hierarchy (the empty one included) and with any fuel. *)
Theorem in_range_never_throws fuel (b : bvh) mem fatal :
  refs_in_range b -> leafless (past_nodes mem) ->
  (check_bvh fuel b mem fatal).2 <> Throw.
Proof.
  intros Hin Hmem. destruct b as [|n b'].
  - by apply empty_no_throw.
  - by apply check_bvh_no_throw.
Qed.

Lemma in_range_never_throws_witness :
  (check_bvh 3 sound calm true).2 <> Throw.
Proof.
  apply (in_range_never_throws 3 sound calm true).
  - unfold refs_in_range. simpl. by repeat constructor.
  - done.
Defined.

(** ** Volumes that are not numbers *)

Lemma flt_nan (a c : float) :
  is_nan a = true \/ is_nan c = true -> flt a c = false.
Proof.
  intros H. apply SFcompare_nan in H. unfold flt, SFltb. by rewrite H.
Qed.

(** X11.  The comparison of lines 43 and 53 is [parent_volume <
    sub_volume] on floats, which is false as soon as one side is not a
    number: on a tree in which every pair of a node and an internal child
    has a volume that is NaN on one side, the audit returns
    [EXIT_SUCCESS] under either policy. *)
Theorem nan_volumes_pass_audit (b : bvh) fatal i t fuel :
  subtree b (Internal i) t ->
  length t <= fuel ->
  (forall j n c sub,
     j ∈ t -> b !! j = Some n -> Internal c ∈ kids n -> b !! c = Some sub ->
     is_nan (volume_of (box n)) = true \/ is_nan (volume_of (box sub)) = true) ->
  exists l, check_bvh_volumes fuel b fatal i = (l, Ret EXIT_SUCCESS).
Proof.
  intros Ht Hfuel Hnan.
  destruct (audit_tree b fatal (Internal i) t Ht fuel Hfuel) as (l & s & Ha & Hs & _).
  exists l. simpl in Ha. rewrite Ha. destruct s; [done|].
  destruct (proj1 Hs eq_refl) as (j & c & Hj & n & sub & Hn & Hc & Hsub & Hlt).
  rewrite (flt_nan _ _ (Hnan j n c sub Hj Hn Hc Hsub)) in Hlt. done.
Qed.

Lemma unbounded_tree : subtree unbounded (Internal 0) [0; 1].
Proof.
  apply (subtree_node unbounded 0 _ [1] [] eq_refl); simpl.
  - apply (subtree_node unbounded 1 _ [] [] eq_refl); apply subtree_leaf.
  - apply subtree_leaf.
Qed.

Lemma nan_volumes_pass_audit_witness :
  exists l, check_bvh_volumes 2 unbounded true 0 = (l, Ret EXIT_SUCCESS).
Proof.
  apply (nan_volumes_pass_audit unbounded true 0 [0; 1] 2 unbounded_tree).
  - simpl. lia.
  - intros j n c sub Hj Hn Hc Hsub.
    apply elem_of_cons in Hj as [->|Hj].
    + injection Hn as <-. by left.
    + apply elem_of_cons in Hj as [->|Hj]; [|by apply elem_of_nil in Hj].
      injection Hn as <-.
      apply kids_internal in Hc as [Hc|Hc]; discriminate Hc.
Defined.

(** ** References that lead back *)

Lemma check_bvh_volumes_returns_inv fuel (b : bvh) i l s :
  check_bvh_volumes (S fuel) b false i = (l, Ret s) ->
  exists n,
    b !! i = Some n /\
    (exists ll sl, audit fuel b false (left n) = (ll, Ret sl)) /\
    (exists lr sr, audit fuel b false (right n) = (lr, Ret sr)).
Proof.
  rewrite check_bvh_volumes_S.
  intros (l1 & n & l2 & Hat & H & _)%bind_value.
  unfold at_ in Hat. destruct (b !! i) as [n'|] eqn:Hn; [|done].
  injection Hat as _ ->. exists n. split; [done|].
  apply bind_value in H as (_ & _ & l3 & _ & H & _).
  apply bind_value in H as (_ & errors & l4 & _ & H & _).
  rewrite andb_false_r in H.
  apply bind_value in H as (ll & sl & l5 & HL & H & _).
  split; [by exists ll, sl|].
  destruct sl; simpl in H;
    apply bind_value in H as (lr & sr & _ & HR & _); by exists lr, sr.
Qed.

Lemma never_returns_child fuel (b : bvh) fatal (P : nat -> Prop) i n
    (R : exit_status -> Prop) :
  (forall j, P j -> exists c, edge b j c /\ P c) ->
  (forall c s, P c -> R s -> (check_bvh_volumes fuel b fatal c).2 <> Ret s) ->
  P i -> b !! i = Some n ->
  (forall ll sl, audit fuel b fatal (left n) = (ll, Ret sl) -> R sl) ->
  (forall lr sr, audit fuel b fatal (right n) = (lr, Ret sr) -> R sr) ->
  (forall ll sl, audit fuel b fatal (left n) <> (ll, Ret sl)) \/
  (forall lr sr, audit fuel b fatal (right n) <> (lr, Ret sr)).
Proof.
  intros Hnext IH Hi Hn HRl HRr.
  destruct (Hnext i Hi) as (c & (n' & Hn' & Hc) & Pc).
  rewrite Hn in Hn'. injection Hn' as <-.
  apply kids_internal in Hc as [Hc|Hc]; [left|right]; intros l' s' Ha;
    pose proof Ha as Ha'; rewrite Hc in Ha; simpl in Ha;
    [apply (IH c s' Pc (HRl _ _ Ha'))|apply (IH c s' Pc (HRr _ _ Ha'))];
    by rewrite Ha.
Qed.

(** X12.  Child references that lead back (a set of nodes each of which
    has a child in the set, such as the nodes of a cycle or a node that
    refers to itself) are not detected by [check_bvh_volumes]: from a node
    of the set the recursion of lines 61-85 does not end.  Without the
    fatal policy the audit returns nothing, whatever the fuel; with it,
    it never returns [EXIT_SUCCESS]. *)
Theorem audit_of_cycle_never_returns (b : bvh) (P : nat -> Prop) i fuel :
  (forall j, P j -> exists c, edge b j c /\ P c) ->
  P i ->
  (forall s, (check_bvh_volumes fuel b false i).2 <> Ret s) /\
  (check_bvh_volumes fuel b true i).2 <> Ret EXIT_SUCCESS.
Proof.
  intros Hnext Hi. split.
  - revert i Hi. induction fuel as [|fuel IH]; intros i Hi s; [done|].
    intros Hs.
    destruct (check_bvh_volumes (S fuel) b false i) as [l r] eqn:E.
    simpl in Hs. subst r.
    destruct (check_bvh_volumes_returns_inv _ _ _ _ _ E)
      as (n & Hn & (ll & sl & HL) & (lr & sr & HR)).
    destruct (never_returns_child fuel b false P i n (fun _ => True) Hnext)
      as [H|H]; try done.
    + intros c s' Pc _. by apply IH.
    + by destruct (H ll sl).
    + by destruct (H lr sr).
  - revert i Hi. induction fuel as [|fuel IH]; intros i Hi; [done|].
    intros Hs.
    destruct (check_bvh_volumes (S fuel) b true i) as [l r] eqn:E.
    simpl in Hs. subst r.
    destruct (check_bvh_volumes_success_inv _ _ _ _ _ E)
      as (n & l0 & ll & lr & Hn & _ & HL & HR & _).
    destruct (never_returns_child fuel b true P i n
                (fun s => s = EXIT_SUCCESS) Hnext) as [H|H]; try done.
    + intros c s' Pc ->. by apply IH.
    + intros ll' sl' Ha. rewrite HL in Ha. by injection Ha as _ <-.
    + intros lr' sr' Ha. rewrite HR in Ha. by injection Ha as _ <-.
    + by destruct (H ll EXIT_SUCCESS).
    + by destruct (H lr EXIT_SUCCESS).
Qed.

Lemma audit_of_cycle_never_returns_witness :
  (forall s, (check_bvh_volumes 5 root_child false 1).2 <> Ret s) /\
  (check_bvh_volumes 5 root_child true 1).2 <> Ret EXIT_SUCCESS.
Proof.
  apply (audit_of_cycle_never_returns root_child (fun j => j = 1) 1 5).
  - intros j ->. exists 1. split; [|reflexivity].
    exists (mk f1 (Internal 1) (Internal 0)). split; [reflexivity|].
    apply list_elem_of_here.
  - reflexivity.
Defined.

(** ** The order of the thread actions *)

(** X13.  One call of the scheduler, for any limit [W] (0 included, which
    the constructor turns into 1): with [m = max W 1], it starts the
    threads 0 .. m-2 on the divisions [{0, m}] .. [{m-2, m}] in this order,
    then runs the task on [{m-1, m}] on the calling thread, and only then
    joins the threads, in the order in which it started them; nothing
    else happens, and [max_threads - 1] never wraps around. *)
Theorem schedule_spawns_calls_joins (W : N) :
  (W < size_type_modulus)%N ->
  let m := N.max W 1 in
  size_sub (max_threads (make_fake_task_scheduler W)) 1 = (m - 1)%N /\
  schedule (make_fake_task_scheduler W) =
    imap Spawn (map (fun i => {| index := i; count := m |}) (size_range (m - 1)))
    ++ [Call {| index := (m - 1)%N; count := m |}]
    ++ map Join (seq 0 (N.to_nat (m - 1))).
Proof.
  intros HW m.
  assert (Hmax : max_threads (make_fake_task_scheduler W) = m).
  { unfold make_fake_task_scheduler, m. cbn [max_threads].
    destruct (N.eqb_spec W 0); lia. }
  assert (Hone : (1 < size_type_modulus)%N) by reflexivity.
  assert (Hsub : size_sub m 1 = (m - 1)%N) by (apply size_sub_1; unfold m; lia).
  rewrite schedule_shape, Hmax, Hsub. split; [done|].
  unfold size_range. by rewrite !length_map, length_seq.
Qed.

Lemma schedule_spawns_calls_joins_witness :
  size_sub (max_threads (make_fake_task_scheduler 3)) 1 = 2%N /\
  schedule (make_fake_task_scheduler 3) =
    [Spawn 0 {| index := 0; count := 3 |}; Spawn 1 {| index := 1; count := 3 |};
     Call {| index := 2; count := 3 |}; Join 0; Join 1].
Proof.
  apply (schedule_spawns_calls_joins 3). reflexivity.
Defined.

(** ** The arguments of [main] *)

Lemma flag_starts_with_dash (arg : string) :
  String.eqb arg "--errors_fatal" = true -> starts_with_dash arg = true.
Proof. by intros ->%String.eqb_eq. Qed.

Lemma last_after {A} (d a : A) (l : list A) :
  default d (last (a :: l)) = default a (last l).
Proof.
  revert d a. induction l as [|c l IH]; intros d a; [done|].
  change (last (a :: c :: l)) with (last (c :: l)). by rewrite !IH.
Qed.

Lemma parse_arguments_accepts (args : list string) errors_fatal filename :
  Forall (fun arg => unknown arg = false) args ->
  parse_arguments args errors_fatal filename =
  Run_test (default filename (last (List.filter names_file args)))
    (if existsb (fun arg => String.eqb arg "--errors_fatal") args
     then 1%Z else errors_fatal).
Proof.
  intros H. revert errors_fatal filename.
  induction H as [|arg rest Harg _ IH]; intros errors_fatal filename; [done|].
  cbn [parse_arguments List.filter existsb]. unfold unknown, names_file in *.
  destruct (String.eqb arg "--errors_fatal") eqn:E.
  - rewrite (flag_starts_with_dash arg E). cbn [negb orb]. rewrite IH.
    by destruct (existsb _ rest).
  - destruct (starts_with_dash arg); [done|].
    cbn [negb orb]. by rewrite IH, last_after.
Qed.

Lemma parse_arguments_rejects (pre post : list string) arg errors_fatal filename :
  Forall (fun arg => unknown arg = false) pre ->
  unknown arg = true ->
  parse_arguments (pre ++ arg :: post) errors_fatal filename =
  Unknown_option ("Unknown option '" +:+ arg +:+ "'" +:+ newline).
Proof.
  intros H Harg. revert errors_fatal filename.
  induction H as [|a rest Ha _ IH]; intros errors_fatal filename;
    cbn [app parse_arguments]; unfold unknown in *.
  - destruct (String.eqb arg "--errors_fatal"); [by rewrite andb_false_r in Harg|].
    by destruct (starts_with_dash arg).
  - destruct (String.eqb a "--errors_fatal"); [apply IH|].
    destruct (starts_with_dash a); [done|apply IH].
Qed.

(** X14.  When no argument after [argv[0]] is an unknown option (one that
    starts with '-' and is not "--errors_fatal"), [main] calls
    [run_test<float>] and returns its result: the file name is the last
    argument that does not start with '-' (an empty argument included),
    "models/sponza.obj" when there is none, and [errors_fatal] is 1 when
    "--errors_fatal" occurs anywhere among the arguments, 0 otherwise.
    [argv[0]] plays no part. *)
Theorem main_accepts (argv : list string) :
  Forall (fun arg => unknown arg = false) (drop 1 argv) ->
  main argv =
  Run_test
    (default "models/sponza.obj" (last (List.filter names_file (drop 1 argv))))
    (if existsb (fun arg => String.eqb arg "--errors_fatal") (drop 1 argv)
     then 1%Z else 0%Z).
Proof. intros H. unfold main. by apply parse_arguments_accepts. Qed.

Lemma main_accepts_witness :
  main ["lbvh_test"; "a.obj"; "--errors_fatal"; "b.obj"] = Run_test "b.obj" 1.
Proof.
  apply (main_accepts ["lbvh_test"; "a.obj"; "--errors_fatal"; "b.obj"]).
  simpl. by repeat constructor.
Defined.

(** X15.  The first unknown option ends [main]: it prints the line that
    names this argument and returns [EXIT_FAILURE] without calling
    [run_test], whatever the arguments after it are, also when they are
    known ones. *)
Theorem main_rejects_first_unknown_option (argv0 : string)
    (pre post : list string) (arg : string) :
  Forall (fun arg => unknown arg = false) pre ->
  unknown arg = true ->
  main (argv0 :: pre ++ arg :: post) =
  Unknown_option ("Unknown option '" +:+ arg +:+ "'" +:+ newline).
Proof. intros H Harg. unfold main. by apply parse_arguments_rejects. Qed.

Lemma main_rejects_first_unknown_option_witness :
  main ["lbvh_test"; "a.obj"; "-v"; "--errors_fatal"] =
  Unknown_option ("Unknown option '" +:+ "-v" +:+ "'" +:+ newline).
Proof.
  apply (main_rejects_first_unknown_option "lbvh_test" ["a.obj"] ["--errors_fatal"] "-v").
  - by repeat constructor.
  - reflexivity.
Defined.

(** ** The frame *)

Lemma for_each_app {S} (body : N -> S -> fault + S) (l1 l2 : list N) (s : S) :
  for_each body (l1 ++ l2) s =
  match for_each body l1 s with
  | inl f => inl f
  | inr s' => for_each body l2 s'
  end.
Proof.
  revert s. induction l1 as [|i l1 IH]; intros s; simpl; [done|].
  by destruct (body i s).
Qed.

(** One element on which the body is undefined makes the loop undefined. *)
Lemma for_each_fault {S} (body : N -> S -> fault + S) (l : list N) (i : N) :
  i ∈ l -> (forall s, exists f, body i s = inl f) ->
  forall s, exists f, for_each body l s = inl f.
Proof.
  intros Hi Hbody. induction l as [|j l IH]; intros s.
  - by apply elem_of_nil in Hi.
  - simpl. apply elem_of_cons in Hi as [<-|Hi].
    + destruct (Hbody s) as [f ->]. by exists f.
    + destruct (body j s) as [f|s']; [by exists f|by apply IH].
Qed.

Lemma size_range_elem (n i : N) : i ∈ size_range n <-> (i < n)%N.
Proof.
  unfold size_range. rewrite list_elem_of_fmap. split.
  - intros (k & -> & Hk%elem_of_seq). lia.
  - intros Hi. exists (N.to_nat i). split; [by rewrite N2Nat.id|].
    apply elem_of_seq. lia.
Qed.

Lemma size_range_length (n : N) : length (size_range n) = N.to_nat n.
Proof. unfold size_range. by rewrite length_map, length_seq. Qed.

Lemma size_range_lookup (n : N) (i : nat) :
  i < N.to_nat n -> size_range n !! i = Some (N.of_nat i).
Proof.
  intros Hi. unfold size_range. rewrite list_lookup_fmap.
  by rewrite lookup_seq_lt.
Qed.

Lemma flat_map_flat_map {A B C} (f : B -> list C) (g : A -> list B) (l : list A) :
  flat_map f (flat_map g l) = flat_map (fun a => flat_map f (g a)) l.
Proof.
  induction l as [|a l IH]; simpl; [done|]. by rewrite flat_map_app, IH.
Qed.

Lemma flat_map_map {A B C} (f : B -> list C) (g : A -> B) (l : list A) :
  flat_map f (map g l) = flat_map (fun a => f (g a)) l.
Proof. induction l as [|a l IH]; simpl; [done|]. by rewrite IH. Qed.

Lemma flat_map_singleton {A B} (f : A -> B) (l : list A) :
  flat_map (fun a => [f a]) l = map f l.
Proof. induction l as [|a l IH]; simpl; [done|]. by rewrite IH. Qed.

Lemma flat_map_length_uniform {A B} (f : A -> list B) (n : nat) (l : list A) :
  Forall (fun a => length (f a) = n) l ->
  length (flat_map f l) = length l * n.
Proof.
  induction 1 as [|a l Ha _ IH]; simpl; [done|].
  rewrite length_app, Ha, IH. lia.
Qed.

(** In a list of blocks of one size, the element [k] of the block [i]. *)
Lemma flat_map_lookup_uniform {A B} (f : A -> list B) (n : nat) (l : list A)
    (i k : nat) (a : A) :
  Forall (fun a => length (f a) = n) l ->
  l !! i = Some a -> k < n ->
  flat_map f l !! (i * n + k) = f a !! k.
Proof.
  intros H. revert i. induction H as [|c l Hc _ IH]; intros i Hi Hk; [done|].
  simpl. destruct i as [|i]; simpl in *.
  - injection Hi as ->. apply lookup_app_l. lia.
  - rewrite lookup_app_r by lia. rewrite <- (IH i Hi Hk). f_equal. lia.
Qed.

Section Frame.
Variable ray : Type.
Variable make_ray : vec3 -> vec3 -> ray.
Variable kern : ray -> color.
Variable x_res y_res : N.

#[local] Abbreviation ray_of := (camera_ray ray make_ray x_res y_res).
#[local] Abbreviation bytes_of x y :=
  (default [] (pixel_bytes ray make_ray kern x_res y_res x y)).

Lemma pixel_bytes_three x y bs :
  pixel_bytes ray make_ray kern x_res y_res x y = Some bs ->
  exists r g b,
    bs = [r; g; b] /\
    to_uchar (fmul (color_r (kern (ray_of x y))) (float_of_Z 255)) = inr r /\
    to_uchar (fmul (color_g (kern (ray_of x y))) (float_of_Z 255)) = inr g /\
    to_uchar (fmul (color_b (kern (ray_of x y))) (float_of_Z 255)) = inr b.
Proof.
  unfold pixel_bytes.
  destruct (to_uchar (fmul (color_r _) _)) as [|r]; [done|].
  destruct (to_uchar (fmul (color_g _) _)) as [|g]; [done|].
  destruct (to_uchar (fmul (color_b _) _)) as [|b]; [done|].
  intros [= <-]. by exists r, g, b.
Qed.

Lemma bytes_of_length x y :
  is_Some (pixel_bytes ray make_ray kern x_res y_res x y) ->
  length (bytes_of x y) = 3.
Proof.
  intros [bs Hbs]. rewrite Hbs.
  by destruct (pixel_bytes_three x y bs Hbs) as (r & g & b & -> & _).
Qed.

Lemma store_next (written rest : list Z) z k v c :
  to_uchar v = inr c ->
  length written = k ->
  forall pixels j, pixels + j = k ->
  store (written ++ z :: rest) pixels j v = inr ((written ++ [c]) ++ rest).
Proof.
  intros Hc Hk pixels j Hj. unfold store. rewrite Hc, Hj.
  assert (Hlt : (k <? length (written ++ z :: rest)) = true).
  { apply Nat.ltb_lt. rewrite length_app. simpl. lia. }
  rewrite Hlt. f_equal. subst k.
  rewrite <- (Nat.add_0_r (length written)), insert_app_r. simpl.
  by rewrite <- app_assoc.
Qed.

(** One pixel whose colour has its bytes: they replace the next three
    elements of the buffer. *)
Lemma plot_next y x (st : frame ray) (written rest : list Z) z0 z1 z2 :
  is_Some (pixel_bytes ray make_ray kern x_res y_res x y) ->
  image_buf st = written ++ z0 :: z1 :: z2 :: rest ->
  pixels st = length written ->
  plot ray make_ray kern x_res y_res y x st =
  inr {| image_buf := (written ++ bytes_of x y) ++ rest;
         pixels := length (written ++ bytes_of x y);
         traced := traced st ++ [ray_of x y] |}.
Proof.
  intros [bs Hbs] Hbuf Hpix. rewrite Hbs. simpl.
  destruct (pixel_bytes_three x y bs Hbs) as (r & g & b & -> & Hr & Hg & Hb).
  unfold plot. rewrite Hbuf.
  rewrite (store_next written _ z0 (length written) _ r Hr eq_refl) by lia.
  rewrite (store_next (written ++ [r]) _ z1 (length written + 1) _ g Hg)
    by (rewrite ?length_app; simpl; lia).
  rewrite (store_next ((written ++ [r]) ++ [g]) _ z2 (length written + 2) _ b Hb)
    by (rewrite ?length_app; simpl; lia).
  rewrite Hpix, length_app, <- !app_assoc. simpl. done.
Qed.

Lemma three_more (rest : list Z) n :
  3 * S n <= length rest ->
  exists z0 z1 z2 rest',
    rest = z0 :: z1 :: z2 :: rest' /\ 3 * n <= length rest' /\
    drop (3 * S n) rest = drop (3 * n) rest'.
Proof.
  intros H. destruct rest as [|z0 [|z1 [|z2 rest']]]; simpl in H; try lia.
  exists z0, z1, z2, rest'. split; [done|]. split; [lia|].
  by replace (3 * S n) with (S (S (S (3 * n)))) by lia.
Qed.

(** One row. *)
Lemma row_plotted y (xs : list N) :
  Forall (fun x => is_Some (pixel_bytes ray make_ray kern x_res y_res x y)) xs ->
  forall (st : frame ray) (written rest : list Z),
    image_buf st = written ++ rest ->
    pixels st = length written ->
    3 * length xs <= length rest ->
    for_each (plot ray make_ray kern x_res y_res y) xs st =
    inr {| image_buf := (written ++ flat_map (fun x => bytes_of x y) xs)
                        ++ drop (3 * length xs) rest;
           pixels := length (written ++ flat_map (fun x => bytes_of x y) xs);
           traced := traced st ++ map (fun x => ray_of x y) xs |}.
Proof.
  induction 1 as [|x xs Hx _ IH]; intros st written rest Hbuf Hpix Hlen.
  - simpl. rewrite !app_nil_r. destruct st; simpl in *. by subst.
  - cbn [for_each length flat_map map].
    destruct (three_more rest (length xs) Hlen)
      as (z0 & z1 & z2 & rest' & -> & Hlen' & ->).
    rewrite (plot_next y x st written rest' z0 z1 z2 Hx Hbuf Hpix).
    rewrite (IH _ (written ++ bytes_of x y) rest') by done.
    cbn [traced]. by rewrite <- !app_assoc.
Qed.

Lemma rows_more (rest : list Z) (w n : nat) :
  3 * w * S n <= length rest ->
  3 * w <= length rest /\
  3 * w * n <= length (drop (3 * w) rest) /\
  drop (3 * w * S n) rest = drop (3 * w * n) (drop (3 * w) rest).
Proof.
  intros H. split; [lia|]. split; [rewrite length_drop; lia|].
  rewrite drop_drop. f_equal. lia.
Qed.

(** All the rows. *)
Lemma rows_plotted (xs ys : list N) :
  Forall (fun y =>
    Forall (fun x => is_Some (pixel_bytes ray make_ray kern x_res y_res x y)) xs)
    ys ->
  forall (st : frame ray) (written rest : list Z),
    image_buf st = written ++ rest ->
    pixels st = length written ->
    3 * length xs * length ys <= length rest ->
    for_each (fun y st => for_each (plot ray make_ray kern x_res y_res y) xs st)
      ys st =
    inr {| image_buf :=
             (written
              ++ flat_map (fun y => flat_map (fun x => bytes_of x y) xs) ys)
             ++ drop (3 * length xs * length ys) rest;
           pixels :=
             length (written
                     ++ flat_map (fun y => flat_map (fun x => bytes_of x y) xs) ys);
           traced :=
             traced st ++ flat_map (fun y => map (fun x => ray_of x y) xs) ys |}.
Proof.
  induction 1 as [|y ys Hy _ IH]; intros st written rest Hbuf Hpix Hlen.
  - simpl. rewrite !app_nil_r, Nat.mul_0_r. destruct st; simpl in *. by subst.
  - cbn [for_each length flat_map].
    destruct (rows_more rest (length xs) (length ys) Hlen) as (Hrow & Hlen' & ->).
    rewrite (row_plotted y xs Hy st written rest Hbuf Hpix Hrow).
    rewrite (IH _ (written ++ flat_map (fun x => bytes_of x y) xs)
               (drop (3 * length xs) rest)) by done.
    cbn [traced]. by rewrite <- !app_assoc.
Qed.

Lemma scan_rays :
  map (fun p => ray_of p.1 p.2) (scan x_res y_res) =
  flat_map (fun y => map (fun x => ray_of x y) (size_range x_res))
    (size_range y_res).
Proof.
  unfold scan. rewrite <- flat_map_singleton, flat_map_flat_map.
  apply flat_map_ext. intros y. rewrite flat_map_map. simpl.
  by rewrite flat_map_singleton.
Qed.

Lemma scan_bytes :
  flat_map (fun p => bytes_of p.1 p.2) (scan x_res y_res) =
  flat_map (fun y => flat_map (fun x => bytes_of x y) (size_range x_res))
    (size_range y_res).
Proof.
  unfold scan. rewrite flat_map_flat_map.
  apply flat_map_ext. intros y. by rewrite flat_map_map.
Qed.

Lemma frame_size :
  (3 * x_res * y_res < size_type_modulus)%N ->
  N.to_nat (size_mul (size_mul x_res y_res) 3) =
  3 * length (size_range x_res) * length (size_range y_res).
Proof.
  intros H. unfold size_mul. rewrite !size_range_length.
  rewrite N.Div0.mul_mod_idemp_l, N.mod_small by lia. lia.
Qed.

Lemma frame_plotted :
  (3 * x_res * y_res < size_type_modulus)%N ->
  (forall x y, (x < x_res)%N -> (y < y_res)%N ->
     is_Some (pixel_bytes ray make_ray kern x_res y_res x y)) ->
  make_frame ray make_ray kern x_res y_res =
  inr (map (fun p => ray_of p.1 p.2) (scan x_res y_res),
       flat_map (fun p => bytes_of p.1 p.2) (scan x_res y_res)).
Proof using Type.
  intros Hsize Hbytes. unfold make_frame.
  rewrite (rows_plotted (size_range x_res) (size_range y_res)) with
    (written := []) (rest := replicate (N.to_nat (size_mul (size_mul x_res y_res) 3)) 0%Z).
  - cbn [traced image_buf app]. rewrite <- frame_size by done.
    rewrite drop_ge by (by rewrite length_replicate).
    rewrite app_nil_r. by rewrite <- scan_rays, <- scan_bytes.
  - apply Forall_forall. intros y Hy%size_range_elem.
    apply Forall_forall. intros x Hx%size_range_elem. by apply Hbytes.
  - done.
  - done.
  - rewrite length_replicate. by rewrite frame_size.
Qed.

(** *** What a frame that is returned needed *)

Lemma store_inr (buf buf' : list Z) p k v :
  store buf p k v = inr buf' -> length buf' = length buf /\ p + k < length buf.
Proof.
  unfold store. destruct (to_uchar v) as [|c]; [done|].
  destruct (p + k <? length buf) eqn:E; [|done].
  intros [= <-]. split; [by rewrite length_insert|by apply Nat.ltb_lt].
Qed.

Lemma plot_inr y x (st st' : frame ray) :
  plot ray make_ray kern x_res y_res y x st = inr st' ->
  length (image_buf st') = length (image_buf st) /\
  pixels st' = pixels st + 3 /\
  length (traced st') = length (traced st) + 1 /\
  pixels st' <= length (image_buf st').
Proof.
  unfold plot.
  destruct (store (image_buf st) _ 0 _) as [|b0] eqn:E0; [done|].
  destruct (store b0 _ 1 _) as [|b1] eqn:E1; [done|].
  destruct (store b1 _ 2 _) as [|b2] eqn:E2; [done|].
  apply store_inr in E0 as [L0 _], E1 as [L1 _], E2 as [L2 B2].
  intros [= <-]. simpl. rewrite length_app. simpl. lia.
Qed.

Lemma row_inr y (xs : list N) :
  forall st st' : frame ray,
    for_each (plot ray make_ray kern x_res y_res y) xs st = inr st' ->
    pixels st <= length (image_buf st) ->
    length (image_buf st') = length (image_buf st) /\
    pixels st' = pixels st + 3 * length xs /\
    length (traced st') = length (traced st) + length xs /\
    pixels st' <= length (image_buf st').
Proof.
  induction xs as [|x xs IH]; intros st st' H Hinv; simpl in H.
  - injection H as <-. simpl. lia.
  - destruct (plot _ _ _ _ _ y x st) as [|st1] eqn:E; [done|].
    apply plot_inr in E as (L1 & P1 & T1 & I1).
    destruct (IH st1 st' H I1) as (L2 & P2 & T2 & I2). simpl. lia.
Qed.

Lemma rows_inr (xs ys : list N) :
  forall st st' : frame ray,
    for_each (fun y st => for_each (plot ray make_ray kern x_res y_res y) xs st)
      ys st = inr st' ->
    pixels st <= length (image_buf st) ->
    length (image_buf st') = length (image_buf st) /\
    pixels st' = pixels st + 3 * length xs * length ys /\
    length (traced st') = length (traced st) + length xs * length ys /\
    pixels st' <= length (image_buf st').
Proof.
  induction ys as [|y ys IH]; intros st st' H Hinv; simpl in H.
  - injection H as <-. simpl. lia.
  - destruct (for_each _ xs st) as [|st1] eqn:E; [done|].
    apply row_inr in E as (L1 & P1 & T1 & I1); [|done].
    destruct (IH st1 st' H I1) as (L2 & P2 & T2 & I2). simpl. lia.
Qed.

Lemma make_frame_inr_size res :
  make_frame ray make_ray kern x_res y_res = inr res ->
  (3 * x_res * y_res < size_type_modulus)%N.
Proof.
  unfold make_frame.
  destruct (for_each _ _ _) as [|st'] eqn:E; [done|]. intros _.
  apply rows_inr in E as (L & P & _ & I); [|simpl; lia].
  simpl in L, P. rewrite L, P, length_replicate, !size_range_length in I.
  unfold size_mul in I. rewrite N.Div0.mul_mod_idemp_l in I.
  assert (Hmod : (x_res * y_res * 3 mod size_type_modulus < size_type_modulus)%N)
    by (by apply N.mod_lt).
  lia.
Qed.

Lemma plot_unrepresentable y x (st : frame ray) :
  pixel_bytes ray make_ray kern x_res y_res x y = None ->
  exists f, plot ray make_ray kern x_res y_res y x st = inl f.
Proof.
  unfold pixel_bytes, plot, store.
  destruct (to_uchar (fmul (color_r _) _)) as [f|r]; [by exists f|].
  destruct (_ <? _); [|by eexists].
  destruct (to_uchar (fmul (color_g _) _)) as [f|g]; [by exists f|].
  destruct (_ <? _); [|by eexists].
  destruct (to_uchar (fmul (color_b _) _)) as [f|b]; [by exists f|].
  done.
Qed.

Lemma make_frame_inr_bytes res x y :
  make_frame ray make_ray kern x_res y_res = inr res ->
  (x < x_res)%N -> (y < y_res)%N ->
  is_Some (pixel_bytes ray make_ray kern x_res y_res x y).
Proof.
  intros H Hx Hy.
  destruct (pixel_bytes ray make_ray kern x_res y_res x y) as [bs|] eqn:E;
    [by exists bs|].
  exfalso. unfold make_frame in H.
  edestruct (for_each_fault
    (fun y st => for_each (plot ray make_ray kern x_res y_res y) (size_range x_res) st)
    (size_range y_res) y) as [f Hf].
  - by apply size_range_elem.
  - intros s. apply (for_each_fault _ _ x); [by apply size_range_elem|].
    intros s'. by apply plot_unrepresentable.
  - by rewrite Hf in H.
Qed.

Lemma scan_elem (p : N * N) :
  p ∈ scan x_res y_res -> (p.1 < x_res)%N /\ (p.2 < y_res)%N.
Proof.
  unfold scan. rewrite list_elem_of_In, in_flat_map.
  intros (y & Hy & Hp). apply in_map_iff in Hp as (x & <- & Hx).
  apply list_elem_of_In, size_range_elem in Hy, Hx. done.
Qed.

Lemma scan_length : length (scan x_res y_res) = N.to_nat (x_res * y_res).
Proof.
  unfold scan.
  rewrite (flat_map_length_uniform _ (N.to_nat x_res)).
  - rewrite size_range_length. lia.
  - apply Forall_forall. intros y _. by rewrite length_map, size_range_length.
Qed.

Lemma scan_lookup (x y : N) :
  (x < x_res)%N -> (y < y_res)%N ->
  scan x_res y_res !! N.to_nat (y * x_res + x) = Some (x, y).
Proof.
  intros Hx Hy. unfold scan.
  replace (N.to_nat (y * x_res + x))
    with (N.to_nat y * N.to_nat x_res + N.to_nat x) by lia.
  rewrite (flat_map_lookup_uniform _ (N.to_nat x_res) _ _ _ y).
  - rewrite list_lookup_fmap, size_range_lookup by lia. simpl.
    by rewrite N2Nat.id.
  - apply Forall_forall. intros y' _. by rewrite length_map, size_range_length.
  - rewrite size_range_lookup by lia. by rewrite N2Nat.id.
  - lia.
Qed.

(** X16.  When the size of the buffer does not wrap around and every
    pixel's colour, times 255, truncates to an [unsigned char],
    [make_frame] is defined and plots every pixel once, row by row: the
    kernel is called on the camera rays of the pixels in the order of the
    scan, and the buffer that is returned is the sequence of their bytes,
    three for a pixel, with nothing left of the zeros it was made of and
    no store outside it. *)
Theorem make_frame_plots_every_pixel :
  (3 * x_res * y_res < size_type_modulus)%N ->
  (forall x y, (x < x_res)%N -> (y < y_res)%N ->
     is_Some (pixel_bytes ray make_ray kern x_res y_res x y)) ->
  make_frame ray make_ray kern x_res y_res =
  inr (map (fun p => camera_ray ray make_ray x_res y_res p.1 p.2)
         (scan x_res y_res),
       flat_map (fun p =>
           default [] (pixel_bytes ray make_ray kern x_res y_res p.1 p.2))
         (scan x_res y_res)).
Proof using Type. exact frame_plotted. Qed.

(** X17.  [make_frame] is defined only then: when it returns a frame, the
    product [x_res * y_res * 3] did not wrap around (otherwise the buffer
    is too short and a store lands outside it), and the colour of every
    pixel, times 255, truncates to a value in 0 .. 255 (otherwise the
    conversion to [unsigned char] is undefined). *)
Theorem make_frame_defined_only_if res :
  make_frame ray make_ray kern x_res y_res = inr res ->
  (3 * x_res * y_res < size_type_modulus)%N /\
  forall x y, (x < x_res)%N -> (y < y_res)%N ->
    exists r g b,
      pixel_bytes ray make_ray kern x_res y_res x y = Some [r; g; b].
Proof using Type.
  intros H. split; [by apply (make_frame_inr_size res)|].
  intros x y Hx Hy.
  destruct (make_frame_inr_bytes res x y H Hx Hy) as [bs Hbs].
  destruct (pixel_bytes_three x y bs Hbs) as (r & g & b & -> & _).
  by exists r, g, b.
Qed.

(** X18.  The layout of a frame that is returned: the kernel was called
    once for each of the [x_res * y_res] pixels, the buffer has three
    bytes for each, and the pixel [(x, y)] is the call number
    [y * x_res + x] and has its red, green and blue bytes at
    [3 * (y * x_res + x)] and the two places after it. *)
Theorem make_frame_layout rays buf :
  make_frame ray make_ray kern x_res y_res = inr (rays, buf) ->
  length rays = N.to_nat (x_res * y_res) /\
  length buf = 3 * N.to_nat (x_res * y_res) /\
  forall x y, (x < x_res)%N -> (y < y_res)%N ->
    let i := N.to_nat (y * x_res + x) in
    rays !! i = Some (camera_ray ray make_ray x_res y_res x y) /\
    exists r g b,
      pixel_bytes ray make_ray kern x_res y_res x y = Some [r; g; b] /\
      buf !! (3 * i) = Some r /\
      buf !! (3 * i + 1) = Some g /\
      buf !! (3 * i + 2) = Some b.
Proof using Type.
  intros H.
  pose proof (make_frame_inr_size _ H) as Hsize.
  pose proof (fun x y => make_frame_inr_bytes _ x y H) as Hbytes.
  rewrite (frame_plotted Hsize Hbytes) in H. injection H as <- <-.
  assert (Hthree : Forall (fun p => length (bytes_of p.1 p.2) = 3)
                     (scan x_res y_res)).
  { apply Forall_forall. intros p [Hx Hy]%scan_elem.
    by apply bytes_of_length, Hbytes. }
  split; [by rewrite length_map, scan_length|].
  split.
  { rewrite (flat_map_length_uniform _ 3 _ Hthree), scan_length. lia. }
  intros x y Hx Hy i.
  pose proof (scan_lookup x y Hx Hy) as Hscan. fold i in Hscan.
  split; [by rewrite list_lookup_fmap, Hscan|].
  destruct (Hbytes x y Hx Hy) as [bs Hbs].
  destruct (pixel_bytes_three x y bs Hbs) as (r & g & b & -> & _).
  exists r, g, b. split; [done|].
  assert (Hat : forall k, k < 3 ->
            flat_map (fun p => bytes_of p.1 p.2) (scan x_res y_res) !! (3 * i + k)
            = [r; g; b] !! k).
  { intros k Hk. replace (3 * i + k) with (i * 3 + k) by lia.
    rewrite (flat_map_lookup_uniform _ 3 _ _ _ (x, y) Hthree Hscan Hk).
    simpl. by rewrite Hbs. }
  rewrite <- (Nat.add_0_r (3 * i)) at 1.
  rewrite !Hat by lia. done.
Qed.

End Frame.

Lemma make_frame_plots_every_pixel_witness :
  make_frame float heading shade 2 1 =
  inr (map (fun p => camera_ray float heading 2 1 p.1 p.2) (scan 2 1),
       flat_map (fun p => default [] (pixel_bytes float heading shade 2 1 p.1 p.2))
         (scan 2 1)).
Proof.
  apply (make_frame_plots_every_pixel float heading shade 2 1).
  - reflexivity.
  - intros x y Hx Hy.
    assert (y = 0%N) as -> by lia.
    assert (x = 0%N \/ x = 1%N) as [-> | ->] by lia; vm_compute; by eexists.
Defined.

Lemma make_frame_defined_only_if_witness :
  (3 * 2 * 1 < size_type_modulus)%N /\
  forall x y, (x < 2)%N -> (y < 1)%N ->
    exists r g b, pixel_bytes float heading shade 2 1 x y = Some [r; g; b].
Proof.
  apply (make_frame_defined_only_if float heading shade 2 1
           ([S754_finite true 12582912 (-24); S754_finite false 12582912 (-24)],
            [0; 0; 127; 255; 127; 127]%Z)).
  by_running.
Defined.

Lemma make_frame_layout_witness :
  exists r g b,
    pixel_bytes float heading shade 2 1 1 0 = Some [r; g; b] /\
    [0; 0; 127; 255; 127; 127]%Z !! 3 = Some r /\
    [0; 0; 127; 255; 127; 127]%Z !! 4 = Some g /\
    [0; 0; 127; 255; 127; 127]%Z !! 5 = Some b.
Proof.
  exact (proj2 (proj2 (proj2
    (make_frame_layout float heading shade 2 1
       [S754_finite true 12582912 (-24); S754_finite false 12582912 (-24)]
       [0; 0; 127; 255; 127; 127]%Z ltac:(by_running))) 1%N 0%N eq_refl eq_refl)).
Defined.

(** ** The volume lines are true, and without the fatal policy complete *)

Lemma bind_log_elem {A B} (m : run A) (k : A -> run B) (e : event) :
  e ∈ (bind m k).1 -> e ∈ m.1 \/ exists a, m.2 = Ret a /\ e ∈ (k a).1.
Proof.
  unfold bind. destruct (m.2) as [a| |] eqn:E; simpl; [|by left..].
  intros [He|He]%elem_of_app; [by left|right]. by exists a.
Qed.

Lemma check_sub_volume_log (b : bvh) i pv sub report e ev :
  ev ∈ (check_sub_volume b i pv sub report e).1 ->
  exists c sn,
    sub = Internal c /\ b !! c = Some sn /\
    flt pv (volume_of (box sn)) = true /\
    ev = report i c pv (volume_of (box sn)).
Proof.
  rewrite check_sub_volume_eq.
  destruct sub as [c|k]; [|by intros ?%elem_of_nil].
  destruct (b !! c) as [sn|] eqn:Hc; [|by intros ?%elem_of_nil].
  destruct (flt pv (volume_of (box sn))) eqn:Hlt; [|by intros ?%elem_of_nil].
  intros ->%list_elem_of_singleton. by exists c, sn.
Qed.

Lemma local_errors_log (b : bvh) i n ev :
  b !! i = Some n -> ev ∈ (local_errors b i n).1 -> truthful b i ev.
Proof.
  intros Hn. rewrite local_errors_eq.
  intros [He|(e & _ & He)]%bind_log_elem;
    apply check_sub_volume_log in He as (c & sn & Hsub & Hc & Hlt & ->);
    (split; [apply rtc_refl|]); by exists n, sn.
Qed.

Lemma truthful_step (b : bvh) i c ev :
  edge b i c -> truthful b c ev -> truthful b i ev.
Proof.
  intros Hedge. destruct ev; simpl; try done.
  - by apply rtc_l.
  - intros [Hr H]. split; [by eapply rtc_l|done].
  - intros [Hr H]. split; [by eapply rtc_l|done].
Qed.

Lemma check_bvh_volumes_truthful (b : bvh) fatal fuel :
  forall i ev, ev ∈ (check_bvh_volumes fuel b fatal i).1 -> truthful b i ev.
Proof.
  induction fuel as [|fuel IH]; intros i ev; [by intros ?%elem_of_nil|].
  rewrite check_bvh_volumes_S.
  intros [He|(n & Hn & He)]%bind_log_elem.
  { unfold at_ in He. destruct (b !! i); by apply elem_of_nil in He. }
  unfold at_ in Hn. destruct (b !! i) as [n'|] eqn:Hi; [|done].
  injection Hn as ->.
  assert (Haudit : forall c, c ∈ kids n -> ev ∈ (audit fuel b fatal c).1 ->
            truthful b i ev).
  { intros [c|k] Hc Hev; simpl in Hev; [|by apply elem_of_nil in Hev].
    apply (truthful_step b i c); [by exists n|by apply IH]. }
  apply bind_log_elem in He as [He|(_ & _ & He)].
  { apply list_elem_of_singleton in He as ->. apply rtc_refl. }
  apply bind_log_elem in He as [He|(errors & _ & He)].
  { by apply local_errors_log with n. }
  destruct ((0 <? errors) && fatal); [by apply elem_of_nil in He|].
  cbv zeta in He.
  apply bind_log_elem in He as [He|(sl & _ & He)].
  { apply (Haudit (left n)); [apply list_elem_of_here|done]. }
  destruct (fold_left_result _ _ sl); [|by apply elem_of_nil in He].
  apply bind_log_elem in He as [He|(sr & _ & He)].
  { apply (Haudit (right n));
      [apply list_elem_of_further, list_elem_of_here|done]. }
  by apply elem_of_nil in He.
Qed.

(** X20.  Whatever [check_bvh_volumes] prints is true, on any hierarchy,
    under either policy and also in a run that throws or does not end: it
    is called only on nodes that are reachable from the node it started
    at, and a volume line names a reachable node, the internal child that
    this node has on the side the line says, and their two volumes, of
    which the parent's is less than the child's.  Nothing else is
    printed. *)
Theorem volume_lines_are_true fuel (b : bvh) fatal i :
  Forall (truthful b i) (check_bvh_volumes fuel b fatal i).1.
Proof. apply Forall_forall. intros ev. apply check_bvh_volumes_truthful. Qed.

Lemma check_bvh_volumes_nonfatal_inv fuel (b : bvh) i l s :
  check_bvh_volumes (S fuel) b false i = (l, Ret s) ->
  exists n l0 errors ll sl lr sr,
    b !! i = Some n /\
    local_errors b i n = (l0, Ret errors) /\
    audit fuel b false (left n) = (ll, Ret sl) /\
    audit fuel b false (right n) = (lr, Ret sr) /\
    l = Visit i :: l0 ++ ll ++ lr.
Proof.
  rewrite check_bvh_volumes_S.
  intros (l1 & n & l2 & Hat & H & ->)%bind_value.
  unfold at_ in Hat. destruct (b !! i) as [n'|] eqn:Hn; [|done].
  injection Hat as <- ->.
  apply bind_value in H as (lv & [] & l3 & [= <-] & H & ->).
  apply bind_value in H as (l0 & errors & l4 & Hloc & H & ->).
  rewrite andb_false_r in H.
  apply bind_value in H as (ll & sl & l5 & HL & H & ->).
  assert (exists lr sr, audit fuel b false (right n) = (lr, Ret sr) /\ l5 = lr)
    as (lr & sr & HR & ->).
  { destruct sl; simpl in H;
      apply bind_value in H as (lr & sr & l6 & HR & [= <- _] & ->);
      exists lr, sr; by rewrite app_nil_r. }
  by exists n, l0, errors, ll, sl, lr, sr.
Qed.

(** A call without the fatal policy that returns was made on a tree: its
    visits are the unfolding of the hierarchy below the node, so that the
    tree of [audit_visits_reachable_nodes_once] is no more than what the
    return of the call needs. *)
Lemma audit_returns_on_trees_only (b : bvh) fuel :
  forall i l s,
    check_bvh_volumes fuel b false i = (l, Ret s) ->
    subtree b (Internal i) (visits l).
Proof.
  induction fuel as [|fuel IH]; intros i l s H; [done|].
  apply check_bvh_volumes_nonfatal_inv in H
    as (n & l0 & errors & ll & sl & lr & sr & Hn & Hloc & HL & HR & ->).
  assert (Haudit : forall c l' s',
            audit fuel b false c = (l', Ret s') -> subtree b c (visits l')).
  { intros [c|k] l' s' Ha; simpl in Ha.
    - by apply IH in Ha.
    - injection Ha as <- _. apply subtree_leaf. }
  apply local_errors_value in Hloc as (_ & _ & Hv0).
  change (visits (Visit i :: l0 ++ ll ++ lr)) with (i :: visits (l0 ++ ll ++ lr)).
  rewrite !visits_app, Hv0. simpl.
  apply (subtree_node b i n); [done|by eapply Haudit..].
Qed.

Lemma local_errors_reports (b : bvh) i n l0 errors c sub :
  local_errors b i n = (l0, Ret errors) ->
  b !! c = Some sub ->
  flt (volume_of (box n)) (volume_of (box sub)) = true ->
  (left n = Internal c ->
   LeftVolume i c (volume_of (box n)) (volume_of (box sub)) ∈ l0) /\
  (right n = Internal c ->
   RightVolume i c (volume_of (box n)) (volume_of (box sub)) ∈ l0).
Proof.
  rewrite local_errors_eq.
  intros (l1 & e1 & l2 & H1 & H2 & ->)%bind_value Hc Hlt.
  rewrite check_sub_volume_eq in H1, H2. split; intros Hside.
  - rewrite Hside, Hc, Hlt in H1. injection H1 as <- _.
    apply elem_of_app. left. apply list_elem_of_here.
  - rewrite Hside, Hc, Hlt in H2. injection H2 as <- _.
    apply elem_of_app. right. apply list_elem_of_here.
Qed.

(** X21.  Without the fatal policy, a call of [check_bvh_volumes] that
    returns has printed every violation below the node it started at: for
    every node reachable from it and each internal child whose volume the
    node's volume is less than, the left or right volume line of the pair
    is in the output. *)
Theorem nonfatal_audit_reports_every_violation fuel (b : bvh) i l s j n c sub :
  check_bvh_volumes fuel b false i = (l, Ret s) ->
  reachable b i j -> b !! j = Some n -> b !! c = Some sub ->
  flt (volume_of (box n)) (volume_of (box sub)) = true ->
  (left n = Internal c ->
   LeftVolume j c (volume_of (box n)) (volume_of (box sub)) ∈ l) /\
  (right n = Internal c ->
   RightVolume j c (volume_of (box n)) (volume_of (box sub)) ∈ l).
Proof.
  intros H Hreach Hn Hc Hlt. revert fuel l s H.
  induction Hreach as [i|i k j (ni & Hi & Hk) _ IH]; intros fuel l s H;
    (destruct fuel as [|fuel]; [done|]);
    apply check_bvh_volumes_nonfatal_inv in H
      as (n' & l0 & errors & ll & sl & lr & sr & Hn' & Hloc & HL & HR & ->).
  - rewrite Hn in Hn'. injection Hn' as <-.
    destruct (local_errors_reports b i n l0 errors c sub Hloc Hc Hlt) as [Hl Hr].
    split; intros Hside; apply list_elem_of_further, elem_of_app; left; auto.
  - rewrite Hi in Hn'. injection Hn' as <-.
    apply kids_internal in Hk as [Hk|Hk].
    + rewrite Hk in HL. simpl in HL. destruct (IH Hn fuel ll sl HL) as [Hl Hr].
      split; intros Hside; apply list_elem_of_further, elem_of_app; right;
        apply elem_of_app; left; auto.
    + rewrite Hk in HR. simpl in HR. destruct (IH Hn fuel lr sr HR) as [Hl Hr].
      split; intros Hside; apply list_elem_of_further, elem_of_app; right;
        apply elem_of_app; right; auto.
Qed.

Lemma nonfatal_audit_reports_every_violation_witness :
  (left (mk f1 (Internal 3) (Leaf 0)) = Internal 3 ->
   LeftVolume 1 3 (volume_of (box (mk f1 (Internal 3) (Leaf 0))))
     (volume_of (box (mk f2 (Leaf 3) (Leaf 4))))
   ∈ [Visit 0; Visit 1; LeftVolume 1 3 f1 f2; Visit 3; Visit 2]) /\
  (right (mk f1 (Internal 3) (Leaf 0)) = Internal 3 ->
   RightVolume 1 3 (volume_of (box (mk f1 (Internal 3) (Leaf 0))))
     (volume_of (box (mk f2 (Leaf 3) (Leaf 4))))
   ∈ [Visit 0; Visit 1; LeftVolume 1 3 f1 f2; Visit 3; Visit 2]).
Proof.
  apply (nonfatal_audit_reports_every_violation 4 left_bad 0
           [Visit 0; Visit 1; LeftVolume 1 3 f1 f2; Visit 3; Visit 2]
           EXIT_FAILURE 1 (mk f1 (Internal 3) (Leaf 0)) 3 (mk f2 (Leaf 3) (Leaf 4))).
  - by_running.
  - apply (rtc_l _ _ 1); [|apply rtc_refl].
    exists (mk f2 (Internal 1) (Internal 2)). split; [reflexivity|].
    apply list_elem_of_here.
  - reflexivity.
  - reflexivity.
  - reflexivity.
Defined.

(** ** The sweeps count the references *)

(** X22.  The first sweep (lines 104-113) counts the references: when
    every reference to an internal node is below [bvh.size()], it ends
    without output and [node_counts[i]] is the number of child references
    to the internal node [i], for every [i] below [bvh.size()]. *)
Theorem node_sweep_counts_references (b : bvh) mem :
  (forall i, Internal i ∈ children b -> i < length b) ->
  node_sweep b mem =
  ([], Ret (map (fun i => references b (Internal i)) (seq 0 (length b)))).
Proof.
  intros Hin. rewrite node_sweep_eq.
  assert (forallb (fits node_ref (length b)) (children b) = true) as ->; [|done].
  apply forallb_forall. intros [i|k] Hc%list_elem_of_In; [|done].
  simpl. apply Nat.ltb_lt. by apply Hin.
Qed.

Lemma node_sweep_counts_references_witness :
  node_sweep sound calm =
  ([], Ret (map (fun i => references sound (Internal i)) (seq 0 (length sound)))).
Proof.
  apply (node_sweep_counts_references sound calm).
  intros i Hi. simpl in Hi.
  repeat (apply elem_of_cons in Hi as [Hi|Hi]; [try discriminate Hi|]).
  - injection Hi as ->. simpl. lia.
  - injection Hi as ->. simpl. lia.
  - by apply elem_of_nil in Hi.
Defined.

(** X23.  The second sweep (lines 136-147) counts the leaf references of
    the nodes and of the slot that it reads one past the node array: when
    these are all at most [bvh.size()], it ends, and [leaf_counts[k]] is
    the number of references to the leaf [k] among the children of the
    nodes and of that slot, for every [k] up to [bvh.size()]. *)
Theorem leaf_sweep_counts_references (b : bvh) mem :
  (forall k, Leaf k ∈ children b ++ kids (past_nodes mem) -> k <= length b) ->
  leaf_sweep b mem =
  ([NodeOverrun (length b)],
   Ret (map (fun k =>
              count_occ child_eq_dec (children b ++ kids (past_nodes mem)) (Leaf k))
          (seq 0 (length b + 1)))).
Proof.
  intros Hin. rewrite leaf_sweep_eq.
  assert (Hfit : forall cs, (forall k, Leaf k ∈ cs -> k <= length b) ->
            forallb (fits leaf_ref (length b + 1)) cs = true).
  { intros cs Hcs. apply forallb_forall. intros [i|k] Hc%list_elem_of_In; [done|].
    simpl. apply Nat.ltb_lt. specialize (Hcs k Hc). lia. }
  rewrite (Hfit (children b)), bind_tell, (Hfit (kids (past_nodes mem))); [done|..];
    intros k Hk; apply Hin, elem_of_app; first [by left|by right].
Qed.

Lemma leaf_sweep_counts_references_witness :
  leaf_sweep two_leaves (noisy 0) = ([NodeOverrun 1], Ret [2; 1]).
Proof.
  apply (leaf_sweep_counts_references two_leaves (noisy 0)).
  intros k Hk. simpl in Hk.
  repeat (apply elem_of_cons in Hk as [Hk|Hk]; [try discriminate Hk|]).
  - injection Hk as ->. simpl. lia.
  - injection Hk as ->. simpl. lia.
  - injection Hk as ->. simpl. lia.
  - by apply elem_of_nil in Hk.
Defined.

(** ** Every line is true *)

Lemma check_loop_log mem fatal counts report indices errors e :
  Forall (fun i => i < length counts) indices ->
  e ∈ (for_indices_or_return (check_count mem fatal counts report)
         indices errors).1 ->
  exists i n, i ∈ indices /\ counts !! i = Some n /\ n <> 1 /\ e = report i n.
Proof.
  intros Hin He.
  assert (Hbad : e ∈ flat_map (bad_count counts report) indices).
  { destruct fatal.
    - rewrite (check_loop_first _ _ _ _ _ Hin) in He.
      destruct (flat_map _ indices) as [|e0 rest]; [done|].
      apply list_elem_of_singleton in He as ->. apply list_elem_of_here.
    - by rewrite (check_loop_all _ _ _ _ _ Hin) in He. }
  apply list_elem_of_In, in_flat_map in Hbad as (i & Hi%list_elem_of_In & Hbad).
  unfold bad_count in Hbad. destruct (counts !! i) as [n|] eqn:Hn; [|done].
  destruct (n =? 1) eqn:E; [done|]. destruct Hbad as [<-|[]].
  exists i, n. split; [done|]. split; [done|]. split; [|done].
  by apply Nat.eqb_neq.
Qed.

Lemma check_root_log (b : bvh) mem fatal e :
  e ∈ (check_root mem fatal (tally Internal (children b) (length b))).1 ->
  line_is_true b mem e.
Proof.
  destruct b as [|n0 b'].
  - unfold check_root, count_index, bind, tell, ret. simpl.
    destruct (0 <? past_counts mem) eqn:E; simpl.
    + intros [->|[->|[]%elem_of_nil]%elem_of_cons]%elem_of_cons; simpl; [done|].
      apply Nat.ltb_lt in E. done.
    + by intros [->|[]%elem_of_nil]%elem_of_cons.
  - rewrite check_root_tally by done. simpl. unfold root_violation.
    destruct (0 <? _) eqn:E; [|by intros ?%elem_of_nil].
    intros ->%list_elem_of_singleton. simpl. apply Nat.ltb_lt in E. done.
Qed.

Lemma leaf_sweep_log (b : bvh) mem e :
  e ∈ (leaf_sweep b mem).1 -> e = NodeOverrun (length b).
Proof.
  rewrite leaf_sweep_eq. case_match; [|by intros ?%elem_of_nil].
  rewrite bind_tell. simpl.
  intros [->|He]%elem_of_cons; [done|]. by case_match; apply elem_of_nil in He.
Qed.

Lemma leaf_sweep_value (b : bvh) mem leaf_counts :
  (leaf_sweep b mem).2 = Ret leaf_counts ->
  leaf_counts = tally Leaf (children b ++ kids (past_nodes mem)) (length b + 1).
Proof.
  rewrite leaf_sweep_eq. case_match; [|done].
  rewrite bind_tell. simpl. case_match; [|done]. simpl. by intros [= <-].
Qed.

(** X24.  Every line that [check_bvh] prints is true, on any hierarchy,
    under either policy and whatever lies past the arrays: a node or leaf
    line names a counter of its loop (the root is not one of the node
    loop) with the number of references that the sweep counted for it,
    which is not 1; the root line gives the positive number of references
    to the root; and the events of the audit are as [truthful] says.  The only
    reads outside the vectors are that of the slot one past the node
    array, by the leaf sweep, and that of the root's counter when the
    hierarchy has no node. *)
Theorem every_line_is_true fuel (b : bvh) mem fatal :
  Forall (line_is_true b mem) (check_bvh fuel b mem fatal).1.
Proof.
  apply Forall_forall. intros e He. unfold check_bvh in He.
  rewrite node_sweep_eq in He.
  destruct (forallb _ _); [|by apply elem_of_nil in He].
  rewrite bind_ret in He.
  apply bind_log_elem in He as [He|(stop & _ & He)]; [by eapply check_root_log|].
  destruct stop; [by apply elem_of_nil in He|].
  apply bind_log_elem in He as [He|(r & _ & He)].
  { unfold check_node_counts in He.
    apply check_loop_log in He as (i & n & Hi%elem_of_seq & Hn & Hne & ->).
    - rewrite tally_length in Hi.
      rewrite tally_lookup in Hn by lia.
      injection Hn as <-. simpl. split; [lia|done].
    - apply seq_after_root. }
  destruct r as [errors|]; [|by apply elem_of_nil in He].
  apply bind_log_elem in He as [He|(leaf_counts & Hlc & He)].
  { by apply leaf_sweep_log in He as ->. }
  apply leaf_sweep_value in Hlc as ->.
  apply bind_log_elem in He as [He|(r & _ & He)].
  { unfold check_leaf_counts in He.
    apply check_loop_log in He as (k & n & Hk%elem_of_seq & Hn & Hne & ->).
    - rewrite tally_lookup in Hn by lia.
      injection Hn as <-. simpl. split; [lia|done].
    - rewrite tally_length. apply (seq_below 0). }
  destruct r as [errors'|]; [|by apply elem_of_nil in He].
  destruct (0 <? errors'); [by apply elem_of_nil in He|].
  apply check_bvh_volumes_truthful in He. by destruct e.
Qed.
